(** * psiphon/notice.go: the notice emitter, the envelope codec and the
      frame receiver, embedded in Rocq.

    Go's [string] and [[]byte] are both sequences of bytes; they are
    [list byte] here.  Go's [int] is taken at its width on amd64, 64 bits;
    it is a [Z] with the range written out where the code depends on
    it. *)

From Stdlib Require Import Strings.Byte Strings.String.
From Stdlib Require Import ZArith List Bool Lia Arith.
Import ListNotations.

Set Warnings "-register-all".
Local Open Scope Z_scope.

(** ** Bytes *)

Definition bytes := list byte.

(** A literal of the source, as bytes. *)
Definition bs (s : string) : bytes := list_byte_of_string s.

Definition b2z (b : byte) : Z := Z.of_N (Byte.to_N b).

Definition z2b (z : Z) : byte :=
  match Byte.of_N (Z.to_N z) with
  | Some b => b
  | None => x00
  end.

Definition byte_eqb (a b : byte) : bool := Byte.eqb a b.

Fixpoint bytes_eqb (s t : bytes) : bool :=
  match s, t with
  | [], [] => true
  | a :: s', b :: t' => byte_eqb a b && bytes_eqb s' t'
  | _, _ => false
  end.

(** The record delimiter, ['\n']. *)
Definition newline : byte := x0a.
(** The double quote and the backslash, which a Rocq literal cannot hold
    conveniently. *)
Definition dquote : byte := x22.
Definition backslash : byte := x5c.

(** Go's [len], as an [int]. *)
Definition len {A} (s : list A) : Z := Z.of_nat (length s).

(** Go's slice expressions [s[:i]] and [s[i:]] for an index in range. *)
Definition slice_to {A} (s : list A) (i : Z) : list A := firstn (Z.to_nat i) s.
Definition slice_from {A} (s : list A) (i : Z) : list A := skipn (Z.to_nat i) s.

Fixpoint has_prefix (sep s : bytes) : bool :=
  match sep, s with
  | [], _ => true
  | a :: sep', b :: s' => byte_eqb a b && has_prefix sep' s'
  | _ :: _, [] => false
  end.

(** [bytes.Index(s, sep)]: the index of the first instance of [sep] in [s],
    or -1. *)
Fixpoint Index (s sep : bytes) : Z :=
  if has_prefix sep s then 0
  else match s with
       | [] => -1
       | _ :: s' => let i := Index s' sep in if i <? 0 then -1 else i + 1
       end.

(** ** NoticeReceiver *)

Module Receiver.

(** The struct: the mutex has no content in a sequential run; the callback
    is a [func([]byte)] run for its effect, which is recorded as the list of
    the arguments it was called with, in order. *)
Record NoticeReceiver := mkReceiver { buffer : bytes }.

Definition NewNoticeReceiver : NoticeReceiver := mkReceiver [].

(** What one call of [Write] does: the receiver afterwards, the callback
    invocations it made, and its results [(n, err)]; [err] is [None] for
    [nil]. *)
Record WriteResult := mkWriteResult {
  after : NoticeReceiver;
  calls : list bytes;
  n : Z;
  err : option bytes
}.

Definition Write (receiver : NoticeReceiver) (p : bytes) : WriteResult :=
  let buffer1 := buffer receiver ++ p in
  let index := Index buffer1 [newline] in
  if index =? -1 then
    mkWriteResult (mkReceiver buffer1) [] (len p) None
  else
    let notice := slice_to buffer1 index in
    let buffer2 := slice_from buffer1 (index + 1) in
    mkWriteResult (mkReceiver buffer2) [notice] (len p) None.

(** A reader loop: the chunks are written one after the other; the callback
    invocations of all the calls, in order. *)
Fixpoint WriteAll (receiver : NoticeReceiver) (chunks : list bytes)
  : NoticeReceiver * list bytes :=
  match chunks with
  | [] => (receiver, [])
  | p :: rest =>
      let r := Write receiver p in
      let '(final, later) := WriteAll (after r) rest in
      (final, calls r ++ later)
  end.

(** The records of a stream: the byte runs that end at each delimiter. *)
Fixpoint records_from (cur : bytes) (s : bytes) : list bytes :=
  match s with
  | [] => []
  | b :: s' =>
      if byte_eqb b newline then rev cur :: records_from [] s'
      else records_from (b :: cur) s'
  end.

Definition records (s : bytes) : list bytes := records_from [] s.

End Receiver.

(** ** The buffer as a slice

    [Write] once more, with [receiver.buffer], [notice] and the arrays
    behind them as Go has them: [append] writes into the array of the
    buffer when its capacity allows and moves to a new array otherwise,
    and the slice expressions [buffer[:index]] and [buffer[index+1:]]
    share the array of [buffer]. *)

Module Slices.

Import Receiver.

(** A slice: the array it points into, where it starts in it, its length
    and its capacity. *)
Record slice := mkSlice { arr : nat; off : nat; slen : nat; scap : nat }.

(** The arrays allocated so far, by number. *)
Definition heap := list bytes.

Definition array (h : heap) (a : nat) : bytes := nth a h [].

(** The bytes a slice holds. *)
Definition read (h : heap) (s : slice) : bytes :=
  firstn (slen s) (skipn (off s) (array h (arr s))).

(** [copy(a[pos:], p)] for a [p] that fits. *)
Definition write_at (a : bytes) (pos : nat) (p : bytes) : bytes :=
  firstn pos a ++ p ++ skipn (pos + length p) a.

Fixpoint set_array (h : heap) (i : nat) (a : bytes) : heap :=
  match h, i with
  | [], _ => []
  | _ :: t, O => a :: t
  | x :: t, S i' => x :: set_array t i' a
  end.

(** A nil slice: no length and no capacity; array 0 is empty. *)
Definition nil_slice : slice := mkSlice 0 0 0 0.
Definition empty_heap : heap := [[]].

Section Append.

(** The capacity [append] gives the new array, from the capacity it has
    and the length it needs. *)
Variable grow : nat -> nat -> nat.

(** [append(s, p...)]. *)
Definition append (h : heap) (s : slice) (p : bytes) : heap * slice :=
  let need := (slen s + length p)%nat in
  if Nat.leb need (scap s) then
    (set_array h (arr s)
       (write_at (array h (arr s)) (off s + slen s) p),
     mkSlice (arr s) (off s) need (scap s))
  else
    let c := grow (scap s) need in
    (h ++ [read h s ++ p ++ repeat x00 (c - need)],
     mkSlice (length h) 0 need c).

(** [Write] on a receiver whose buffer is the slice [buffer]: the heap and
    the buffer afterwards, and the slices the callback was called with. *)
Definition Write (h : heap) (buffer : slice) (p : bytes)
  : heap * slice * list slice :=
  let '(h1, buffer1) := append h buffer p in
  let index := Index (read h1 buffer1) [newline] in
  if index =? -1 then (h1, buffer1, [])
  else
    let i := Z.to_nat index in
    let notice := mkSlice (arr buffer1) (off buffer1) i (scap buffer1) in
    let buffer2 :=
      mkSlice (arr buffer1) (off buffer1 + i + 1) (slen buffer1 - i - 1)
        (scap buffer1 - i - 1) in
    (h1, buffer2, [notice]).

Fixpoint WriteAll (h : heap) (buffer : slice) (chunks : list bytes)
  : heap * slice * list slice :=
  match chunks with
  | [] => (h, buffer, [])
  | p :: rest =>
      let '(h1, buffer1, now) := Write h buffer p in
      let '(h2, buffer2, later) := WriteAll h1 buffer1 rest in
      (h2, buffer2, now ++ later)
  end.

End Append.

(** The growth of a slice by doubling, or to what is needed when that is
    more. *)
Definition grow_double (cap need : nat) : nat := Nat.max (2 * cap) need.

(** A buffer in its array. *)
Definition fits (h : heap) (b : slice) : Prop :=
  (arr b < length h /\ slen b <= scap b
   /\ off b + scap b <= length (array h (arr b)))%nat.

(** A slice that lies in another array than the buffer, or before where
    the buffer starts. *)
Definition apart (h : heap) (b s : slice) : Prop :=
  (arr s < length h /\ (arr s <> arr b \/ off s + slen s <= off b))%nat.

End Slices.

(** ** Concurrent writers

    Goroutines that each make one call of [Write] on the same receiver,
    run interleaved, one statement at a time. *)

Module Writers.

Import Receiver.

(** Where a goroutine stands in [Write]: [Entered] after
    [receiver.mutex.Lock()], [Appended] after the [append], [Called] after
    the callback has run; [Returned] after the deferred [Unlock]. *)
Inductive pc := Start | Entered | Appended | Called | Returned.

Record state := mkState {
  mutex : option nat;
  buffer : bytes;
  called : list bytes;
  at_pc : nat -> pc
}.

Definition upd (f : nat -> pc) (i : nat) (x : pc) : nat -> pc :=
  fun j => if Nat.eqb j i then x else f j.

Section System.

(** The chunk each goroutine writes; [None] where there is none. *)
Variable chunk : nat -> option bytes.

Inductive step (s : state) (t : nat) : state -> Prop :=
| step_lock p :
    chunk t = Some p -> at_pc s t = Start -> mutex s = None ->
    step s t (mkState (Some t) (buffer s) (called s) (upd (at_pc s) t Entered))
| step_append p :
    chunk t = Some p -> at_pc s t = Entered ->
    step s t
      (mkState (mutex s) (buffer s ++ p) (called s)
         (upd (at_pc s) t Appended))
| step_no_delimiter :
    at_pc s t = Appended -> Index (buffer s) [newline] = -1 ->
    step s t (mkState None (buffer s) (called s) (upd (at_pc s) t Returned))
| step_callback :
    at_pc s t = Appended -> Index (buffer s) [newline] <> -1 ->
    step s t
      (mkState (mutex s)
         (slice_from (buffer s) (Index (buffer s) [newline] + 1))
         (called s ++ [slice_to (buffer s) (Index (buffer s) [newline])])
         (upd (at_pc s) t Called))
| step_unlock :
    at_pc s t = Called ->
    step s t (mkState None (buffer s) (called s) (upd (at_pc s) t Returned)).

Definition init : state := mkState None [] [] (fun _ => Start).

Inductive reachable : state -> Prop :=
| reach_init : reachable init
| reach_step s t s' : reachable s -> step s t s' -> reachable s'.

(** The chunks of the goroutines of [order], in that order. *)
Fixpoint chunks_of (order : list nat) : list bytes :=
  match order with
  | [] => []
  | t :: rest =>
      match chunk t with
      | Some p => p :: chunks_of rest
      | None => chunks_of rest
      end
  end.


Definition inside (p : pc) : bool :=
  match p with
  | Entered | Appended | Called => true
  | Start | Returned => false
  end.

(** What holds in every state: [order] lists the calls that have taken the
    mutex, the holder last. *)
Record invariant (s : state) (order : list nat) : Prop := {
  inv_mutex : forall t, inside (at_pc s t) = true <-> mutex s = Some t;
  inv_nodup : NoDup order;
  inv_order : forall t,
    In t order <-> at_pc s t = Returned \/ inside (at_pc s t) = true;
  inv_chunk : forall t, at_pc s t <> Start -> chunk t <> None;
  inv_free :
    mutex s = None ->
    WriteAll NewNoticeReceiver (chunks_of order)
    = (mkReceiver (buffer s), called s);
  inv_held : forall t,
    mutex s = Some t ->
    exists before p,
      order = before ++ [t] /\ chunk t = Some p /\
      match at_pc s t with
      | Entered =>
          WriteAll NewNoticeReceiver (chunks_of before)
          = (mkReceiver (buffer s), called s)
      | Appended =>
          exists held,
            WriteAll NewNoticeReceiver (chunks_of before)
            = (mkReceiver held, called s) /\ buffer s = held ++ p
      | _ =>
          WriteAll NewNoticeReceiver (chunks_of order)
          = (mkReceiver (buffer s), called s)
      end
}.

End System.

(** Two writers: a chunk with a record and the start of the next, and
    one with its end. *)
Definition two_writers (t : nat) : option bytes :=
  match t with
  | O => Some [x61; x0a; x62]%byte
  | S O => Some [x63; x0a]%byte
  | _ => None
  end.

(** With two writers: the second makes its call, step by step. *)
Definition second_entered : state :=
  mkState (Some 1%nat) [] []
    (upd (fun _ => Start) 1 Entered).




End Writers.

(** ** unicode/utf8 and unicode/utf16, as encoding/json uses them

    Library code of Go 1.4 (the version ConsoleClient/Dockerfile pins),
    written with the bit operations of its source. *)

Module UTF8.

Definition RuneError : Z := 0xFFFD.
Definition MaxRune : Z := 0x10FFFF.
Definition RuneSelf : Z := 0x80.
Definition surrogateMin : Z := 0xD800.
Definition surrogateMax : Z := 0xDFFF.

(** A continuation byte: not ([c < tx || t2 <= c]). *)
Definition is_cont (c : Z) : bool := (0x80 <=? c) && (c <? 0xC0).

(** [utf8.DecodeRune]: the rune and the width in bytes; [(RuneError, 1)] for
    an encoding that is not valid. *)
Definition DecodeRune (p : bytes) : Z * nat :=
  match p with
  | [] => (RuneError, 0%nat)
  | b0 :: p1 =>
    let c0 := b2z b0 in
    if c0 <? 0x80 then (c0, 1%nat)
    else if c0 <? 0xC0 then (RuneError, 1%nat)
    else
    match p1 with
    | [] => (RuneError, 1%nat)
    | b1 :: p2 =>
      let c1 := b2z b1 in
      if negb (is_cont c1) then (RuneError, 1%nat)
      else if c0 <? 0xE0 then
        let r := Z.lor (Z.shiftl (Z.land c0 0x1F) 6) (Z.land c1 0x3F) in
        if r <=? 0x7F then (RuneError, 1%nat) else (r, 2%nat)
      else
      match p2 with
      | [] => (RuneError, 1%nat)
      | b2 :: p3 =>
        let c2 := b2z b2 in
        if negb (is_cont c2) then (RuneError, 1%nat)
        else if c0 <? 0xF0 then
          let r := Z.lor (Z.lor (Z.shiftl (Z.land c0 0x0F) 12)
                                (Z.shiftl (Z.land c1 0x3F) 6))
                         (Z.land c2 0x3F) in
          if r <=? 0x7FF then (RuneError, 1%nat)
          else if (surrogateMin <=? r) && (r <=? surrogateMax)
               then (RuneError, 1%nat)
          else (r, 3%nat)
        else
        match p3 with
        | [] => (RuneError, 1%nat)
        | b3 :: _ =>
          let c3 := b2z b3 in
          if negb (is_cont c3) then (RuneError, 1%nat)
          else if c0 <? 0xF8 then
            let r := Z.lor (Z.lor (Z.lor (Z.shiftl (Z.land c0 0x07) 18)
                                         (Z.shiftl (Z.land c1 0x3F) 12))
                                  (Z.shiftl (Z.land c2 0x3F) 6))
                           (Z.land c3 0x3F) in
            if (r <=? 0xFFFF) || (MaxRune <? r) then (RuneError, 1%nat)
            else (r, 4%nat)
          else (RuneError, 1%nat)
        end
      end
    end
  end.

(** [byte(x)]: the conversion keeps the low eight bits. *)
Definition byte_of (x : Z) : byte := z2b (Z.land x 0xFF).

(** [utf8.EncodeRune], returning the bytes written.  A rune out of range
    (negative, above [MaxRune], or a surrogate) is written as
    [RuneError]. *)
Definition EncodeRune (r : Z) : bytes :=
  if (0 <=? r) && (r <=? 0x7F) then [byte_of r]
  else if (0 <=? r) && (r <=? 0x7FF) then
    [byte_of (Z.lor 0xC0 (Z.shiftr r 6));
     byte_of (Z.lor 0x80 (Z.land r 0x3F))]
  else
    let r := if (r <? 0) || (MaxRune <? r) then RuneError else r in
    let r := if (surrogateMin <=? r) && (r <=? surrogateMax)
             then RuneError else r in
    if r <=? 0xFFFF then
      [byte_of (Z.lor 0xE0 (Z.shiftr r 12));
       byte_of (Z.lor 0x80 (Z.land (Z.shiftr r 6) 0x3F));
       byte_of (Z.lor 0x80 (Z.land r 0x3F))]
    else
      [byte_of (Z.lor 0xF0 (Z.shiftr r 18));
       byte_of (Z.lor 0x80 (Z.land (Z.shiftr r 12) 0x3F));
       byte_of (Z.lor 0x80 (Z.land (Z.shiftr r 6) 0x3F));
       byte_of (Z.lor 0x80 (Z.land r 0x3F))].



(** unicode/utf16 *)
Definition surr1 : Z := 0xD800.
Definition surr2 : Z := 0xDC00.
Definition surr3 : Z := 0xE000.

Definition IsSurrogate (r : Z) : bool := (surr1 <=? r) && (r <? surr3).

Definition utf16_DecodeRune (r1 r2 : Z) : Z :=
  if (surr1 <=? r1) && (r1 <? surr2) && (surr2 <=? r2) && (r2 <? surr3)
  then Z.lor (Z.shiftl (r1 - surr1) 10) (r2 - surr2) + 0x10000
  else RuneError.

(** A string coerced to well-formed UTF-8: a byte that starts no rune
    becomes the encoding of [RuneError]. *)
Fixpoint coerce_loop (fuel : nat) (p : bytes) : bytes :=
  match fuel with
  | O => []
  | S fuel' =>
    match p with
    | [] => []
    | b :: p' =>
      if b2z b <? RuneSelf then b :: coerce_loop fuel' p'
      else
        let '(r, size) := DecodeRune p in
        EncodeRune r ++ coerce_loop fuel' (skipn size p)
    end
  end.

Definition coerce (p : bytes) : bytes := coerce_loop (length p) p.

(** The shapes of a well-formed rune of two, three and four bytes. *)
Definition rune2 (c0 c1 : Z) : Z := (c0 - 0xC0) * 64 + (c1 - 0x80).
Definition rune3 (c0 c1 c2 : Z) : Z :=
  (c0 - 0xE0) * 4096 + (c1 - 0x80) * 64 + (c2 - 0x80).
Definition rune4 (c0 c1 c2 c3 : Z) : Z :=
  (c0 - 0xF0) * 262144 + (c1 - 0x80) * 4096 + (c2 - 0x80) * 64 + (c3 - 0x80).

Definition cont (b : byte) : Prop := 0x80 <= b2z b < 0xC0.

Inductive decoded : bytes -> Z -> nat -> Prop :=
| dec_empty : decoded [] RuneError 0
| dec_ascii b t : b2z b < 0x80 -> decoded (b :: t) (b2z b) 1
| dec_invalid b t : 0x80 <= b2z b -> decoded (b :: t) RuneError 1
| dec_two b0 b1 t :
    0xC0 <= b2z b0 < 0xE0 -> cont b1 ->
    0x7F < rune2 (b2z b0) (b2z b1) ->
    decoded (b0 :: b1 :: t) (rune2 (b2z b0) (b2z b1)) 2
| dec_three b0 b1 b2 t :
    0xE0 <= b2z b0 < 0xF0 -> cont b1 -> cont b2 ->
    0x7FF < rune3 (b2z b0) (b2z b1) (b2z b2) ->
    ~ (0xD800 <= rune3 (b2z b0) (b2z b1) (b2z b2) <= 0xDFFF) ->
    decoded (b0 :: b1 :: b2 :: t) (rune3 (b2z b0) (b2z b1) (b2z b2)) 3
| dec_four b0 b1 b2 b3 t :
    0xF0 <= b2z b0 < 0xF8 -> cont b1 -> cont b2 -> cont b3 ->
    0xFFFF < rune4 (b2z b0) (b2z b1) (b2z b2) (b2z b3) <= 0x10FFFF ->
    decoded (b0 :: b1 :: b2 :: b3 :: t)
            (rune4 (b2z b0) (b2z b1) (b2z b2) (b2z b3)) 4.

End UTF8.

(** ** encoding/json

    The parts of Go 1.4's encoding/json that notice.go calls: [Marshal] of
    a [map[string]interface{}] and [Unmarshal] into a struct. *)

Module JSON.

Import UTF8.

Inductive error :=
| SyntaxError
| UnmarshalTypeError
| MarshalError (msg : bytes).

Inductive result (A : Type) :=
| Ok (a : A)
| Err (e : error).
Arguments Ok {A} a.
Arguments Err {A} e.

(** The text of [err.Error()]. *)
Definition Error (e : error) : bytes :=
  match e with
  | SyntaxError => bs "invalid character"
  | UnmarshalTypeError => bs "json: cannot unmarshal"
  | MarshalError msg => msg
  end.

(** A dynamic value, as an [interface{}] argument holds one: the field
    types the Notice functions pass (string, int), bool, a
    [map[string]interface{}], and a value [Marshal] rejects with the given
    error text: a channel, a function, a NaN, or a [Marshaler] whose
    [MarshalJSON] returns an error. *)
Inductive value :=
| VString (s : bytes)
| VInt (i : Z)
| VBool (b : bool)
| VMap (m : list (bytes * value))
| VUnsupported (msg : bytes).

(** A Go map with string keys: an association list with distinct keys;
    [m[k] = v] replaces or adds. *)
Definition gomap := list (bytes * value).

Fixpoint map_set (k : bytes) (v : value) (m : gomap) : gomap :=
  match m with
  | [] => [(k, v)]
  | (k', v') :: m' =>
      if bytes_eqb k' k then (k, v) :: m' else (k', v') :: map_set k v m'
  end.

(** *** The encoder *)

Definition hex : bytes := bs "0123456789abcdef".
Definition hex_digit (z : Z) : byte := nth (Z.to_nat z) hex x00.

(** A byte the string encoder copies: at least 0x20 and none of
    backslash, double quote, [<], [>], [&]. *)
Definition safe (c : Z) : bool :=
  (0x20 <=? c) && negb (c =? 0x5c) && negb (c =? 0x22)
  && negb (c =? 0x3c) && negb (c =? 0x3e) && negb (c =? 0x26).

Definition escape_byte (b : byte) : bytes :=
  let c := b2z b in
  if (c =? 0x5c) || (c =? 0x22) then [backslash; b]
  else if c =? 0x0a then [backslash; "n"%byte]
  else if c =? 0x0d then [backslash; "r"%byte]
  else bs "\u00" ++ [hex_digit (Z.shiftr c 4); hex_digit (Z.land c 0xF)].

(** The loop of [encodeState.string]; each round consumes at least one
    byte, so [length s] rounds are enough. *)
Fixpoint string_loop (fuel : nat) (s : bytes) : bytes :=
  match fuel with
  | O => []
  | S fuel' =>
    match s with
    | [] => []
    | b :: s' =>
      let c := b2z b in
      if c <? RuneSelf then
        (if safe c then [b] else escape_byte b) ++ string_loop fuel' s'
      else
        let '(r, size) := DecodeRune s in
        if (r =? RuneError) && Nat.eqb size 1 then
          bs "\ufffd" ++ string_loop fuel' s'
        else if (r =? 0x2028) || (r =? 0x2029) then
          bs "\u202" ++ [hex_digit (Z.land r 0xF)]
             ++ string_loop fuel' (skipn size s)
        else
          firstn size s ++ string_loop fuel' (skipn size s)
    end
  end.

Definition encode_string (s : bytes) : bytes :=
  dquote :: string_loop (length s) s ++ [dquote].

(** [strconv.AppendInt(_, n, 10)]: the digit loop of [formatBits]. *)
Fixpoint formatBits (fuel : nat) (u : Z) (acc : bytes) : bytes :=
  match fuel with
  | O => acc
  | S fuel' =>
    if u <? 10 then z2b (0x30 + u) :: acc
    else formatBits fuel' (u / 10) (z2b (0x30 + (u - (u / 10) * 10)) :: acc)
  end.

Definition itoa (i : Z) : bytes :=
  let u := Z.abs i in
  let digits := formatBits (S (Z.to_nat (Z.log2 u))) u [] in
  if i <? 0 then "-"%byte :: digits else digits.

(** Go's [<] on strings: bytewise. *)
Fixpoint bytes_ltb (s t : bytes) : bool :=
  match s, t with
  | _, [] => false
  | [], _ :: _ => true
  | a :: s', b :: t' =>
      (b2z a <? b2z b) || ((b2z a =? b2z b) && bytes_ltb s' t')
  end.

(** [sort.Sort] of the map's keys, carrying what belongs to each key. *)
Fixpoint insert_key {A} (k : bytes) (x : A) (l : list (bytes * A))
  : list (bytes * A) :=
  match l with
  | [] => [(k, x)]
  | (k', y) :: l' =>
      if bytes_ltb k k' then (k, x) :: l else (k', y) :: insert_key k x l'
  end.

Fixpoint sort_keys {A} (l : list (bytes * A)) : list (bytes * A) :=
  match l with
  | [] => []
  | (k, x) :: l' => insert_key k x (sort_keys l')
  end.

(** The members of a map in key order; the first value that fails to
    encode ends the encoding with its error. *)
Fixpoint encode_members (first : bool) (l : list (bytes * result bytes))
  : result bytes :=
  match l with
  | [] => Ok []
  | (k, rv) :: l' =>
    match rv with
    | Err e => Err e
    | Ok enc =>
      match encode_members false l' with
      | Err e => Err e
      | Ok rest =>
          Ok ((if first then [] else [","%byte])
                ++ encode_string k ++ [":"%byte] ++ enc ++ rest)
      end
    end
  end.

(** [json.Marshal]. *)
Fixpoint Marshal (v : value) : result bytes :=
  match v with
  | VString s => Ok (encode_string s)
  | VInt i => Ok (itoa i)
  | VBool b => Ok (if b then bs "true" else bs "false")
  | VMap m =>
    let encoded :=
      (fix each (m : list (bytes * value)) : list (bytes * result bytes) :=
         match m with
         | [] => []
         | (k, x) :: m' => (k, Marshal x) :: each m'
         end) m in
    match encode_members true (sort_keys encoded) with
    | Ok body => Ok ("{"%byte :: body ++ ["}"%byte])
    | Err e => Err e
    end
  | VUnsupported msg => Err (MarshalError msg)
  end.

(** *** The decoder *)

(** A parsed value.  A number keeps its literal; a member of an object
    keeps, beside its value, the bytes of the value as they stand in the
    input, which is what a [json.RawMessage] field receives. *)
Inductive json :=
| JNull
| JBool (b : bool)
| JNum (lit : bytes)
| JStr (s : bytes)
| JArr (elems : list json)
| JObj (members : list (bytes * bytes * json)).

Definition isSpace (c : Z) : bool :=
  (c =? 0x20) || (c =? 0x09) || (c =? 0x0d) || (c =? 0x0a).

Fixpoint skip_ws (s : bytes) : bytes :=
  match s with
  | [] => []
  | b :: t => if isSpace (b2z b) then skip_ws t else s
  end.

Definition is_digit (c : Z) : bool := (0x30 <=? c) && (c <=? 0x39).

Definition is_hex (c : Z) : bool :=
  is_digit c || ((0x61 <=? c) && (c <=? 0x66)) || ((0x41 <=? c) && (c <=? 0x46)).

Definition hexval (c : Z) : Z :=
  if is_digit c then c - 0x30
  else if (0x61 <=? c) && (c <=? 0x66) then c - 0x61 + 10
  else c - 0x41 + 10.

(** The scanner inside a string literal ([stateInString] and the escape
    states): the body up to the closing quote and what follows the quote. *)
Fixpoint scan_string (s : bytes) : option (bytes * bytes) :=
  match s with
  | [] => None
  | b :: t =>
    let c := b2z b in
    if c =? 0x22 then Some ([], t)
    else if c =? 0x5c then
      match t with
      | [] => None
      | e :: t' =>
        let ce := b2z e in
        if (ce =? 0x62) || (ce =? 0x66) || (ce =? 0x6e) || (ce =? 0x72)
           || (ce =? 0x74) || (ce =? 0x5c) || (ce =? 0x2f) || (ce =? 0x22)
        then match scan_string t' with
             | Some (body, r) => Some (b :: e :: body, r)
             | None => None
             end
        else if ce =? 0x75 then
          match t' with
          | h1 :: h2 :: h3 :: h4 :: t'' =>
            if is_hex (b2z h1) && is_hex (b2z h2)
               && is_hex (b2z h3) && is_hex (b2z h4)
            then match scan_string t'' with
                 | Some (body, r) =>
                     Some (b :: e :: h1 :: h2 :: h3 :: h4 :: body, r)
                 | None => None
                 end
            else None
          | _ => None
          end
        else None
      end
    else if c <? 0x20 then None
    else match scan_string t with
         | Some (body, r) => Some (b :: body, r)
         | None => None
         end
  end.

(** [getu4]: the rune of a [\uXXXX] at the head of [s], or -1. *)
Definition getu4 (s : bytes) : Z :=
  match s with
  | b0 :: b1 :: h1 :: h2 :: h3 :: h4 :: _ =>
    if (b2z b0 =? 0x5c) && (b2z b1 =? 0x75)
       && is_hex (b2z h1) && is_hex (b2z h2)
       && is_hex (b2z h3) && is_hex (b2z h4)
    then ((hexval (b2z h1) * 16 + hexval (b2z h2)) * 16
          + hexval (b2z h3)) * 16 + hexval (b2z h4)
    else -1
  | _ => -1
  end.

(** [unquoteBytes] on the body of a literal: escapes are replaced and the
    rest is coerced to well-formed UTF-8.  (The source first skips the
    longest prefix that needs no change; coercing it rewrites each rune
    as itself.) *)
Fixpoint unquote_loop (fuel : nat) (s : bytes) : option bytes :=
  match fuel with
  | O => match s with [] => Some [] | _ => None end
  | S fuel' =>
    match s with
    | [] => Some []
    | b :: t =>
      let c := b2z b in
      if c =? 0x5c then
        match t with
        | [] => None
        | e :: t' =>
          let ce := b2z e in
          let simple (x : byte) :=
            match unquote_loop fuel' t' with
            | Some out => Some (x :: out)
            | None => None
            end in
          if (ce =? 0x22) || (ce =? 0x5c) || (ce =? 0x2f) || (ce =? 0x27)
          then simple e
          else if ce =? 0x62 then simple x08
          else if ce =? 0x66 then simple x0c
          else if ce =? 0x6e then simple x0a
          else if ce =? 0x72 then simple x0d
          else if ce =? 0x74 then simple x09
          else if ce =? 0x75 then
            let rr := getu4 s in
            if rr <? 0 then None
            else
              let s1 := skipn 6 s in
              if IsSurrogate rr then
                let dec := utf16_DecodeRune rr (getu4 s1) in
                if negb (dec =? RuneError) then
                  match unquote_loop fuel' (skipn 6 s1) with
                  | Some out => Some (EncodeRune dec ++ out)
                  | None => None
                  end
                else
                  match unquote_loop fuel' s1 with
                  | Some out => Some (EncodeRune RuneError ++ out)
                  | None => None
                  end
              else
                match unquote_loop fuel' s1 with
                | Some out => Some (EncodeRune rr ++ out)
                | None => None
                end
          else None
        end
      else if (c =? 0x22) || (c <? 0x20) then None
      else if c <? RuneSelf then
        match unquote_loop fuel' t with
        | Some out => Some (b :: out)
        | None => None
        end
      else
        let '(rr, size) := DecodeRune s in
        match unquote_loop fuel' (skipn size s) with
        | Some out => Some (EncodeRune rr ++ out)
        | None => None
        end
    end
  end.

Definition unquote (body : bytes) : option bytes :=
  unquote_loop (length body) body.

(** A string literal after its opening quote: the decoded string and what
    follows the closing quote. *)
Definition parse_string (s : bytes) : option (bytes * bytes) :=
  match scan_string s with
  | Some (body, r) =>
    match unquote body with
    | Some str => Some (str, r)
    | None => None
    end
  | None => None
  end.

Fixpoint span_digits (s : bytes) : bytes * bytes :=
  match s with
  | [] => ([], [])
  | b :: t =>
    if is_digit (b2z b) then let '(ds, r) := span_digits t in (b :: ds, r)
    else ([], s)
  end.

(** The scanner's number states: an optional minus; then a zero, or a
    digit from 1 to 9 and any digits; then optionally a dot and one digit
    or more; then optionally e or E, an optional sign and one digit or
    more. *)
Definition scan_int_part (s : bytes) : option (bytes * bytes) :=
  match s with
  | [] => None
  | b :: t =>
    if b2z b =? 0x30 then Some ([b], t)
    else if is_digit (b2z b) then
      let '(ds, r) := span_digits t in Some (b :: ds, r)
    else None
  end.

Definition scan_frac (s : bytes) : option (bytes * bytes) :=
  match s with
  | b :: t =>
    if b2z b =? 0x2e then
      match span_digits t with
      | ([], _) => None
      | (ds, r) => Some (b :: ds, r)
      end
    else Some ([], s)
  | [] => Some ([], s)
  end.

Definition scan_exp (s : bytes) : option (bytes * bytes) :=
  match s with
  | b :: t =>
    if (b2z b =? 0x65) || (b2z b =? 0x45) then
      let '(sign, t1) :=
        match t with
        | g :: t1 =>
            if (b2z g =? 0x2b) || (b2z g =? 0x2d) then ([g], t1) else ([], t)
        | [] => ([], t)
        end in
      match span_digits t1 with
      | ([], _) => None
      | (ds, r) => Some (b :: sign ++ ds, r)
      end
    else Some ([], s)
  | [] => Some ([], s)
  end.

Definition scan_number (s : bytes) : option (bytes * bytes) :=
  let '(sign, s0) :=
    match s with
    | b :: t => if b2z b =? 0x2d then ([b], t) else ([], s)
    | [] => ([], s)
    end in
  match scan_int_part s0 with
  | None => None
  | Some (ip, s1) =>
    match scan_frac s1 with
    | None => None
    | Some (fp, s2) =>
      match scan_exp s2 with
      | None => None
      | Some (ep, s3) => Some (sign ++ ip ++ fp ++ ep, s3)
      end
    end
  end.

(** One value at the head of [s] (no leading space) and the rest of the
    input. *)
Fixpoint parse_value (fuel : nat) (s : bytes) {struct fuel}
  : option (json * bytes) :=
  match fuel with
  | O => None
  | S fuel' =>
    match s with
    | [] => None
    | b :: t =>
      let c := b2z b in
      if c =? 0x7b then
        match skip_ws t with
        | [] => None
        | b1 :: t1 =>
          if b2z b1 =? 0x7d then Some (JObj [], t1)
          else match parse_members fuel' (b1 :: t1) with
               | Some (ms, r) => Some (JObj ms, r)
               | None => None
               end
        end
      else if c =? 0x5b then
        match skip_ws t with
        | [] => None
        | b1 :: t1 =>
          if b2z b1 =? 0x5d then Some (JArr [], t1)
          else match parse_elements fuel' (b1 :: t1) with
               | Some (es, r) => Some (JArr es, r)
               | None => None
               end
        end
      else if c =? 0x22 then
        match parse_string t with
        | Some (str, r) => Some (JStr str, r)
        | None => None
        end
      else if has_prefix (bs "true") s then Some (JBool true, skipn 4 s)
      else if has_prefix (bs "false") s then Some (JBool false, skipn 5 s)
      else if has_prefix (bs "null") s then Some (JNull, skipn 4 s)
      else
        match scan_number s with
        | Some (lit, r) => Some (JNum lit, r)
        | None => None
        end
    end
  end

with parse_members (fuel : nat) (s : bytes) {struct fuel}
  : option (list (bytes * bytes * json) * bytes) :=
  match fuel with
  | O => None
  | S fuel' =>
    match s with
    | [] => None
    | b :: t =>
      if b2z b =? 0x22 then
        match parse_string t with
        | None => None
        | Some (key, r1) =>
          match skip_ws r1 with
          | [] => None
          | b2 :: r2 =>
            if b2z b2 =? 0x3a then
              let r3 := skip_ws r2 in
              match parse_value fuel' r3 with
              | None => None
              | Some (v, r4) =>
                let raw := firstn (length r3 - length r4) r3 in
                match skip_ws r4 with
                | [] => None
                | b5 :: r5 =>
                  if b2z b5 =? 0x2c then
                    match parse_members fuel' (skip_ws r5) with
                    | Some (ms, r6) => Some ((key, raw, v) :: ms, r6)
                    | None => None
                    end
                  else if b2z b5 =? 0x7d then Some ([(key, raw, v)], r5)
                  else None
                end
              end
            else None
          end
        end
      else None
    end
  end

with parse_elements (fuel : nat) (s : bytes) {struct fuel}
  : option (list json * bytes) :=
  match fuel with
  | O => None
  | S fuel' =>
    match parse_value fuel' s with
    | None => None
    | Some (v, r1) =>
      match skip_ws r1 with
      | [] => None
      | b2 :: r2 =>
        if b2z b2 =? 0x2c then
          match parse_elements fuel' (skip_ws r2) with
          | Some (es, r3) => Some (v :: es, r3)
          | None => None
          end
        else if b2z b2 =? 0x5d then Some ([v], r2)
        else None
      end
    end
  end.

(** [checkValid] and the walk of the decoder: one value, with space
    allowed around it and nothing else.  A nested call gets one unit of
    fuel less and an input at least one byte shorter, through at most two
    calls per byte, so twice the length of the input is enough. *)
Definition parse (data : bytes) : option json :=
  match parse_value (2 * length data + 1) (skip_ws data) with
  | Some (v, r) => match skip_ws r with [] => Some v | _ :: _ => None end
  | None => None
  end.

(** [strconv.ParseInt(s, 10, 64)]. *)
Fixpoint digits_value (acc : Z) (s : bytes) : option Z :=
  match s with
  | [] => Some acc
  | b :: t =>
    if is_digit (b2z b) then digits_value (acc * 10 + (b2z b - 0x30)) t
    else None
  end.

Definition ParseInt (s : bytes) : option Z :=
  match s with
  | [] => None
  | b :: t =>
    let neg := b2z b =? 0x2d in
    let ds := if neg || (b2z b =? 0x2b) then t else s in
    match ds with
    | [] => None
    | _ :: _ =>
      match digits_value 0 ds with
      | None => None
      | Some u =>
        let i := if neg then - u else u in
        if (- 2 ^ 63 <=? i) && (i <=? 2 ^ 63 - 1) then Some i else None
      end
    end
  end.

(** *** Matching an object key to a struct field (fold.go) *)

(** [b & caseMask], with [caseMask = ^byte(0x20)]. *)
Definition caseMask (c : Z) : Z := Z.land c 0xDF.

Definition is_upper (c : Z) : bool := (0x41 <=? c) && (c <=? 0x5a).
Definition is_lower (c : Z) : bool := (0x61 <=? c) && (c <=? 0x7a).

Fixpoint simpleLetterEqualFold (s t : bytes) : bool :=
  match s, t with
  | [], [] => true
  | a :: s', b :: t' =>
      (caseMask (b2z a) =? caseMask (b2z b)) && simpleLetterEqualFold s' t'
  | _, _ => false
  end.

Fixpoint asciiEqualFold (s t : bytes) : bool :=
  match s, t with
  | [], [] => true
  | a :: s', b :: t' =>
      let sb := b2z a in
      let tb := b2z b in
      (if sb =? tb then true
       else if is_lower sb || is_upper sb
            then caseMask sb =? caseMask tb else false)
      && asciiEqualFold s' t'
  | _, _ => false
  end.

Definition kelvin : Z := 0x212A.
Definition smallLongEss : Z := 0x17F.

Fixpoint equalFoldRight (s t : bytes) : bool :=
  match s with
  | [] => match t with [] => true | _ :: _ => false end
  | a :: s' =>
    match t with
    | [] => false
    | b :: t' =>
      let sb := b2z a in
      let tb := b2z b in
      if tb <? RuneSelf then
        if sb =? tb then equalFoldRight s' t'
        else
          let sbUpper := caseMask sb in
          if is_upper sbUpper then
            if sbUpper =? caseMask tb then equalFoldRight s' t' else false
          else false
      else
        let '(tr, size) := DecodeRune t in
        if (sb =? 0x73) || (sb =? 0x53) then
          if tr =? smallLongEss then equalFoldRight s' (skipn size t)
          else false
        else if (sb =? 0x6b) || (sb =? 0x4b) then
          if tr =? kelvin then equalFoldRight s' (skipn size t) else false
        else false
    end
  end.

(** [foldFunc]: which comparison a field name gets.  The names of
    notice.go are ASCII; the case of a name with a byte at or above
    [RuneSelf] ([bytes.EqualFold]) does not arise. *)
Definition foldFunc (name : bytes) : bytes -> bytes -> bool :=
  let upper (b : byte) := caseMask (b2z b) in
  let special :=
    existsb (fun b => is_upper (upper b)
                      && ((upper b =? 0x4b) || (upper b =? 0x53))) name in
  let nonLetter := existsb (fun b => negb (is_upper (upper b))) name in
  if special then equalFoldRight
  else if nonLetter then asciiEqualFold
  else simpleLetterEqualFold.

(** The loop of [decodeState.object] that picks the field of a key: an
    exact match ends the search, the first match up to case is kept
    otherwise. *)
Fixpoint find_field {F} (fields : list (bytes * F)) (key : bytes)
  (f : option F) : option F :=
  match fields with
  | [] => f
  | (name, ff) :: rest =>
    if bytes_eqb name key then Some ff
    else
      find_field rest key
        (match f with
         | None => if foldFunc name name key then Some ff else None
         | Some _ => f
         end)
  end.

(** What the decoder stores into a string field and into an int field;
    [None] is an [UnmarshalTypeError].  A [null] leaves the field as it
    was. *)
Definition store_string (old : bytes) (v : json) : option bytes :=
  match v with
  | JStr s => Some s
  | JNull => Some old
  | _ => None
  end.

Definition store_int (old : Z) (v : json) : option Z :=
  match v with
  | JNum lit => ParseInt lit
  | JNull => Some old
  | _ => None
  end.


(** *** What the encoder writes, as the decoder reads it *)

(** What may follow a value: the end of the input, or a byte that does
    not continue a number (a comma, a closing brace, a space). *)
Definition ends_value (rest : bytes) : Prop :=
  match rest with
  | [] => True
  | b :: _ =>
      is_digit (b2z b) = false /\ b2z b <> 0x2e
      /\ b2z b <> 0x65 /\ b2z b <> 0x45
  end.

(** [enc] is read as [j] whatever follows it inside an object, by any fuel
    from [F] on; and it does not start with a space. *)
Definition reads_as (F : nat) (enc : bytes) (j : json) : Prop :=
  (forall rest fuel, ends_value rest -> (F <= fuel)%nat ->
     parse_value fuel (enc ++ rest) = Some (j, rest))
  /\ match enc with
     | [] => False
     | b :: _ => isSpace (b2z b) = false
     end.

(** The members of an object as the encoder writes them, given the
    encoding of each value. *)
Fixpoint members_text (first : bool) (l : list (bytes * bytes)) : bytes :=
  match l with
  | [] => []
  | (k, enc) :: l' =>
      (if first then [] else [","%byte])
        ++ encode_string k ++ [":"%byte] ++ enc ++ members_text false l'
  end.

(** What a scalar is read back as. *)
Definition scalar (v : value) : Prop :=
  match v with
  | VString _ | VInt _ | VBool _ => True
  | VMap _ | VUnsupported _ => False
  end.

Definition scalar_encoding (v : value) : bytes :=
  match v with
  | VString s => encode_string s
  | VInt i => itoa i
  | VBool b => if b then bs "true" else bs "false"
  | VMap _ | VUnsupported _ => []
  end.

Definition scalar_tree (v : value) : json :=
  match v with
  | VString s => JStr (coerce s)
  | VInt i => JNum (itoa i)
  | VBool b => JBool b
  | VMap _ | VUnsupported _ => JNull
  end.

(** The sorted members of a map of scalars, each with its encoding and
    what it is read back as. *)
Definition flat_entries (m : gomap) : list (bytes * bytes * json) :=
  map (fun kv => (fst kv, scalar_encoding (snd kv), scalar_tree (snd kv)))
      (sort_keys m).

Definition flat_text (m : gomap) : bytes :=
  "{"%byte :: members_text true (map fst (flat_entries m)) ++ ["}"%byte].

Definition flat_tree (m : gomap) : json :=
  JObj (map (fun e => (coerce (fst (fst e)), snd (fst e), snd e))
            (flat_entries m)).

(** No control byte, so no newline. *)
Definition printable (s : bytes) : Prop := Forall (fun b => 0x20 <= b2z b) s.

(** Keys in strictly rising order. *)
Fixpoint rising {A} (l : list (bytes * A)) : Prop :=
  match l with
  | [] => True
  | (k, _) :: l' => Forall (fun e => bytes_ltb k (fst e) = true) l' /\ rising l'
  end.

(** Bytes the string encoder copies as they are, and that are ASCII. *)
Definition plain (s : bytes) : Prop :=
  Forall (fun b => safe (b2z b) = true /\ b2z b < 0x80) s.

End JSON.

(** ** The notice emitter and the envelope codec *)

Module Notice.

Import UTF8 JSON.

(** A [log.Logger] made by [log.New(output, "", 0)], by what its writer
    has received.  [Print] writes the text, and a newline after it unless
    the text is empty or ends in one. *)
Record Logger := mkLogger { written : bytes }.

Definition ends_in_newline (s : bytes) : bool :=
  match rev s with
  | b :: _ => byte_eqb b newline
  | [] => false
  end.

Definition Print (l : Logger) (s : bytes) : Logger :=
  let line :=
    match s with
    | [] => s
    | _ :: _ => if ends_in_newline s then s else s ++ [newline]
    end in
  mkLogger (written l ++ line).

(** [SetNoticeOutput]: the logger is replaced by one on the new writer. *)
Definition SetNoticeOutput (output : bytes) : Logger := mkLogger output.

(** The loop over [args]: a name that is a string sets its field, another
    name is skipped with its value, a value left alone at the end is
    dropped. *)
Fixpoint collect_args (args : list value) (noticeData : gomap) : gomap :=
  match args with
  | name :: v :: rest =>
    collect_args rest
      (match name with
       | VString s => map_set s v noticeData
       | _ => noticeData
       end)
  | _ => noticeData
  end.

Section Emitter.

(** [ContextError] is defined elsewhere in the package and is not among
    the sources; it is a parameter: the text that the error it returns
    prints as under [%s]. *)
Variable ContextError : error -> bytes.

(** The local [obj] of [outputNotice]; [timestamp] is
    [time.Now().UTC().Format(time.RFC3339)]. *)
Definition notice_obj (timestamp noticeType : bytes) (showUser : bool)
  (args : list value) : gomap :=
  let noticeData := collect_args args [] in
  map_set (bs "timestamp") (VString timestamp)
    (map_set (bs "data") (VMap noticeData)
       (map_set (bs "showUser") (VBool showUser)
          (map_set (bs "noticeType") (VString noticeType) []))).

(** The local [output] of [outputNotice]. *)
Definition notice_output (timestamp noticeType : bytes) (showUser : bool)
  (args : list value) : bytes :=
  match Marshal (VMap (notice_obj timestamp noticeType showUser args)) with
  | Ok encodedJson => encodedJson
  | Err err =>
      bs "{" ++ [dquote] ++ bs "Alert" ++ [dquote] ++ bs ":{" ++ [dquote]
         ++ bs "message" ++ [dquote] ++ bs ":" ++ [dquote]
         ++ ContextError err ++ [dquote] ++ bs "}}"
  end.

Definition outputNotice (timestamp : bytes) (noticeLogger : Logger)
  (noticeType : bytes) (showUser : bool) (args : list value) : Logger :=
  Print noticeLogger (notice_output timestamp noticeType showUser args).

(** The Notice functions; [message] is the text [fmt.Sprintf] made. *)
Definition NoticeInfo now l (message : bytes) :=
  outputNotice now l (bs "Info") false [VString (bs "message"); VString message].
Definition NoticeAlert now l (message : bytes) :=
  outputNotice now l (bs "Alert") false [VString (bs "message"); VString message].
Definition NoticeError now l (message : bytes) :=
  outputNotice now l (bs "Error") true [VString (bs "message"); VString message].
Definition NoticeCoreVersion now l (version : bytes) :=
  outputNotice now l (bs "CoreVersion") false [VString (bs "version"); VString version].
Definition NoticeCandidateServers now l (region protocol : bytes) (count : Z) :=
  outputNotice now l (bs "CandidateServers") false
    [VString (bs "region"); VString region;
     VString (bs "protocol"); VString protocol;
     VString (bs "count"); VInt count].
Definition NoticeConnectingServer now l
  (ipAddress region protocol frontingAddress : bytes) :=
  outputNotice now l (bs "ConnectingServer") false
    [VString (bs "ipAddress"); VString ipAddress;
     VString (bs "region"); VString region;
     VString (bs "protocol"); VString protocol;
     VString (bs "frontingAddress"); VString frontingAddress].
Definition NoticeActiveTunnel now l (ipAddress : bytes) :=
  outputNotice now l (bs "ActiveTunnel") false
    [VString (bs "ipAddress"); VString ipAddress].
Definition NoticeSocksProxyPortInUse now l (port : Z) :=
  outputNotice now l (bs "SocksProxyPortInUse") true
    [VString (bs "port"); VInt port].
Definition NoticeListeningSocksProxyPort now l (port : Z) :=
  outputNotice now l (bs "ListeningSocksProxyPort") false
    [VString (bs "port"); VInt port].
Definition NoticeHttpProxyPortInUse now l (port : Z) :=
  outputNotice now l (bs "HttpProxyPortInUse") true
    [VString (bs "port"); VInt port].
Definition NoticeListeningHttpProxyPort now l (port : Z) :=
  outputNotice now l (bs "ListeningHttpProxyPort") false
    [VString (bs "port"); VInt port].
Definition NoticeClientUpgradeAvailable now l (version : bytes) :=
  outputNotice now l (bs "ClientUpgradeAvailable") false
    [VString (bs "version"); VString version].
Definition NoticeHomepage now l (url : bytes) :=
  outputNotice now l (bs "Homepage") false [VString (bs "url"); VString url].
Definition NoticeTunnels now l (count : Z) :=
  outputNotice now l (bs "Tunnels") false [VString (bs "count"); VInt count].
Definition NoticeUntunneled now l (address : bytes) :=
  outputNotice now l (bs "Untunneled") true
    [VString (bs "address"); VString address].
Definition NoticeSplitTunnelRegion now l (region : bytes) :=
  outputNotice now l (bs "SplitTunnelRegion") true
    [VString (bs "region"); VString region].

End Emitter.

(** [noticeObject] and its decoding. *)
Record noticeObject := mkNoticeObject {
  NoticeType : bytes;
  Data : bytes;
  Timestamp : bytes
}.

Inductive noticeField := FNoticeType | FData | FTimestamp.

Definition noticeObject_fields : list (bytes * noticeField) :=
  [(bs "noticeType", FNoticeType); (bs "data", FData);
   (bs "timestamp", FTimestamp)].

(** The members of the object, in order, stored into the struct; [None]
    when a value does not fit its field. *)
Fixpoint decode_noticeObject (ms : list (bytes * bytes * json))
  (o : noticeObject) : option noticeObject :=
  match ms with
  | [] => Some o
  | (key, raw, v) :: ms' =>
    match find_field noticeObject_fields key None with
    | None => decode_noticeObject ms' o
    | Some FNoticeType =>
      match store_string (NoticeType o) v with
      | Some s => decode_noticeObject ms' (mkNoticeObject s (Data o) (Timestamp o))
      | None => None
      end
    | Some FData =>
      decode_noticeObject ms' (mkNoticeObject (NoticeType o) raw (Timestamp o))
    | Some FTimestamp =>
      match store_string (Timestamp o) v with
      | Some s => decode_noticeObject ms' (mkNoticeObject (NoticeType o) (Data o) s)
      | None => None
      end
    end
  end.

(** [json.Unmarshal(notice, &object)] for an [object] that starts zeroed. *)
Definition Unmarshal_noticeObject (data : bytes) : result noticeObject :=
  let zero := mkNoticeObject [] [] [] in
  match parse data with
  | None => Err SyntaxError
  | Some (JObj ms) =>
    match decode_noticeObject ms zero with
    | Some o => Ok o
    | None => Err UnmarshalTypeError
    end
  | Some JNull => Ok zero
  | Some _ => Err UnmarshalTypeError
  end.

Record tunnelsPayload := mkTunnelsPayload { Count : Z }.

Definition tunnelsPayload_fields : list (bytes * unit) := [(bs "count", tt)].

Fixpoint decode_tunnelsPayload (ms : list (bytes * bytes * json))
  (p : tunnelsPayload) : option tunnelsPayload :=
  match ms with
  | [] => Some p
  | (key, raw, v) :: ms' =>
    match find_field tunnelsPayload_fields key None with
    | None => decode_tunnelsPayload ms' p
    | Some _ =>
      match store_int (Count p) v with
      | Some i => decode_tunnelsPayload ms' (mkTunnelsPayload i)
      | None => None
      end
    end
  end.

Definition Unmarshal_tunnelsPayload (data : bytes) : result tunnelsPayload :=
  let zero := mkTunnelsPayload 0 in
  match parse data with
  | None => Err SyntaxError
  | Some (JObj ms) =>
    match decode_tunnelsPayload ms zero with
    | Some p => Ok p
    | None => Err UnmarshalTypeError
    end
  | Some JNull => Ok zero
  | Some _ => Err UnmarshalTypeError
  end.

Definition GetNoticeTunnels (notice : bytes) : Z * bool :=
  match Unmarshal_noticeObject notice with
  | Err _ => (0, false)
  | Ok object =>
    if negb (bytes_eqb (NoticeType object) (bs "Tunnels")) then (0, false)
    else
      match Unmarshal_tunnelsPayload (Data object) with
      | Err _ => (0, false)
      | Ok payload => (Count payload, true)
      end
  end.

(** The envelope. *)
Definition envelope_entries (timestamp noticeType : bytes) (showUser : bool)
  (noticeData : gomap) : list (bytes * bytes * json) :=
  [ (bs "data", flat_text noticeData, flat_tree noticeData);
    (bs "noticeType", encode_string noticeType, JStr (coerce noticeType));
    (bs "showUser", if showUser then bs "true" else bs "false", JBool showUser);
    (bs "timestamp", encode_string timestamp, JStr (coerce timestamp)) ].

Definition envelope_text (timestamp noticeType : bytes) (showUser : bool)
  (noticeData : gomap) : bytes :=
  "{"%byte
    :: members_text true
         (map fst (envelope_entries timestamp noticeType showUser noticeData))
    ++ ["}"%byte].

Definition envelope_tree (timestamp noticeType : bytes) (showUser : bool)
  (noticeData : gomap) : json :=
  JObj (map (fun e => (coerce (fst (fst e)), snd (fst e), snd e))
            (envelope_entries timestamp noticeType showUser noticeData)).

(** An instance of the parameter [ContextError]: a prefix that names the
    caller, then the text of the error. *)
Definition ContextError_example (e : error) : bytes :=
  bs "psiphon.outputNotice#80: " ++ Error e.

Definition timestamp_example : bytes := bs "2015-01-28T17:35:13Z".





Fixpoint assoc (k : bytes) (m : gomap) : option value :=
  match m with
  | [] => None
  | (k', v) :: m' => if bytes_eqb k' k then Some v else assoc k m'
  end.




(** A function that emits writes one record: bytes with no newline among
    them and a newline after, the same whatever [ContextError] would
    answer. *)
Definition one_record (emit : (error -> bytes) -> Logger -> Logger) : Prop :=
  forall ContextError l,
  exists record,
    written (emit ContextError l) = written l ++ record ++ [newline] /\
    ~ In newline record /\
    forall ContextError', emit ContextError' l = emit ContextError l.

End Notice.

(** ** The console rewriter *)

Module Console.

Import JSON Receiver Notice.

(** What [json.Unmarshal] leaves in a [noticeObject] when its error is
    dropped.  The decoder checks the whole text first and touches nothing
    when it is not well-formed.  Then it stores the members in order: a
    string into a string field, the bytes of any value into [Data]; a
    [null] leaves a string field as it is; a literal [true] or [false], an
    array or an object meant for a string field is recorded as an error
    and passed over; at a number meant for a string field decoding stops,
    and the fields keep what they have. *)
Fixpoint fill_noticeObject (ms : list (bytes * bytes * json))
  (o : noticeObject) : noticeObject :=
  match ms with
  | [] => o
  | (key, raw, v) :: ms' =>
    match find_field noticeObject_fields key None with
    | None => fill_noticeObject ms' o
    | Some FNoticeType =>
      match v with
      | JStr s =>
          fill_noticeObject ms' (mkNoticeObject s (Data o) (Timestamp o))
      | JNum _ => o
      | _ => fill_noticeObject ms' o
      end
    | Some FData =>
      fill_noticeObject ms' (mkNoticeObject (NoticeType o) raw (Timestamp o))
    | Some FTimestamp =>
      match v with
      | JStr s =>
          fill_noticeObject ms' (mkNoticeObject (NoticeType o) (Data o) s)
      | JNum _ => o
      | _ => fill_noticeObject ms' o
      end
    end
  end.

(** [_ = json.Unmarshal(notice, &object)] for an [object] that starts
    zeroed; a text that is not an object leaves it zeroed. *)
Definition Unmarshal_ignoring_error (notice : bytes) : noticeObject :=
  let zero := mkNoticeObject [] [] [] in
  match parse notice with
  | Some (JObj ms) => fill_noticeObject ms zero
  | _ => zero
  end.

(** What the callback gives [fmt.Fprintf] to write, under the format
    ["%s %s %s\n"]. *)
Definition console_line (notice : bytes) : bytes :=
  let object := Unmarshal_ignoring_error notice in
  Timestamp object ++ bs " " ++ NoticeType object ++ bs " "
    ++ Data object ++ [newline].

(** The receiver [NewNoticeConsoleRewriter] returns, with what [writer]
    has received. *)
Record ConsoleRewriter := mkConsoleRewriter {
  framing : NoticeReceiver;
  console : bytes
}.

Definition NewNoticeConsoleRewriter (writer : bytes) : ConsoleRewriter :=
  mkConsoleRewriter NewNoticeReceiver writer.

(** [Write] on that receiver: the callback runs on each record handed
    over. *)
Definition ConsoleWrite (c : ConsoleRewriter) (p : bytes) : ConsoleRewriter :=
  let r := Write (framing c) p in
  mkConsoleRewriter (after r)
    (console c ++ concat (map console_line (calls r))).

Fixpoint ConsoleWriteAll (c : ConsoleRewriter) (chunks : list bytes)
  : ConsoleRewriter :=
  match chunks with
  | [] => c
  | p :: rest => ConsoleWriteAll (ConsoleWrite c p) rest
  end.

(** An emission: the timestamp, and the arguments of [outputNotice]. *)
Record emission := mkEmission {
  at_time : bytes;
  kind : bytes;
  shown : bool;
  fields : list value
}.

Section Emissions.

Variable ContextError : error -> bytes.

Definition output_of (e : emission) : bytes :=
  notice_output ContextError (at_time e) (kind e) (shown e) (fields e).

(** The bytes the logger hands its writer for the emission, in one call
    of [Write]. *)
Definition chunk_of (e : emission) : bytes :=
  written (outputNotice ContextError (at_time e) (mkLogger []) (kind e)
             (shown e) (fields e)).

(** The emission takes the path of [err == nil]. *)
Definition serializes (e : emission) : Prop :=
  exists encodedJson,
    Marshal (VMap (notice_obj (at_time e) (kind e) (shown e) (fields e)))
    = Ok encodedJson.

End Emissions.

End Console.

(** ** Concurrent callers

    Goroutines that each make one call, [outputNotice] or
    [SetNoticeOutput], run interleaved, one statement at a time; the writer
    takes the bytes of a line one at a time.  A writer is named by a
    number. *)

Module Concurrent.

Import JSON Notice.

Inductive call :=
| CallOutputNotice (timestamp noticeType : bytes) (showUser : bool)
                   (args : list value)
| CallSetNoticeOutput (output : nat).

(** Where a goroutine stands in its call.  In [outputNotice]:
    [Serialized] after [json.Marshal] and the building of [output],
    [Printing] from [noticeLoggerMutex.Lock()] to the end of
    [noticeLogger.Print], with the bytes written so far and those still to
    write.  In [SetNoticeOutput]: [Locked] after the [Lock], [Assigned]
    after the assignment.  [Done] after the deferred [Unlock]. *)
Inductive pc :=
| Start
| Serialized (output : bytes)
| Printing (done rest : bytes)
| Locked
| Assigned
| Done.

Record state := mkState {
  mutex : option nat;
  noticeLogger : nat;
  writers : nat -> bytes;
  at_pc : nat -> pc
}.

Definition upd {A} (f : nat -> A) (i : nat) (x : A) : nat -> A :=
  fun j => if Nat.eqb j i then x else f j.

(** The bytes [Print] hands to the writer for [output]. *)
Definition line_of (output : bytes) : bytes :=
  written (Print (mkLogger []) output).

Section System.

Variable ContextError : error -> bytes.

(** The call of each goroutine; [None] where there is none. *)
Variable program : nat -> option call.

Inductive step (s : state) (t : nat) : state -> Prop :=
| step_marshal timestamp noticeType showUser args :
    program t = Some (CallOutputNotice timestamp noticeType showUser args) ->
    at_pc s t = Start ->
    step s t
      (mkState (mutex s) (noticeLogger s) (writers s)
         (upd (at_pc s) t
            (Serialized (notice_output ContextError timestamp noticeType
                           showUser args))))
| step_lock output :
    at_pc s t = Serialized output -> mutex s = None ->
    step s t
      (mkState (Some t) (noticeLogger s) (writers s)
         (upd (at_pc s) t (Printing [] (line_of output))))
| step_write done b rest :
    at_pc s t = Printing done (b :: rest) ->
    step s t
      (mkState (mutex s) (noticeLogger s)
         (upd (writers s) (noticeLogger s)
            (writers s (noticeLogger s) ++ [b]))
         (upd (at_pc s) t (Printing (done ++ [b]) rest)))
| step_unlock done :
    at_pc s t = Printing done [] ->
    step s t
      (mkState None (noticeLogger s) (writers s) (upd (at_pc s) t Done))
| step_set_lock output :
    program t = Some (CallSetNoticeOutput output) ->
    at_pc s t = Start -> mutex s = None ->
    step s t
      (mkState (Some t) (noticeLogger s) (writers s)
         (upd (at_pc s) t Locked))
| step_set_assign output :
    program t = Some (CallSetNoticeOutput output) ->
    at_pc s t = Locked ->
    step s t
      (mkState (mutex s) output (writers s) (upd (at_pc s) t Assigned))
| step_set_unlock :
    at_pc s t = Assigned ->
    step s t
      (mkState None (noticeLogger s) (writers s) (upd (at_pc s) t Done)).

(** At the start no goroutine has run, the mutex is free, the logger
    writes to [stderr] and nothing has been written. *)
Definition init (stderr : nat) : state :=
  mkState None stderr (fun _ => []) (fun _ => Start).

Inductive reachable (stderr : nat) : state -> Prop :=
| reach_init : reachable stderr (init stderr)
| reach_step s t s' :
    reachable stderr s -> step s t s' -> reachable stderr s'.

(** The line of goroutine [t], when its call is [outputNotice]. *)
Definition emits (t : nat) : Prop :=
  exists timestamp noticeType showUser args,
    program t = Some (CallOutputNotice timestamp noticeType showUser args).

Definition line (t : nat) : bytes :=
  match program t with
  | Some (CallOutputNotice timestamp noticeType showUser args) =>
      line_of (notice_output ContextError timestamp noticeType showUser args)
  | _ => []
  end.

(** The lines that went to writer [w], for a history of finished
    emissions, each with the writer it went to. *)
Definition lines_in (w : nat) (hist : list (nat * nat)) : bytes :=
  concat (map (fun e => line (snd e))
              (filter (fun e => Nat.eqb (fst e) w) hist)).

(** What the goroutine that holds the mutex has written so far of its
    line, if it is printing to [w]. *)
Definition partial (s : state) (w : nat) : bytes :=
  match mutex s with
  | Some t =>
    match at_pc s t with
    | Printing done _ => if Nat.eqb (noticeLogger s) w then done else []
    | _ => []
    end
  | None => []
  end.

Definition holds (p : pc) : bool :=
  match p with
  | Printing _ _ | Locked | Assigned => true
  | Start | Serialized _ | Done => false
  end.



Record invariant (s : state) (hist : list (nat * nat)) : Prop := {
  inv_mutex : forall t, holds (at_pc s t) = true <-> mutex s = Some t;
  inv_nodup : NoDup (map snd hist);
  inv_done : forall t, In t (map snd hist) <-> at_pc s t = Done /\ emits t;
  inv_serialized : forall t output,
    at_pc s t = Serialized output -> line_of output = line t /\ emits t;
  inv_printing : forall t done rest,
    at_pc s t = Printing done rest -> done ++ rest = line t /\ emits t;
  inv_setting : forall t,
    at_pc s t = Locked \/ at_pc s t = Assigned -> ~ emits t;
  inv_writers : forall w, writers s w = lines_in w hist ++ partial s w
}.

End System.

(** Two goroutines that each emit a notice. *)
Definition two_emitters (t : nat) : option call :=
  match t with
  | O => Some (CallOutputNotice timestamp_example (bs "Tunnels") false
                 [VString (bs "count"); VInt 0])
  | S O => Some (CallOutputNotice timestamp_example (bs "Tunnels") false
                   [VString (bs "count"); VInt 1])
  | _ => None
  end.

(** With two emitters: the second serializes its notice, then takes the
    mutex. *)
Definition second_serialized : state :=
  mkState None 0 (fun _ => [])
    (upd (fun _ => Start) 1%nat
       (Serialized (notice_output ContextError_example timestamp_example
                      (bs "Tunnels") false [VString (bs "count"); VInt 1]))).

Definition second_printing : state :=
  mkState (Some 1%nat) 0 (fun _ => [])
    (upd (at_pc second_serialized) 1%nat
       (Printing []
          (line_of (notice_output ContextError_example timestamp_example
                      (bs "Tunnels") false [VString (bs "count"); VInt 1])))).

End Concurrent.

(** * Facts about bytes *)

Lemma b2z_range b : 0 <= b2z b < 256.
Proof.
  unfold b2z. pose proof (Byte.to_N_bounded b). lia.
Qed.

Lemma z2b_b2z b : z2b (b2z b) = b.
Proof.
  unfold z2b, b2z. rewrite N2Z.id, Byte.of_to_N. reflexivity.
Qed.

Lemma b2z_z2b z : 0 <= z < 256 -> b2z (z2b z) = z.
Proof.
  intros H. unfold z2b, b2z.
  destruct (Byte.of_N (Z.to_N z)) eqn:E.
  - apply Byte.to_of_N in E. rewrite E. lia.
  - exfalso. apply Byte.of_N_None_iff in E. lia.
Qed.

Lemma lor_add a b k : 0 <= k -> 0 <= b < 2 ^ k -> Z.lor (a * 2 ^ k) b = a * 2 ^ k + b.
Proof.
  intros Hk Hb.
  assert (L : Z.land (a * 2 ^ k) b = 0).
  { apply Z.bits_inj'. intros n Hn. rewrite Z.land_spec, Z.bits_0.
    destruct (Z.lt_ge_cases n k).
    - rewrite Z.mul_pow2_bits_low by lia. reflexivity.
    - rewrite <- (Z.mod_small b (2 ^ k)) by lia.
      rewrite Z.mod_pow2_bits_high by lia. apply andb_false_r. }
  rewrite <- Z.lxor_lor by exact L. symmetry. apply Z.add_nocarry_lxor. exact L.
Qed.

Lemma byte_of_small z : 0 <= z < 256 -> UTF8.byte_of z = z2b z.
Proof.
  intros H. unfold UTF8.byte_of. f_equal.
  change 0xFF with (Z.ones 8). rewrite Z.land_ones by lia.
  apply Z.mod_small. simpl. lia.
Qed.

Lemma byte_eqb_eq a b : byte_eqb a b = true <-> a = b.
Proof.
  unfold byte_eqb. split.
  - apply Byte.byte_dec_bl.
  - apply Byte.byte_dec_lb.
Qed.

Lemma byte_eqb_refl a : byte_eqb a a = true.
Proof. apply byte_eqb_eq. reflexivity. Qed.

Lemma byte_eqb_sym a b : byte_eqb a b = byte_eqb b a.
Proof.
  destruct (byte_eqb a b) eqn:E, (byte_eqb b a) eqn:F; try reflexivity.
  - apply byte_eqb_eq in E. subst. rewrite byte_eqb_refl in F. discriminate.
  - apply byte_eqb_eq in F. subst. rewrite byte_eqb_refl in E. discriminate.
Qed.

Lemma bytes_eqb_eq s t : bytes_eqb s t = true <-> s = t.
Proof.
  revert t. induction s as [|a s IH]; intros [|b t]; simpl; split; intros H;
    try reflexivity; try discriminate.
  - apply andb_true_iff in H. destruct H as [H1 H2].
    apply byte_eqb_eq in H1. apply IH in H2. congruence.
  - inversion H. subst. rewrite byte_eqb_refl. simpl. apply IH. reflexivity.
Qed.


(** * UTF-8: a decoded rune encodes back to the bytes it came from *)

Module UTF8Facts.
Import UTF8.

Lemma land_1F c : Z.land c 0x1F = c mod 32.
Proof. change 0x1F with (Z.ones 5). rewrite Z.land_ones by lia. reflexivity. Qed.
Lemma land_0F c : Z.land c 0x0F = c mod 16.
Proof. change 0x0F with (Z.ones 4). rewrite Z.land_ones by lia. reflexivity. Qed.
Lemma land_07 c : Z.land c 0x07 = c mod 8.
Proof. change 0x07 with (Z.ones 3). rewrite Z.land_ones by lia. reflexivity. Qed.
Lemma land_3F c : Z.land c 0x3F = c mod 64.
Proof. change 0x3F with (Z.ones 6). rewrite Z.land_ones by lia. reflexivity. Qed.

Lemma shl6 a : Z.shiftl a 6 = a * 64.
Proof. rewrite Z.shiftl_mul_pow2 by lia. reflexivity. Qed.
Lemma shl12 a : Z.shiftl a 12 = a * 4096.
Proof. rewrite Z.shiftl_mul_pow2 by lia. reflexivity. Qed.
Lemma shl18 a : Z.shiftl a 18 = a * 262144.
Proof. rewrite Z.shiftl_mul_pow2 by lia. reflexivity. Qed.
Lemma shr6 a : Z.shiftr a 6 = a / 64.
Proof. rewrite Z.shiftr_div_pow2 by lia. reflexivity. Qed.
Lemma shr12 a : Z.shiftr a 12 = a / 4096.
Proof. rewrite Z.shiftr_div_pow2 by lia. reflexivity. Qed.
Lemma shr18 a : Z.shiftr a 18 = a / 262144.
Proof. rewrite Z.shiftr_div_pow2 by lia. reflexivity. Qed.

Lemma lor_64 a b : 0 <= b < 64 -> Z.lor (a * 64) b = a * 64 + b.
Proof. intros. apply (lor_add a b 6); simpl; lia. Qed.
Lemma lor_4096 a b : 0 <= b < 4096 -> Z.lor (a * 4096) b = a * 4096 + b.
Proof. intros. apply (lor_add a b 12); simpl; lia. Qed.
Lemma lor_262144 a b : 0 <= b < 262144 -> Z.lor (a * 262144) b = a * 262144 + b.
Proof. intros. apply (lor_add a b 18); simpl; lia. Qed.
Lemma lor_80 x : 0 <= x < 64 -> Z.lor 0x80 x = 0x80 + x.
Proof. intros. apply (lor_add 2 x 6); simpl; lia. Qed.
Lemma lor_C0 x : 0 <= x < 32 -> Z.lor 0xC0 x = 0xC0 + x.
Proof. intros. apply (lor_add 6 x 5); simpl; lia. Qed.
Lemma lor_E0 x : 0 <= x < 16 -> Z.lor 0xE0 x = 0xE0 + x.
Proof. intros. apply (lor_add 14 x 4); simpl; lia. Qed.
Lemma lor_F0 x : 0 <= x < 8 -> Z.lor 0xF0 x = 0xF0 + x.
Proof. intros. apply (lor_add 30 x 3); simpl; lia. Qed.

Lemma byte_is c b : 0 <= c < 256 -> c = b2z b -> byte_of c = b.
Proof. intros H E. rewrite byte_of_small by exact H. rewrite E. apply z2b_b2z. Qed.

Ltac zb := repeat match goal with
  | H : (_ <? _) = true |- _ => apply Z.ltb_lt in H
  | H : (_ <? _) = false |- _ => apply Z.ltb_ge in H
  | H : (_ <=? _) = true |- _ => apply Z.leb_le in H
  | H : (_ <=? _) = false |- _ => apply Z.leb_gt in H
  | H : (_ =? _) = true |- _ => apply Z.eqb_eq in H
  | H : (_ =? _) = false |- _ => apply Z.eqb_neq in H
  | H : (_ && _) = true |- _ => apply andb_true_iff in H; destruct H
  | H : (_ || _) = false |- _ => apply orb_false_iff in H; destruct H
  | H : negb _ = false |- _ => apply negb_false_iff in H
  | H : negb _ = true |- _ => apply negb_true_iff in H
  end.

Lemma decode2 c0 c1 :
  0xC0 <= c0 < 0xE0 -> 0x80 <= c1 < 0xC0 ->
  Z.lor (Z.shiftl (Z.land c0 0x1F) 6) (Z.land c1 0x3F) = (c0 - 0xC0) * 64 + (c1 - 0x80).
Proof.
  intros. rewrite land_1F, land_3F, shl6. rewrite lor_64.
  - Z.div_mod_to_equations. lia.
  - Z.div_mod_to_equations. lia.
Qed.

Lemma decode3 c0 c1 c2 :
  0xE0 <= c0 < 0xF0 -> 0x80 <= c1 < 0xC0 -> 0x80 <= c2 < 0xC0 ->
  Z.lor (Z.lor (Z.shiftl (Z.land c0 0x0F) 12) (Z.shiftl (Z.land c1 0x3F) 6)) (Z.land c2 0x3F)
  = (c0 - 0xE0) * 4096 + (c1 - 0x80) * 64 + (c2 - 0x80).
Proof.
  intros. rewrite land_0F, !land_3F, shl6, shl12.
  rewrite lor_4096 by (Z.div_mod_to_equations; lia).
  replace (c0 mod 16 * 4096 + c1 mod 64 * 64) with ((c0 mod 16 * 64 + c1 mod 64) * 64) by lia.
  rewrite lor_64 by (Z.div_mod_to_equations; lia).
  Z.div_mod_to_equations. lia.
Qed.

Lemma decode4 c0 c1 c2 c3 :
  0xF0 <= c0 < 0xF8 -> 0x80 <= c1 < 0xC0 -> 0x80 <= c2 < 0xC0 -> 0x80 <= c3 < 0xC0 ->
  Z.lor (Z.lor (Z.lor (Z.shiftl (Z.land c0 0x07) 18) (Z.shiftl (Z.land c1 0x3F) 12))
     (Z.shiftl (Z.land c2 0x3F) 6)) (Z.land c3 0x3F)
  = (c0 - 0xF0) * 262144 + (c1 - 0x80) * 4096 + (c2 - 0x80) * 64 + (c3 - 0x80).
Proof.
  intros. rewrite land_07, !land_3F, shl6, shl12, shl18.
  rewrite lor_262144 by (Z.div_mod_to_equations; lia).
  replace (c0 mod 8 * 262144 + c1 mod 64 * 4096) with ((c0 mod 8 * 64 + c1 mod 64) * 4096) by lia.
  rewrite lor_4096 by (Z.div_mod_to_equations; lia).
  replace ((c0 mod 8 * 64 + c1 mod 64) * 4096 + c2 mod 64 * 64)
    with ((c0 mod 8 * 4096 + c1 mod 64 * 64 + c2 mod 64) * 64) by lia.
  rewrite lor_64 by (Z.div_mod_to_equations; lia).
  Z.div_mod_to_equations. lia.
Qed.

Lemma encode2 r : 0x7F < r <= 0x7FF ->
  EncodeRune r = [z2b (0xC0 + r / 64); z2b (0x80 + r mod 64)].
Proof.
  intros H. unfold EncodeRune.
  replace ((0 <=? r) && (r <=? 0x7F)) with false by (symmetry; apply andb_false_iff; right; apply Z.leb_gt; lia).
  replace ((0 <=? r) && (r <=? 0x7FF)) with true by (symmetry; apply andb_true_iff; split; apply Z.leb_le; lia).
  rewrite shr6, land_3F.
  rewrite lor_C0 by (Z.div_mod_to_equations; lia).
  rewrite lor_80 by (Z.div_mod_to_equations; lia).
  rewrite !byte_of_small by (Z.div_mod_to_equations; lia). reflexivity.
Qed.

Lemma encode3 r : 0x7FF < r <= 0xFFFF -> ~ (0xD800 <= r <= 0xDFFF) ->
  EncodeRune r = [z2b (0xE0 + r / 4096); z2b (0x80 + (r / 64) mod 64); z2b (0x80 + r mod 64)].
Proof.
  intros H Hs. unfold EncodeRune, MaxRune, surrogateMin, surrogateMax.
  replace ((0 <=? r) && (r <=? 0x7F)) with false by (symmetry; apply andb_false_iff; right; apply Z.leb_gt; lia).
  replace ((0 <=? r) && (r <=? 0x7FF)) with false by (symmetry; apply andb_false_iff; right; apply Z.leb_gt; lia).
  replace ((r <? 0) || (1114111 <? r)) with false by (symmetry; apply orb_false_iff; split; apply Z.ltb_ge; lia).
  replace ((55296 <=? r) && (r <=? 57343)) with false.
  2:{ symmetry. apply andb_false_iff. destruct (Z.le_gt_cases 55296 r); [right|left]; apply Z.leb_gt; lia. }
  replace (r <=? 0xFFFF) with true by (symmetry; apply Z.leb_le; lia).
  rewrite shr6, shr12, !land_3F.
  rewrite lor_E0 by (Z.div_mod_to_equations; lia).
  rewrite !lor_80 by (Z.div_mod_to_equations; lia).
  rewrite !byte_of_small by (Z.div_mod_to_equations; lia). reflexivity.
Qed.

Lemma encode4 r : 0xFFFF < r <= 0x10FFFF ->
  EncodeRune r = [z2b (0xF0 + r / 262144); z2b (0x80 + (r / 4096) mod 64);
                  z2b (0x80 + (r / 64) mod 64); z2b (0x80 + r mod 64)].
Proof.
  intros H. unfold EncodeRune, MaxRune, surrogateMin, surrogateMax.
  replace ((0 <=? r) && (r <=? 0x7F)) with false by (symmetry; apply andb_false_iff; right; apply Z.leb_gt; lia).
  replace ((0 <=? r) && (r <=? 0x7FF)) with false by (symmetry; apply andb_false_iff; right; apply Z.leb_gt; lia).
  replace ((r <? 0) || (1114111 <? r)) with false by (symmetry; apply orb_false_iff; split; apply Z.ltb_ge; lia).
  replace ((55296 <=? r) && (r <=? 57343)) with false.
  2:{ symmetry. apply andb_false_iff. right; apply Z.leb_gt; lia. }
  replace (r <=? 0xFFFF) with false by (symmetry; apply Z.leb_gt; lia).
  rewrite shr6, shr12, shr18, !land_3F.
  rewrite lor_F0 by (Z.div_mod_to_equations; lia).
  rewrite !lor_80 by (Z.div_mod_to_equations; lia).
  rewrite !byte_of_small by (Z.div_mod_to_equations; lia). reflexivity.
Qed.

Ltac ip := let Hd := fresh "Hd" in intros Hd; inversion Hd.

Lemma decode_encode p r size :
  DecodeRune p = (r, size) -> (1 < size)%nat -> EncodeRune r = firstn size p.
Proof.
  unfold DecodeRune, is_cont, surrogateMin, surrogateMax, MaxRune.
  destruct p as [|b0 p]; [ip; lia|].
  pose proof (b2z_range b0) as R0.
  destruct (b2z b0 <? 0x80) eqn:E0; [ip; lia|].
  destruct (b2z b0 <? 0xC0) eqn:E1; [ip; lia|].
  destruct p as [|b1 p]; [ip; lia|].
  pose proof (b2z_range b1) as R1.
  destruct (negb _) eqn:C1; [ip; lia|].
  destruct (b2z b0 <? 0xE0) eqn:E2.
  { zb. rewrite decode2 by lia.
    destruct (_ <=? 0x7F) eqn:E3; ip; subst; [lia|]. intros _.
    zb. rewrite encode2 by lia. simpl firstn.
    f_equal; [|f_equal]; rewrite <- z2b_b2z; f_equal; Z.div_mod_to_equations; lia. }
  destruct p as [|b2 p]; [ip; lia|].
  pose proof (b2z_range b2) as R2.
  destruct (negb ((128 <=? b2z b2) && _)) eqn:C2; [ip; lia|].
  destruct (b2z b0 <? 0xF0) eqn:E3.
  { zb. rewrite decode3 by lia.
    destruct (_ <=? 0x7FF) eqn:E4; [ip; lia|].
    destruct (_ && _) eqn:E5; ip; subst; [lia|]. intros _.
    zb. rewrite encode3.
    - simpl firstn.
      f_equal; [|f_equal; [|f_equal]]; rewrite <- z2b_b2z; f_equal; Z.div_mod_to_equations; lia.
    - lia.
    - apply andb_false_iff in E5. destruct E5; zb; lia. }
  destruct p as [|b3 p]; [ip; lia|].
  pose proof (b2z_range b3) as R3.
  destruct (negb ((128 <=? b2z b3) && _)) eqn:C3; [ip; lia|].
  destruct (b2z b0 <? 0xF8) eqn:E4; [|ip; lia].
  zb. rewrite decode4 by lia.
  destruct (_ || _) eqn:E5; ip; subst; [lia|]. intros _.
  zb. rewrite encode4 by lia. simpl firstn.
  f_equal; [|f_equal; [|f_equal; [|f_equal]]]; rewrite <- z2b_b2z; f_equal; Z.div_mod_to_equations; lia.
Qed.

(** Decide the comparisons of the goal from the hypotheses. *)
Ltac ztest := repeat match goal with
  | |- context [?a <? ?b] =>
      first [ replace (a <? b) with true by (symmetry; apply Z.ltb_lt; lia)
            | replace (a <? b) with false by (symmetry; apply Z.ltb_ge; lia) ]
  | |- context [?a <=? ?b] =>
      first [ replace (a <=? b) with true by (symmetry; apply Z.leb_le; lia)
            | replace (a <=? b) with false by (symmetry; apply Z.leb_gt; lia) ]
  | |- context [?a =? ?b] =>
      first [ replace (a =? b) with true by (symmetry; apply Z.eqb_eq; lia)
            | replace (a =? b) with false by (symmetry; apply Z.eqb_neq; lia) ]
  end.

Lemma DecodeRune_decoded p : decoded p (fst (DecodeRune p)) (snd (DecodeRune p)).
Proof.
  unfold DecodeRune, is_cont, surrogateMin, surrogateMax, MaxRune.
  destruct p as [|b0 p]; [constructor|].
  pose proof (b2z_range b0) as R0.
  destruct (b2z b0 <? 0x80) eqn:E0; [zb; constructor; lia|].
  destruct (b2z b0 <? 0xC0) eqn:E1; [zb; constructor; lia|].
  destruct p as [|b1 p]; [zb; constructor; lia|].
  pose proof (b2z_range b1) as R1.
  destruct (negb _) eqn:C1; [zb; constructor; lia|].
  destruct (b2z b0 <? 0xE0) eqn:E2.
  { zb. rewrite decode2 by lia.
    destruct (_ <=? 0x7F) eqn:E3; zb; simpl; [constructor; lia|].
    apply dec_two; unfold cont, rune2; lia. }
  destruct p as [|b2 p]; [zb; constructor; lia|].
  pose proof (b2z_range b2) as R2.
  destruct (negb ((128 <=? b2z b2) && _)) eqn:C2; [zb; constructor; lia|].
  destruct (b2z b0 <? 0xF0) eqn:E3.
  { zb. rewrite decode3 by lia.
    destruct (_ <=? 0x7FF) eqn:E4; [zb; constructor; lia|].
    destruct (_ && _) eqn:E5; simpl; [zb; constructor; lia|].
    zb. apply dec_three; unfold cont, rune3; try lia.
    all: apply andb_false_iff in E5; destruct E5; zb; lia. }
  destruct p as [|b3 p]; [zb; constructor; lia|].
  pose proof (b2z_range b3) as R3.
  destruct (negb ((128 <=? b2z b3) && _)) eqn:C3; [zb; constructor; lia|].
  destruct (b2z b0 <? 0xF8) eqn:E4; [|zb; constructor; lia].
  zb. rewrite decode4 by lia.
  destruct (_ || _) eqn:E5; simpl; [zb; constructor; lia|].
  zb. apply dec_four; unfold cont, rune4; lia.
Qed.

(** The relation determines the function: a shape that holds is what
    [DecodeRune] returns, except that an invalid head is only reported
    when no other shape holds. *)
Lemma decoded_two b0 b1 t :
  0xC0 <= b2z b0 < 0xE0 -> cont b1 -> 0x7F < rune2 (b2z b0) (b2z b1) ->
  DecodeRune (b0 :: b1 :: t) = (rune2 (b2z b0) (b2z b1), 2%nat).
Proof.
  unfold cont. intros H0 H1 Hr. unfold DecodeRune, is_cont.
  rewrite decode2 by lia. unfold rune2 in *. ztest. reflexivity.
Qed.

Lemma decoded_three b0 b1 b2 t :
  0xE0 <= b2z b0 < 0xF0 -> cont b1 -> cont b2 ->
  0x7FF < rune3 (b2z b0) (b2z b1) (b2z b2) ->
  ~ (0xD800 <= rune3 (b2z b0) (b2z b1) (b2z b2) <= 0xDFFF) ->
  DecodeRune (b0 :: b1 :: b2 :: t) = (rune3 (b2z b0) (b2z b1) (b2z b2), 3%nat).
Proof.
  unfold cont. intros H0 H1 H2 Hr Hs.
  unfold DecodeRune, is_cont, surrogateMin, surrogateMax.
  rewrite decode3 by lia. unfold rune3 in *.
  ztest. simpl.
  destruct (Z.le_gt_cases 0xD800 ((b2z b0 - 224) * 4096 + (b2z b1 - 128) * 64 + (b2z b2 - 128))).
  - ztest. reflexivity.
  - ztest. reflexivity.
Qed.

Lemma decoded_four b0 b1 b2 b3 t :
  0xF0 <= b2z b0 < 0xF8 -> cont b1 -> cont b2 -> cont b3 ->
  0xFFFF < rune4 (b2z b0) (b2z b1) (b2z b2) (b2z b3) <= 0x10FFFF ->
  DecodeRune (b0 :: b1 :: b2 :: b3 :: t)
  = (rune4 (b2z b0) (b2z b1) (b2z b2) (b2z b3), 4%nat).
Proof.
  unfold cont. intros H0 H1 H2 H3 Hr.
  unfold DecodeRune, is_cont, MaxRune.
  rewrite decode4 by lia. unfold rune4 in *.
  ztest. reflexivity.
Qed.

End UTF8Facts.

(** * The frame receiver *)

Module ReceiverFacts.
Import Receiver.

Lemma Index_newline_cons b s :
  Index (b :: s) [newline] =
  if byte_eqb b newline then 0
  else let i := Index s [newline] in if i <? 0 then -1 else i + 1.
Proof.
  simpl. rewrite byte_eqb_sym. destruct (byte_eqb b newline); reflexivity.
Qed.

Lemma Index_newline_lower s : -1 <= Index s [newline].
Proof.
  induction s as [|b s IH].
  - simpl. lia.
  - rewrite Index_newline_cons. destruct (byte_eqb b newline); [lia|].
    cbv zeta. destruct (Index s [newline] <? 0) eqn:E; [lia|].
    apply Z.ltb_ge in E. lia.
Qed.

(** No delimiter in the buffer: [bytes.Index] answers -1. *)
Lemma Index_newline_none s :
  Index s [newline] = -1 <-> ~ In newline s.
Proof.
  induction s as [|b s IH].
  - simpl. split; [intros _ []|reflexivity].
  - rewrite Index_newline_cons. destruct (byte_eqb b newline) eqn:E.
    + apply byte_eqb_eq in E. subst. split; [discriminate|].
      intros H. exfalso. apply H. left. reflexivity.
    + cbv zeta. pose proof (Index_newline_lower s) as L.
      destruct (Index s [newline] <? 0) eqn:F.
      * apply Z.ltb_lt in F. assert (G : Index s [newline] = -1) by lia.
        apply IH in G. split; [|reflexivity]. intros _ [H|H].
        -- subst. rewrite byte_eqb_refl in E. discriminate.
        -- exact (G H).
      * apply Z.ltb_ge in F. split; [lia|]. intros H. exfalso.
        assert (G : ~ In newline s) by (intros K; apply H; right; exact K).
        apply IH in G. lia.
Qed.

(** A delimiter in the buffer: [bytes.Index] finds the first one, and the
    two slices of [Write] are what stands before it and after it. *)
Lemma Index_newline_found s :
  Index s [newline] <> -1 ->
  exists pre post,
    s = pre ++ newline :: post /\ ~ In newline pre /\
    slice_to s (Index s [newline]) = pre /\
    slice_from s (Index s [newline] + 1) = post.
Proof.
  induction s as [|b s IH].
  - simpl. intros H. exfalso. apply H. reflexivity.
  - rewrite Index_newline_cons. destruct (byte_eqb b newline) eqn:E.
    + apply byte_eqb_eq in E. subst. intros _. exists [], s.
      repeat split. intros [].
    + cbv zeta. pose proof (Index_newline_lower s) as L.
      destruct (Index s [newline] <? 0) eqn:F; [intros H; exfalso; apply H; reflexivity|].
      apply Z.ltb_ge in F. intros _.
      destruct IH as (pre & post & H1 & H2 & H3 & H4); [lia|].
      exists (b :: pre), post. repeat split.
      * simpl. rewrite <- H1. reflexivity.
      * intros [K|K]; [|exact (H2 K)].
        subst. rewrite byte_eqb_refl in E. discriminate.
      * unfold slice_to in *. rewrite Z2Nat.inj_add by lia.
        rewrite Nat.add_comm. simpl. rewrite H3. reflexivity.
      * unfold slice_from in *.
        replace (Z.to_nat (Index s [newline] + 1 + 1))
          with (S (Z.to_nat (Index s [newline] + 1))) by lia.
        simpl. exact H4.
Qed.

Lemma records_from_none cur s : ~ In newline s -> records_from cur s = [].
Proof.
  revert cur. induction s as [|b s IH]; intros cur H; simpl; [reflexivity|].
  destruct (byte_eqb b newline) eqn:E.
  - apply byte_eqb_eq in E. subst. exfalso. apply H. left. reflexivity.
  - apply IH. intros K. apply H. right. exact K.
Qed.

Lemma records_from_first cur pre post :
  ~ In newline pre ->
  records_from cur (pre ++ newline :: post) = (rev cur ++ pre) :: records post.
Proof.
  revert cur. induction pre as [|b pre IH]; intros cur H; simpl.
  - rewrite app_nil_r. reflexivity.
  - destruct (byte_eqb b newline) eqn:E.
    + apply byte_eqb_eq in E. subst. exfalso. apply H. left. reflexivity.
    + rewrite IH by (intros K; apply H; right; exact K).
      simpl. rewrite <- app_assoc. reflexivity.
Qed.

(** What one [Write] does, in terms of the buffer with the chunk appended. *)
Lemma Write_no_delimiter receiver p :
  ~ In newline (buffer receiver ++ p) ->
  Write receiver p = mkWriteResult (mkReceiver (buffer receiver ++ p)) [] (len p) None.
Proof.
  intros H. unfold Write. apply Index_newline_none in H. rewrite H. reflexivity.
Qed.

Lemma Write_delimiter receiver p pre post :
  buffer receiver ++ p = pre ++ newline :: post -> ~ In newline pre ->
  Write receiver p = mkWriteResult (mkReceiver post) [pre] (len p) None.
Proof.
  intros H Hpre. unfold Write.
  assert (N : Index (buffer receiver ++ p) [newline] <> -1).
  { intros K. apply Index_newline_none in K. apply K. rewrite H.
    apply in_or_app. right. left. reflexivity. }
  destruct (Index_newline_found _ N) as (pre' & post' & H1 & H2 & H3 & H4).
  assert (pre' = pre /\ post' = post) as [-> ->].
  { rewrite H in H1. clear - H1 H2 Hpre. revert pre' H1 H2.
    induction pre as [|a pre IH]; intros [|a' pre'] H1 H2; simpl in *.
    - inversion H1. split; reflexivity.
    - inversion H1. subst. exfalso. apply H2. left. reflexivity.
    - inversion H1. subst. exfalso. apply Hpre. left. reflexivity.
    - inversion H1. subst. destruct (IH (fun K => Hpre (or_intror K)) pre' H3 (fun K => H2 (or_intror K))).
      subst. split; reflexivity. }
  apply Z.eqb_neq in N. rewrite N. rewrite H3, H4. reflexivity.
Qed.

(** A call to [Write] runs the callback once at most. *)
Lemma Write_at_most_one_call receiver p :
  (length (calls (Write receiver p)) <= 1)%nat.
Proof.
  unfold Write. destruct (_ =? -1); simpl; lia.
Qed.

(** What the callback has received after any chunks is a prefix of the
    records of the stream: the records come in order and whole, the last
    ones may still be in the buffer. *)
Lemma WriteAll_calls_prefix chunks : forall receiver,
  exists k, snd (WriteAll receiver chunks)
            = firstn k (records (buffer receiver ++ concat chunks)).
Proof.
  induction chunks as [|p chunks IH]; intros receiver.
  - exists 0%nat. reflexivity.
  - simpl. destruct (in_dec Byte.byte_eq_dec newline (buffer receiver ++ p)) as [Hin|Hno].
    + apply in_split in Hin. destruct Hin as (l1 & l2 & Hs).
      assert (exists pre post, buffer receiver ++ p = pre ++ newline :: post
                               /\ ~ In newline pre) as (pre & post & E & Hpre).
      { clear - Hs. revert Hs. generalize (buffer receiver ++ p). intros s.
        revert l1 l2. induction s as [|b s IHs]; intros l1 l2 Hs.
        - destruct l1; discriminate.
        - destruct (Byte.byte_eq_dec b newline) as [->|Hb].
          + exists [], s. split; [reflexivity|intros []].
          + destruct l1 as [|a l1]; inversion Hs; subst; [congruence|].
            destruct (IHs l1 l2 eq_refl) as (pre & post & E & Hpre).
            exists (a :: pre), post. split; [simpl; rewrite E; reflexivity|].
            intros [K|K]; [congruence|exact (Hpre K)]. }
      rewrite (Write_delimiter receiver p pre post E Hpre). simpl.
      destruct (IH (mkReceiver post)) as [k Hk].
      destruct (WriteAll (mkReceiver post) chunks) as [final later]. simpl in *.
      exists (S k). rewrite app_assoc, E, <- app_assoc. simpl.
      unfold records at 1. rewrite records_from_first by exact Hpre.
      simpl. rewrite Hk. reflexivity.
    + rewrite (Write_no_delimiter receiver p Hno). simpl.
      destruct (IH (mkReceiver (buffer receiver ++ p))) as [k Hk].
      destruct (WriteAll _ chunks) as [final later]. simpl in *.
      exists k. rewrite Hk, app_assoc. reflexivity.
Qed.

(** C1, at a call that carries two delimiters: the stream holds two
    records, the callback runs once, and the second record stays in the
    buffer with its delimiter. *)
Theorem WriteAll_two_records_one_call :
  let chunk := bs "a" ++ [newline] ++ bs "b" ++ [newline] in
  records (concat [chunk]) = [bs "a"; bs "b"] /\
  WriteAll NewNoticeReceiver [chunk]
    = (mkReceiver (bs "b" ++ [newline]), [bs "a"]).
Proof.
  split; reflexivity.
Qed.

(** With no delimiter in the buffer nor in the chunk, [Write] only
    accumulates. *)
Lemma Write_accumulates receiver p :
  ~ In newline (buffer receiver) -> ~ In newline p ->
  calls (Write receiver p) = [] /\
  buffer (after (Write receiver p)) = buffer receiver ++ p.
Proof.
  intros Hb Hp. rewrite Write_no_delimiter.
  - split; reflexivity.
  - intros K. apply in_app_or in K. tauto.
Qed.

(** The bytes of a chunk with no delimiter are kept, whatever the buffer
    held. *)
Lemma Write_keeps_chunk receiver p :
  ~ In newline p ->
  exists kept, buffer (after (Write receiver p)) = kept ++ p.
Proof.
  intros Hp.
  destruct (in_dec Byte.byte_eq_dec newline (buffer receiver ++ p)) as [Hin|Hno].
  - assert (N : Index (buffer receiver ++ p) [newline] <> -1).
    { intros K. apply Index_newline_none in K. exact (K Hin). }
    destruct (Index_newline_found _ N) as (pre & post & H1 & H2 & _ & _).
    rewrite (Write_delimiter receiver p pre post H1 H2). simpl.
    clear N Hin. revert pre H1 H2. generalize (buffer receiver).
    intros b. induction b as [|a b IH]; intros pre H1 H2.
    + exfalso. apply Hp. simpl in H1. rewrite H1. apply in_or_app. right. left. reflexivity.
    + destruct pre as [|a' pre]; simpl in H1; inversion H1; subst.
      * exists b. reflexivity.
      * apply (IH pre H3). intros K. apply H2. right. exact K.
  - rewrite (Write_no_delimiter receiver p Hno). simpl.
    exists (buffer receiver). reflexivity.
Qed.

(** C7, at a receiver an earlier call left with a whole record in its
    buffer: a chunk with no delimiter makes the callback run. *)
Theorem Write_chunk_without_delimiter_dispatches :
  let receiver := after (Write NewNoticeReceiver
                           (bs "a" ++ [newline] ++ bs "b" ++ [newline])) in
  buffer receiver = bs "b" ++ [newline] /\
  ~ In newline (bs "c") /\
  calls (Write receiver (bs "c")) = [bs "b"].
Proof.
  split; [reflexivity|]. split; [|reflexivity].
  simpl. intros [H|[]]. discriminate H.
Qed.

(** C8: [Write] returns [(len(p), nil)] for every chunk, the empty one
    included. *)
Theorem Write_accepts_every_chunk receiver p :
  n (Write receiver p) = len p /\ err (Write receiver p) = None.
Proof.
  unfold Write. destruct (_ =? -1); split; reflexivity.
Qed.

(** C10: when the buffer with the chunk appended starts with the
    delimiter, the callback receives the empty record, and what follows
    the delimiter stays in the buffer. *)
Theorem Write_dispatches_empty_record receiver p rest :
  buffer receiver ++ p = newline :: rest ->
  calls (Write receiver p) = [[]] /\
  buffer (after (Write receiver p)) = rest.
Proof.
  intros H. rewrite (Write_delimiter receiver p [] rest H (fun K => K)).
  split; reflexivity.
Qed.

Lemma Write_dispatches_empty_record_witness :
  calls (Write NewNoticeReceiver (newline :: bs "abc")) = [[]] /\
  buffer (after (Write NewNoticeReceiver (newline :: bs "abc"))) = bs "abc".
Proof.
  apply (Write_dispatches_empty_record NewNoticeReceiver (newline :: bs "abc") (bs "abc")).
  reflexivity.
Defined.

End ReceiverFacts.

(** * The string encoder, one round at a time *)

Module StringFacts.
Import UTF8 UTF8Facts JSON.

Lemma decoded_inv_high b t r size :
  0x80 <= b2z b -> DecodeRune (b :: t) = (r, size) ->
  (r = RuneError /\ size = 1%nat) \/ (1 < size)%nat.
Proof.
  intros Hb E. pose proof (DecodeRune_decoded (b :: t)) as D.
  rewrite E in D. simpl in D. inversion D; subst; lia.
Qed.

Lemma decoded_size_le p : (snd (DecodeRune p) <= length p)%nat.
Proof.
  pose proof (DecodeRune_decoded p) as D. inversion D; simpl; lia.
Qed.

(** A rune of more than one byte does not depend on what follows it, and
    its bytes are all at or above [RuneSelf]. *)
Lemma DecodeRune_prefix p r size t :
  DecodeRune p = (r, size) -> (1 < size)%nat ->
  DecodeRune (firstn size p ++ t) = (r, size) /\
  skipn size (firstn size p ++ t) = t /\
  Forall (fun b => 0x80 <= b2z b) (firstn size p) /\
  0x80 <= r <= 0x10FFFF /\ ~ (0xD800 <= r <= 0xDFFF).
Proof.
  intros E Hs. pose proof (DecodeRune_decoded p) as D.
  rewrite E in D. simpl in D. inversion D; subst; try lia; unfold cont in *.
  - cbn [firstn app]. rewrite decoded_two by assumption. cbn [skipn].
    repeat split; try (unfold rune2 in *; lia).
    repeat constructor; lia.
  - cbn [firstn app]. rewrite decoded_three by assumption. cbn [skipn].
    repeat split; try (unfold rune3 in *; lia).
    repeat constructor; lia.
  - cbn [firstn app]. rewrite decoded_four by assumption. cbn [skipn].
    repeat split; try (unfold rune4 in *; lia).
    repeat constructor; lia.
Qed.

Lemma string_loop_ascii n b t :
  b2z b < 0x80 ->
  string_loop (S n) (b :: t)
  = (if safe (b2z b) then [b] else escape_byte b) ++ string_loop n t.
Proof.
  intros H. simpl. unfold RuneSelf. ztest. reflexivity.
Qed.

Lemma string_loop_invalid n b t :
  0x80 <= b2z b -> DecodeRune (b :: t) = (RuneError, 1%nat) ->
  string_loop (S n) (b :: t)
  = backslash :: bs "ufffd" ++ string_loop n t.
Proof.
  intros H E. cbn [string_loop]. rewrite E. unfold RuneSelf. ztest.
  reflexivity.
Qed.

Lemma string_loop_rune n b t r size :
  0x80 <= b2z b -> DecodeRune (b :: t) = (r, size) -> (1 < size)%nat ->
  string_loop (S n) (b :: t)
  = (if (r =? 0x2028) || (r =? 0x2029)
     then backslash :: bs "u202" ++ [hex_digit (Z.land r 0xF)]
     else firstn size (b :: t))
    ++ string_loop n (skipn size (b :: t)).
Proof.
  intros H E Hs. cbn [string_loop]. rewrite E. unfold RuneSelf. ztest.
  replace (Nat.eqb size 1) with false by (symmetry; apply Nat.eqb_neq; lia).
  rewrite andb_false_r.
  destruct ((r =? 0x2028) || (r =? 0x2029)); [|reflexivity].
  simpl. reflexivity.
Qed.

(** * The scanner and [unquote] on what the encoder writes *)

Lemma hex_digit_spec z :
  0 <= z < 16 ->
  is_hex (b2z (hex_digit z)) = true /\ hexval (b2z (hex_digit z)) = z.
Proof.
  intros H.
  assert (E : z = 0 \/ z = 1 \/ z = 2 \/ z = 3 \/ z = 4 \/ z = 5 \/ z = 6
              \/ z = 7 \/ z = 8 \/ z = 9 \/ z = 10 \/ z = 11 \/ z = 12
              \/ z = 13 \/ z = 14 \/ z = 15) by lia.
  repeat (destruct E as [E|E]; [subst; split; reflexivity|]).
  subst. split; reflexivity.
Qed.

Lemma scan_plain l : forall t body r,
  Forall (fun b => 0x20 <= b2z b /\ b2z b <> 0x22 /\ b2z b <> 0x5c) l ->
  scan_string t = Some (body, r) ->
  scan_string (l ++ t) = Some (l ++ body, r).
Proof.
  induction l as [|b l IH]; intros t body r Hl Ht; [exact Ht|].
  inversion Hl as [|? ? Hb Hl']; subst. cbn [app scan_string].
  rewrite (IH t body r Hl' Ht). destruct Hb as (H1 & H2 & H3).
  ztest. reflexivity.
Qed.

Lemma scan_u4 h1 h2 h3 h4 t body r :
  is_hex (b2z h1) = true -> is_hex (b2z h2) = true ->
  is_hex (b2z h3) = true -> is_hex (b2z h4) = true ->
  scan_string t = Some (body, r) ->
  scan_string (backslash :: "u"%byte :: h1 :: h2 :: h3 :: h4 :: t)
  = Some (backslash :: "u"%byte :: h1 :: h2 :: h3 :: h4 :: body, r).
Proof.
  intros H1 H2 H3 H4 Ht. cbn [scan_string].
  change (b2z backslash) with 0x5c. change (b2z "u") with 0x75.
  cbn. rewrite H1, H2, H3, H4, Ht. reflexivity.
Qed.

Lemma escape_byte_cases b :
  b2z b < 0x80 -> safe (b2z b) = false ->
  (escape_byte b = [backslash; b] /\ (b2z b = 0x5c \/ b2z b = 0x22)) \/
  (escape_byte b = [backslash; "n"%byte] /\ b = x0a) \/
  (escape_byte b = [backslash; "r"%byte] /\ b = x0d) \/
  (exists h1 h2,
     escape_byte b = [backslash; "u"%byte; "0"%byte; "0"%byte; h1; h2] /\
     is_hex (b2z h1) = true /\ is_hex (b2z h2) = true /\
     hexval (b2z h1) * 16 + hexval (b2z h2) = b2z b /\
     b2z b <> 0x5c /\ b2z b <> 0x22).
Proof.
  intros Hb Hs. unfold escape_byte.
  destruct ((b2z b =? 0x5c) || (b2z b =? 0x22)) eqn:E1.
  { left. split; [reflexivity|]. apply orb_true_iff in E1.
    destruct E1 as [E|E]; apply Z.eqb_eq in E; lia. }
  apply orb_false_iff in E1. destruct E1 as [E1 E1']. zb.
  destruct (b2z b =? 0x0a) eqn:E2.
  { right. left. split; [reflexivity|]. zb. rewrite <- (z2b_b2z b), E2. reflexivity. }
  destruct (b2z b =? 0x0d) eqn:E3.
  { right. right. left. split; [reflexivity|]. zb. rewrite <- (z2b_b2z b), E3. reflexivity. }
  right. right. right. pose proof (b2z_range b) as R.
  exists (hex_digit (Z.shiftr (b2z b) 4)), (hex_digit (Z.land (b2z b) 0xF)).
  assert (S4 : Z.shiftr (b2z b) 4 = b2z b / 16)
    by (rewrite Z.shiftr_div_pow2 by lia; reflexivity).
  assert (L4 : Z.land (b2z b) 0xF = b2z b mod 16)
    by (change 0xF with (Z.ones 4); rewrite Z.land_ones by lia; reflexivity).
  rewrite S4, L4.
  destruct (hex_digit_spec (b2z b / 16)) as [A1 A2];
    [Z.div_mod_to_equations; lia|].
  destruct (hex_digit_spec (b2z b mod 16)) as [B1 B2];
    [Z.div_mod_to_equations; lia|].
  rewrite A2, B2. repeat split; try assumption.
  Z.div_mod_to_equations; lia.
Qed.

Lemma scan_escape b t body r :
  b2z b < 0x80 -> safe (b2z b) = false ->
  scan_string t = Some (body, r) ->
  scan_string (escape_byte b ++ t) = Some (escape_byte b ++ body, r).
Proof.
  intros Hb Hs Ht.
  destruct (escape_byte_cases b Hb Hs)
    as [[E H]|[[E H]|[[E H]|(h1 & h2 & E & H1 & H2 & _)]]]; rewrite E.
  - cbn [app scan_string]. change (b2z backslash) with 0x5c. rewrite Ht.
    destruct H as [H|H]; rewrite H; reflexivity.
  - cbn [app scan_string]. rewrite Ht. reflexivity.
  - cbn [app scan_string]. rewrite Ht. reflexivity.
  - cbn [app]. apply scan_u4; try assumption; reflexivity.
Qed.

Lemma skipn_length_le {A} k (l : list A) : (length (skipn k l) <= length l)%nat.
Proof. rewrite length_skipn. lia. Qed.

(** The scanner reads the encoded string up to the closing quote. *)
Lemma scan_string_loop n : forall s rest,
  (length s <= n)%nat ->
  scan_string (string_loop n s ++ dquote :: rest)
  = Some (string_loop n s, rest).
Proof.
  induction n as [|n IH]; intros s rest Hn.
  - destruct s; [reflexivity|simpl in Hn; lia].
  - destruct s as [|b t]; [reflexivity|]. simpl in Hn.
    destruct (Z.lt_ge_cases (b2z b) 0x80) as [Hb|Hb].
    + rewrite string_loop_ascii by exact Hb. rewrite <- app_assoc.
      destruct (safe (b2z b)) eqn:Hs.
      * apply scan_plain; [|apply IH; lia].
        unfold safe in Hs. zb. repeat constructor; lia.
      * apply scan_escape; [exact Hb|exact Hs|apply IH; lia].
    + destruct (DecodeRune (b :: t)) as [r size] eqn:E.
      destruct (decoded_inv_high b t r size Hb E) as [[-> ->]|Hs].
      * rewrite string_loop_invalid by assumption.
        cbn [bs list_byte_of_string app]. apply scan_u4; try reflexivity.
        apply IH. lia.
      * rewrite (string_loop_rune n b t r size Hb E Hs).
        rewrite <- app_assoc.
        assert (Hk : (length (skipn size (b :: t)) <= n)%nat).
        { rewrite length_skipn. cbn [length]. lia. }
        destruct ((r =? 0x2028) || (r =? 0x2029)) eqn:L.
        -- cbn [bs list_byte_of_string app]. apply scan_u4; try reflexivity.
           ++ apply orb_true_iff in L. destruct L as [L|L];
                apply Z.eqb_eq in L; subst; reflexivity.
           ++ apply IH. exact Hk.
        -- apply scan_plain; [|apply IH; exact Hk].
           destruct (DecodeRune_prefix _ _ _ [] E Hs) as (_ & _ & F & _).
           eapply Forall_impl; [|exact F]. simpl. intros a Ha. lia.
Qed.

(** [unquote], one round at a time. *)
Lemma unquote_plain f b t out :
  0x20 <= b2z b < 0x80 -> b2z b <> 0x22 -> b2z b <> 0x5c ->
  unquote_loop f t = Some out ->
  unquote_loop (S f) (b :: t) = Some (b :: out).
Proof.
  intros H1 H2 H3 Ht. cbn [unquote_loop]. rewrite Ht. unfold RuneSelf.
  ztest. reflexivity.
Qed.

Lemma EncodeRune_ascii b : b2z b < 0x80 -> EncodeRune (b2z b) = [b].
Proof.
  intros H. pose proof (b2z_range b). unfold EncodeRune. ztest. simpl.
  rewrite byte_of_small by lia. rewrite z2b_b2z. reflexivity.
Qed.

Lemma unquote_u4 f h1 h2 h3 h4 t out :
  is_hex (b2z h1) = true -> is_hex (b2z h2) = true ->
  is_hex (b2z h3) = true -> is_hex (b2z h4) = true ->
  let rr := ((hexval (b2z h1) * 16 + hexval (b2z h2)) * 16
             + hexval (b2z h3)) * 16 + hexval (b2z h4) in
  0 <= rr -> IsSurrogate rr = false ->
  unquote_loop f t = Some out ->
  unquote_loop (S f) (backslash :: "u"%byte :: h1 :: h2 :: h3 :: h4 :: t)
  = Some (EncodeRune rr ++ out).
Proof.
  intros H1 H2 H3 H4 rr Hr Hs Ht. cbn [unquote_loop].
  change (b2z backslash) with 0x5c. change (b2z "u") with 0x75.
  cbn [getu4 skipn]. change (b2z backslash) with 0x5c. change (b2z "u") with 0x75.
  rewrite H1, H2, H3, H4. cbn -[EncodeRune IsSurrogate Z.mul Z.add hexval unquote_loop].
  fold rr. replace (rr <? 0) with false by (symmetry; apply Z.ltb_ge; lia).
  rewrite Hs, Ht. reflexivity.
Qed.

Lemma unquote_escape f b t out :
  b2z b < 0x80 -> safe (b2z b) = false ->
  unquote_loop f t = Some out ->
  unquote_loop (S f) (escape_byte b ++ t) = Some (b :: out).
Proof.
  intros Hb Hs Ht. pose proof (b2z_range b) as R.
  destruct (escape_byte_cases b Hb Hs)
    as [[E H]|[[E H]|[[E H]|(h1 & h2 & E & H1 & H2 & H3 & _)]]]; rewrite E.
  - cbn [app unquote_loop]. change (b2z backslash) with 0x5c. rewrite Ht.
    destruct H as [H|H]; rewrite H; reflexivity.
  - subst b. cbn [app unquote_loop]. rewrite Ht. reflexivity.
  - subst b. cbn [app unquote_loop]. rewrite Ht. reflexivity.
  - cbn [app]. change (b :: out) with ([b] ++ out).
    rewrite <- (EncodeRune_ascii b Hb). rewrite <- H3.
    change (EncodeRune (hexval (b2z h1) * 16 + hexval (b2z h2)) ++ out)
      with (EncodeRune (((hexval (b2z "0") * 16 + hexval (b2z "0")) * 16
                         + hexval (b2z h1)) * 16 + hexval (b2z h2)) ++ out).
    apply unquote_u4; try assumption; try reflexivity.
    + change (hexval (b2z "0")) with 0. lia.
    + change (hexval (b2z "0")) with 0. unfold IsSurrogate, surr1, surr3.
      apply andb_false_iff. left. apply Z.leb_gt. lia.
Qed.

Lemma unquote_rune f p r size t out :
  DecodeRune p = (r, size) -> (1 < size)%nat ->
  unquote_loop f t = Some out ->
  unquote_loop (S f) (firstn size p ++ t) = Some (EncodeRune r ++ out).
Proof.
  intros E Hs Ht.
  destruct (DecodeRune_prefix p r size t E Hs) as (E' & Sk & F & _).
  destruct (firstn size p ++ t) as [|b q] eqn:Q.
  - simpl in E'. inversion E'. lia.
  - assert (Hb : 0x80 <= b2z b).
    { destruct (firstn size p) as [|a l] eqn:P.
      - destruct size as [|size]; [lia|]. destruct p; simpl in P; [|discriminate P].
        simpl in E. inversion E.
      - inversion F; subst. simpl in Q. inversion Q; subst. assumption. }
    cbn [unquote_loop]. rewrite E', Sk, Ht. unfold RuneSelf. ztest. reflexivity.
Qed.

Lemma escape_byte_nonempty b : (0 < length (escape_byte b))%nat.
Proof.
  unfold escape_byte. destruct (_ || _); [simpl; lia|].
  destruct (_ =? _); [simpl; lia|]. destruct (_ =? _); simpl; lia.
Qed.

(** [unquote] of the encoded string is the string coerced to UTF-8. *)
Lemma unquote_string_loop n : forall s f,
  (length s <= n)%nat -> (length (string_loop n s) <= f)%nat ->
  unquote_loop f (string_loop n s) = Some (coerce_loop n s).
Proof.
  induction n as [|n IH]; intros s f Hn Hf.
  - simpl. destruct f; reflexivity.
  - destruct s as [|b t]; [destruct f; reflexivity|]. simpl in Hn.
    destruct (Z.lt_ge_cases (b2z b) 0x80) as [Hb|Hb].
    + rewrite string_loop_ascii in * by exact Hb.
      cbn [coerce_loop]. unfold RuneSelf. ztest.
      destruct (safe (b2z b)) eqn:Hs.
      * destruct f as [|f]; [simpl in Hf; lia|].
        unfold safe in Hs. zb.
        apply unquote_plain; try lia. apply IH; [lia|simpl in Hf; lia].
      * rewrite length_app in Hf. pose proof (escape_byte_nonempty b) as Hne.
        destruct f as [|f]; [lia|].
        apply unquote_escape; [exact Hb|exact Hs|]. apply IH; lia.
    + destruct (DecodeRune (b :: t)) as [r size] eqn:E.
      cbn [coerce_loop]. rewrite E. unfold RuneSelf. ztest.
      destruct (decoded_inv_high b t r size Hb E) as [[-> ->]|Hs].
      * rewrite string_loop_invalid in * by assumption.
        destruct f as [|f]; [simpl in Hf; lia|].
        cbn [bs list_byte_of_string app].
        apply (unquote_u4 f "f" "f" "f" "d"); [reflexivity|reflexivity|reflexivity|reflexivity|
              vm_compute; intros K; discriminate K|reflexivity|].
        cbn [skipn]. apply IH; [lia|]. simpl in Hf. lia.
      * rewrite (string_loop_rune n b t r size Hb E Hs) in *.
        assert (Hk : (length (skipn size (b :: t)) <= n)%nat).
        { rewrite length_skipn. cbn [length]. lia. }
        rewrite length_app in Hf.
        destruct ((r =? 0x2028) || (r =? 0x2029)) eqn:L.
        -- destruct f as [|f]; [simpl in Hf; lia|].
           cbn [bs list_byte_of_string app].
           apply orb_true_iff in L. destruct L as [L|L];
             apply Z.eqb_eq in L; subst r.
           ++ apply (unquote_u4 f "2" "0" "2" "8"); [reflexivity|reflexivity|reflexivity|reflexivity|
              vm_compute; intros K; discriminate K|reflexivity|].
              apply IH; [exact Hk|]. simpl in Hf. lia.
           ++ apply (unquote_u4 f "2" "0" "2" "9"); [reflexivity|reflexivity|reflexivity|reflexivity|
              vm_compute; intros K; discriminate K|reflexivity|].
              apply IH; [exact Hk|]. simpl in Hf. lia.
        -- destruct f as [|f].
           { rewrite length_firstn in Hf. simpl in Hf. lia. }
           apply (unquote_rune f (b :: t) r size); [exact E|exact Hs|].
           apply IH; [exact Hk|].
           rewrite length_firstn in Hf. simpl in Hf. simpl. lia.
Qed.

(** A string the encoder wrote is read back as the string coerced to
    UTF-8, and the reading stops after its closing quote. *)
Lemma parse_encode_string s rest :
  parse_string (string_loop (length s) s ++ dquote :: rest)
  = Some (coerce s, rest).
Proof.
  unfold parse_string. rewrite scan_string_loop by lia.
  unfold unquote. rewrite unquote_string_loop by lia. reflexivity.
Qed.



End StringFacts.

(** * Integers: [strconv.AppendInt] against the scanner and [ParseInt] *)

Module NumberFacts.
Import UTF8Facts JSON.

Lemma digit_byte d : 0 <= d < 10 -> b2z (z2b (0x30 + d)) = 0x30 + d.
Proof. intros H. apply b2z_z2b. lia. Qed.

Lemma formatBits_acc fuel : forall u acc,
  formatBits fuel u acc = formatBits fuel u [] ++ acc.
Proof.
  induction fuel as [|fuel IH]; intros u acc; [reflexivity|].
  simpl. destruct (u <? 10); [reflexivity|].
  rewrite IH. rewrite (IH _ [_]). rewrite <- app_assoc. reflexivity.
Qed.

Lemma formatBits_step fuel u :
  10 <= u ->
  formatBits (S fuel) u []
  = formatBits fuel (u / 10) [] ++ [z2b (0x30 + u mod 10)].
Proof.
  intros H. simpl. ztest. rewrite formatBits_acc.
  replace (u - u / 10 * 10) with (u mod 10) by (Z.div_mod_to_equations; lia).
  reflexivity.
Qed.

Lemma formatBits_small fuel u :
  u < 10 -> formatBits (S fuel) u [] = [z2b (0x30 + u)].
Proof. intros H. simpl. ztest. reflexivity. Qed.

Lemma pow2_S (f : nat) : 2 ^ Z.of_nat (S f) = 2 * 2 ^ Z.of_nat f.
Proof. rewrite Nat2Z.inj_succ, Z.pow_succ_r by lia. reflexivity. Qed.

(** The digits are digits, the first is not a zero unless the number is
    zero, and they read back as the number. *)
Lemma digits_value_snoc l : forall a v x,
  digits_value a l = Some v -> is_digit (b2z x) = true ->
  digits_value a (l ++ [x]) = Some (v * 10 + (b2z x - 0x30)).
Proof.
  induction l as [|y l IHl]; intros a v x Hl Hx; simpl in *.
  - inversion Hl. subst. rewrite Hx. reflexivity.
  - destruct (is_digit (b2z y)); [|discriminate Hl].
    apply IHl; assumption.
Qed.

Lemma formatBits_spec fuel : forall u,
  0 <= u < 2 ^ Z.of_nat (S fuel) ->
  exists d ds,
    formatBits (S fuel) u [] = d :: ds /\
    Forall (fun b => is_digit (b2z b) = true) (d :: ds) /\
    (0 < u -> b2z d <> 0x30) /\
    (u = 0 -> d :: ds = ["0"%byte]) /\
    forall a, digits_value a (d :: ds)
              = Some (a * 10 ^ Z.of_nat (length (d :: ds)) + u).
Proof.
  induction fuel as [|fuel IH]; intros u Hu;
    destruct (Z.lt_ge_cases u 10) as [H|H].
  1, 3: rewrite formatBits_small by exact H;
    exists (z2b (0x30 + u)), []; split; [reflexivity|];
    assert (D : b2z (z2b (0x30 + u)) = 0x30 + u) by (apply digit_byte; lia);
    repeat split;
    [ constructor; [|constructor]; rewrite D; unfold is_digit; ztest; reflexivity
    | rewrite D; lia
    | intros ->; reflexivity
    | intros a; cbn [digits_value]; rewrite D; unfold is_digit; ztest;
      cbn [andb length]; f_equal; change (10 ^ Z.of_nat 1) with 10; lia ].
  - change (2 ^ Z.of_nat 1) with 2 in Hu. lia.
  - rewrite pow2_S in Hu. rewrite formatBits_step by exact H.
    destruct (IH (u / 10)) as (d & ds & E & F & N & _ & V).
    { Z.div_mod_to_equations. lia. }
    rewrite E. exists d, (ds ++ [z2b (0x30 + u mod 10)]).
    assert (M : 0 <= u mod 10 < 10) by (Z.div_mod_to_equations; lia).
    assert (D : b2z (z2b (0x30 + u mod 10)) = 0x30 + u mod 10)
      by (apply digit_byte; exact M).
    assert (Dg : is_digit (b2z (z2b (0x30 + u mod 10))) = true).
    { rewrite D. unfold is_digit. ztest. reflexivity. }
    change (d :: ds ++ [z2b (48 + u mod 10)])
      with ((d :: ds) ++ [z2b (48 + u mod 10)]).
    repeat split.
    + apply Forall_app. split; [exact F|]. constructor; [exact Dg|constructor].
    + intros _. apply N. Z.div_mod_to_equations. lia.
    + intros ->. lia.
    + intros a. rewrite (digits_value_snoc _ _ _ _ (V a) Dg).
      rewrite D. f_equal. rewrite length_app. cbn [length].
      replace (Z.of_nat (length ds + 1 + 1))
        with (Z.succ (Z.of_nat (S (length ds)))) by lia.
      replace (Z.of_nat (S (length ds) + 1))
        with (Z.succ (Z.of_nat (S (length ds)))) by lia.
      rewrite Z.pow_succ_r by lia.
      Z.div_mod_to_equations. nia.
Qed.

Lemma itoa_fuel u : 0 <= u -> u < 2 ^ Z.of_nat (S (Z.to_nat (Z.log2 u))).
Proof.
  intros H. destruct (Z.eq_dec u 0) as [->|N]; [reflexivity|].
  pose proof (Z.log2_spec u) as L. pose proof (Z.log2_nonneg u) as P.
  rewrite Nat2Z.inj_succ, Z2Nat.id by lia. apply L. lia.
Qed.

(** The shape of [itoa i]: an optional minus and the digits of [|i|]. *)
Lemma itoa_shape i :
  exists d ds,
    itoa i = (if i <? 0 then ["-"%byte] else []) ++ d :: ds /\
    Forall (fun b => is_digit (b2z b) = true) (d :: ds) /\
    (i <> 0 -> b2z d <> 0x30) /\
    (i = 0 -> d :: ds = ["0"%byte]) /\
    digits_value 0 (d :: ds) = Some (Z.abs i).
Proof.
  destruct (formatBits_spec _ (Z.abs i) (conj (Z.abs_nonneg i) (itoa_fuel _ (Z.abs_nonneg i))))
    as (d & ds & E & F & N & Z0 & V).
  exists d, ds. unfold itoa. cbv zeta. rewrite E.
  split; [|split; [|split; [|split]]].
  - destruct (i <? 0); reflexivity.
  - exact F.
  - intros Hi. apply N. lia.
  - intros ->. apply Z0. reflexivity.
  - rewrite V. f_equal; lia.
Qed.


Lemma span_digits_app ds : forall rest,
  Forall (fun b => is_digit (b2z b) = true) ds ->
  match rest with [] => True | b :: _ => is_digit (b2z b) = false end ->
  span_digits (ds ++ rest) = (ds, rest).
Proof.
  induction ds as [|d ds IH]; intros rest F R.
  - destruct rest as [|b rest]; [reflexivity|]. simpl. rewrite R. reflexivity.
  - inversion F; subst. cbn [app span_digits]. rewrite H1, IH by assumption.
    reflexivity.
Qed.

Lemma scan_number_itoa i rest :
  ends_value rest -> scan_number (itoa i ++ rest) = Some (itoa i, rest).
Proof.
  intros R. destruct (itoa_shape i) as (d & ds & E & F & N & Z0 & _).
  rewrite E. unfold scan_number.
  assert (Dd : is_digit (b2z d) = true) by (inversion F; assumption).
  assert (Fds : Forall (fun b => is_digit (b2z b) = true) ds) by (inversion F; assumption).
  assert (Rd : match rest with [] => True | b :: _ => is_digit (b2z b) = false end).
  { destruct rest as [|b rest]; [exact I|]. simpl in R. tauto. }
  assert (Tail : scan_frac rest = Some ([], rest) /\ scan_exp rest = Some ([], rest)).
  { destruct rest as [|b rest]; [split; reflexivity|]. simpl in R.
    destruct R as (_ & R1 & R2 & R3).
    unfold scan_frac, scan_exp. ztest. split; reflexivity. }
  destruct Tail as [T1 T2].
  assert (Int : scan_int_part (d :: ds ++ rest) = Some (d :: ds, rest)).
  { unfold scan_int_part. destruct (b2z d =? 0x30) eqn:Hd.
    - zb. destruct (Z.eq_dec i 0) as [->|Hi]; [|exfalso; exact (N Hi Hd)].
      specialize (Z0 eq_refl). inversion Z0. reflexivity.
    - rewrite Dd, span_digits_app by assumption. reflexivity. }
  destruct (i <? 0); cbn [app].
  - change (b2z "-") with 0x2d. cbn [Z.eqb Pos.eqb]. rewrite Int, T1, T2.
    rewrite !app_nil_r. reflexivity.
  - unfold is_digit in Dd. zb. ztest. rewrite Int, T1, T2.
    rewrite !app_nil_r. reflexivity.
Qed.

Lemma itoa_head i :
  exists b t, itoa i = b :: t /\ (b2z b = 0x2d \/ is_digit (b2z b) = true).
Proof.
  destruct (itoa_shape i) as (d & ds & E & F & _). rewrite E.
  destruct (i <? 0); cbn [app].
  - exists "-"%byte, (d :: ds). split; [reflexivity|left; reflexivity].
  - exists d, ds. split; [reflexivity|right]. inversion F; assumption.
Qed.

End NumberFacts.

(** * The fuel of the decoder is never short *)

Module FuelFacts.
Import UTF8 UTF8Facts JSON StringFacts.

(** Split on the scrutinee of the first [match] in [H]. *)
Ltac dm H :=
  match type of H with
  | context [match ?x with _ => _ end] =>
      let E := fresh "E" in destruct x eqn:E; try discriminate H
  end.

Lemma skip_ws_length s : (length (skip_ws s) <= length s)%nat.
Proof.
  induction s as [|b s IH]; simpl; [lia|].
  destruct (isSpace (b2z b)); simpl; lia.
Qed.

Lemma scan_string_rest n : forall s body r,
  (length s <= n)%nat -> scan_string s = Some (body, r) ->
  (length r < length s)%nat.
Proof.
  induction n as [|n IH]; intros s body r Hn H.
  - destruct s; [discriminate H|simpl in Hn; lia].
  - destruct s as [|b t]; [discriminate H|]. cbn [scan_string] in H.
    cbn [length] in *.
    dm H; [inversion H; subst; lia|].
    dm H.
    + destruct t as [|e t']; [discriminate H|]. cbn [length] in *.
      dm H.
      * destruct (scan_string t') as [[body' r']|] eqn:R; [|discriminate H].
        inversion H; subst. apply IH in R; lia.
      * dm H. destruct t' as [|h1 [|h2 [|h3 [|h4 t'']]]]; try discriminate H.
        dm H. cbn [length] in *.
        destruct (scan_string t'') as [[body' r']|] eqn:R; [|discriminate H].
        inversion H; subst. apply IH in R; lia.
    + dm H. destruct (scan_string t) as [[body' r']|] eqn:R; [|discriminate H].
      inversion H; subst. apply IH in R; lia.
Qed.

Lemma parse_string_rest s str r :
  parse_string s = Some (str, r) -> (length r < length s)%nat.
Proof.
  unfold parse_string. intros H.
  destruct (scan_string s) as [[body r']|] eqn:R; [|discriminate H].
  destruct (unquote body); [|discriminate H]. inversion H; subst.
  exact (scan_string_rest _ _ _ _ (le_n _) R).
Qed.

Lemma span_digits_rest s ds r :
  span_digits s = (ds, r) -> (length r <= length s)%nat.
Proof.
  revert ds r. induction s as [|b s IH]; intros ds r H; simpl in H.
  - inversion H. simpl. lia.
  - destruct (is_digit (b2z b)).
    + destruct (span_digits s) as [ds' r'] eqn:R. inversion H; subst.
      specialize (IH _ _ eq_refl). simpl. lia.
    + inversion H; subst. lia.
Qed.

Lemma scan_number_rest s lit r :
  scan_number s = Some (lit, r) -> (length r < length s)%nat.
Proof.
  unfold scan_number. intros H.
  destruct (match s with
            | [] => ([], s)
            | b :: t => if b2z b =? 45 then ([b], t) else ([], s)
            end) as [sign s0] eqn:S0.
  assert (L0 : (length s0 <= length s)%nat).
  { destruct s as [|b t]; [inversion S0; simpl; lia|].
    destruct (b2z b =? 45); inversion S0; subst; simpl; lia. }
  destruct (scan_int_part s0) as [[ip s1]|] eqn:I; [|discriminate H].
  assert (L1 : (length s1 < length s0)%nat).
  { unfold scan_int_part in I. destruct s0 as [|b t]; [discriminate I|].
    dm I; [inversion I; subst; simpl; lia|]. dm I.
    destruct (span_digits t) as [ds r'] eqn:D. inversion I; subst.
    apply span_digits_rest in D. simpl. lia. }
  destruct (scan_frac s1) as [[fp s2]|] eqn:F; [|discriminate H].
  assert (L2 : (length s2 <= length s1)%nat).
  { unfold scan_frac in F. destruct s1 as [|b t]; [inversion F; subst; lia|].
    dm F; [|inversion F; subst; lia].
    destruct (span_digits t) as [ds r'] eqn:D. apply span_digits_rest in D.
    destruct ds; inversion F; subst. simpl. lia. }
  destruct (scan_exp s2) as [[ep s3]|] eqn:X; [|discriminate H].
  assert (L3 : (length s3 <= length s2)%nat).
  { unfold scan_exp in X. destruct s2 as [|b t]; [inversion X; subst; lia|].
    dm X; [|inversion X; subst; lia].
    destruct (match t with
              | [] => ([], t)
              | g :: t1 =>
                  if (b2z g =? 43) || (b2z g =? 45) then ([g], t1) else ([], t)
              end) as [sg t1] eqn:G.
    assert (Lt : (length t1 <= length t)%nat).
    { destruct t as [|g t']; [inversion G; subst; lia|].
      destruct ((b2z g =? 43) || (b2z g =? 45)); inversion G; subst; simpl; lia. }
    destruct (span_digits t1) as [ds r'] eqn:D. apply span_digits_rest in D.
    destruct ds; inversion X; subst. simpl. lia. }
  inversion H; subst. lia.
Qed.

(** What is left after a value is shorter than the input. *)
Lemma parse_rest fuel :
  (forall s v r, parse_value fuel s = Some (v, r) ->
                 (length r < length s)%nat) /\
  (forall s ms r, parse_members fuel s = Some (ms, r) ->
                  (length r < length s)%nat) /\
  (forall s es r, parse_elements fuel s = Some (es, r) ->
                  (length r < length s)%nat).
Proof.
  induction fuel as [|fuel (IHv & IHm & IHe)];
    [repeat split; intros; discriminate|].
  split; [|split].
  - intros s v r H. cbn [parse_value] in H.
    destruct s as [|b t]; [discriminate H|]. cbn [length].
    dm H.
    { pose proof (skip_ws_length t) as L.
      destruct (skip_ws t) as [|b1 t1]; [discriminate H|]. cbn [length] in L.
      dm H; [inversion H; subst; lia|].
      destruct (parse_members fuel (b1 :: t1)) as [[ms r']|] eqn:M;
        [|discriminate H].
      inversion H; subst. apply IHm in M. cbn [length] in M. lia. }
    dm H.
    { pose proof (skip_ws_length t) as L.
      destruct (skip_ws t) as [|b1 t1]; [discriminate H|]. cbn [length] in L.
      dm H; [inversion H; subst; lia|].
      destruct (parse_elements fuel (b1 :: t1)) as [[es r']|] eqn:M;
        [|discriminate H].
      inversion H; subst. apply IHe in M. cbn [length] in M. lia. }
    dm H.
    { destruct (parse_string t) as [[str r']|] eqn:P; [|discriminate H].
      inversion H; subst. apply parse_string_rest in P. lia. }
    assert (L : forall k, (length (skipn (S k) (b :: t)) < S (length t))%nat)
      by (intros k; rewrite length_skipn; cbn [length]; lia).
    dm H; [inversion H; subst; exact (L 3%nat)|].
    dm H; [inversion H; subst; exact (L 4%nat)|].
    dm H; [inversion H; subst; exact (L 3%nat)|].
    destruct (scan_number (b :: t)) as [[lit r']|] eqn:N; [|discriminate H].
    inversion H; subst. apply scan_number_rest in N. cbn [length] in N. lia.
  - intros s ms r H. cbn [parse_members] in H.
    destruct s as [|b t]; [discriminate H|]. cbn [length].
    dm H. destruct (parse_string t) as [[key r1]|] eqn:P; [|discriminate H].
    apply parse_string_rest in P.
    pose proof (skip_ws_length r1) as L1.
    destruct (skip_ws r1) as [|b2 r2]; [discriminate H|]. cbn [length] in L1.
    dm H. pose proof (skip_ws_length r2) as L2.
    destruct (parse_value fuel (skip_ws r2)) as [[v r4]|] eqn:V;
      [|discriminate H].
    apply IHv in V. pose proof (skip_ws_length r4) as L4.
    destruct (skip_ws r4) as [|b5 r5]; [discriminate H|]. cbn [length] in L4.
    dm H.
    + pose proof (skip_ws_length r5) as L5.
      destruct (parse_members fuel (skip_ws r5)) as [[ms' r6]|] eqn:M;
        [|discriminate H].
      inversion H; subst. apply IHm in M. lia.
    + dm H. inversion H; subst. lia.
  - intros s es r H. cbn [parse_elements] in H.
    destruct (parse_value fuel s) as [[v r1]|] eqn:V; [|discriminate H].
    apply IHv in V. pose proof (skip_ws_length r1) as L1.
    destruct (skip_ws r1) as [|b2 r2]; [discriminate H|]. cbn [length] in L1.
    dm H.
    + pose proof (skip_ws_length r2) as L2.
      destruct (parse_elements fuel (skip_ws r2)) as [[es' r3]|] eqn:M;
        [|discriminate H].
      inversion H; subst. apply IHe in M. lia.
    + dm H. inversion H; subst. lia.
Qed.

(** Fuel beyond twice the length of the input changes nothing: the fuel
    [parse] gives is never the reason of a failure. *)
Lemma parse_fuel fuel : forall fuel',
  (forall s, (2 * length s + 1 <= fuel)%nat ->
             (2 * length s + 1 <= fuel')%nat ->
             parse_value fuel s = parse_value fuel' s) /\
  (forall s, (2 * length s + 2 <= fuel)%nat ->
             (2 * length s + 2 <= fuel')%nat ->
             parse_members fuel s = parse_members fuel' s) /\
  (forall s, (2 * length s + 2 <= fuel)%nat ->
             (2 * length s + 2 <= fuel')%nat ->
             parse_elements fuel s = parse_elements fuel' s).
Proof.
  induction fuel as [|fuel IH]; intros fuel';
    [repeat split; intros; lia|].
  destruct fuel' as [|fuel']; [repeat split; intros; lia|].
  destruct (IH fuel') as (IHv & IHm & IHe).
  destruct (parse_rest fuel') as (Rv & Rm & Re).
  split; [|split]; intros s Hf Hf'.
  - cbn [parse_value]. destruct s as [|b t]; [reflexivity|].
    cbn [length] in *.
    destruct (b2z b =? 123).
    { pose proof (skip_ws_length t) as L.
      destruct (skip_ws t) as [|b1 t1]; [reflexivity|]. cbn [length] in L.
      destruct (b2z b1 =? 125); [reflexivity|].
      rewrite IHm by (cbn [length]; lia). reflexivity. }
    destruct (b2z b =? 91).
    { pose proof (skip_ws_length t) as L.
      destruct (skip_ws t) as [|b1 t1]; [reflexivity|]. cbn [length] in L.
      destruct (b2z b1 =? 93); [reflexivity|].
      rewrite IHe by (cbn [length]; lia). reflexivity. }
    reflexivity.
  - cbn [parse_members]. destruct s as [|b t]; [reflexivity|].
    cbn [length] in *.
    destruct (b2z b =? 34); [|reflexivity].
    destruct (parse_string t) as [[key r1]|] eqn:P; [|reflexivity].
    apply parse_string_rest in P. pose proof (skip_ws_length r1) as L1.
    destruct (skip_ws r1) as [|b2 r2]; [reflexivity|]. cbn [length] in L1.
    destruct (b2z b2 =? 58); [|reflexivity].
    pose proof (skip_ws_length r2) as L2.
    rewrite IHv by lia.
    destruct (parse_value fuel' (skip_ws r2)) as [[v r4]|] eqn:V;
      [|reflexivity].
    apply Rv in V. pose proof (skip_ws_length r4) as L4.
    destruct (skip_ws r4) as [|b5 r5]; [reflexivity|]. cbn [length] in L4.
    destruct (b2z b5 =? 44); [|reflexivity].
    pose proof (skip_ws_length r5) as L5.
    rewrite IHm by lia. reflexivity.
  - cbn [parse_elements]. rewrite IHv by lia.
    destruct (parse_value fuel' s) as [[v r1]|] eqn:V; [|reflexivity].
    apply Rv in V. pose proof (skip_ws_length r1) as L1.
    destruct (skip_ws r1) as [|b2 r2]; [reflexivity|]. cbn [length] in L1.
    destruct (b2z b2 =? 44); [|reflexivity].
    pose proof (skip_ws_length r2) as L2.
    rewrite IHe by lia. reflexivity.
Qed.

Lemma parse_fuel_enough data fuel :
  (2 * length data + 1 <= fuel)%nat ->
  parse data
  = match parse_value fuel (skip_ws data) with
    | Some (v, r) => match skip_ws r with [] => Some v | _ :: _ => None end
    | None => None
    end.
Proof.
  intros H. unfold parse. pose proof (skip_ws_length data) as L.
  rewrite (proj1 (parse_fuel (2 * length data + 1) fuel)) by lia.
  reflexivity.
Qed.

(** The same for the loops over a string: a round takes one byte or
    more. *)
Lemma unquote_loop_fuel fuel : forall fuel' s,
  (length s <= fuel)%nat -> (length s <= fuel')%nat ->
  unquote_loop fuel s = unquote_loop fuel' s.
Proof.
  induction fuel as [|fuel IH]; intros fuel' s Hf Hf'.
  - destruct s; [|simpl in Hf; lia]. destruct fuel'; reflexivity.
  - destruct s as [|b t]; [destruct fuel'; reflexivity|].
    destruct fuel' as [|fuel']; [simpl in Hf'; lia|].
    cbn [length] in *. cbn [unquote_loop].
    destruct (b2z b =? 92).
    { destruct t as [|e t']; [reflexivity|]. cbn [length] in *.
      rewrite (IH fuel' t') by lia.
      destruct ((b2z e =? 34) || (b2z e =? 92) || (b2z e =? 47)
                || (b2z e =? 39)); [reflexivity|].
      destruct (b2z e =? 98); [reflexivity|].
      destruct (b2z e =? 102); [reflexivity|].
      destruct (b2z e =? 110); [reflexivity|].
      destruct (b2z e =? 114); [reflexivity|].
      destruct (b2z e =? 116); [reflexivity|].
      destruct (b2z e =? 117); [|reflexivity].
      destruct (getu4 (b :: e :: t') <? 0); [reflexivity|].
      rewrite (IH fuel' (skipn 6 (b :: e :: t')))
        by (rewrite length_skipn; cbn [length]; lia).
      rewrite (IH fuel' (skipn 6 (skipn 6 (b :: e :: t'))))
        by (rewrite !length_skipn; cbn [length]; lia).
      reflexivity. }
    destruct ((b2z b =? 34) || (b2z b <? 32)); [reflexivity|].
    rewrite (IH fuel' t) by lia.
    destruct (b2z b <? RuneSelf); [reflexivity|].
    destruct (DecodeRune (b :: t)) as [rr size] eqn:D.
    assert (Hs : (1 <= size)%nat).
    { pose proof (DecodeRune_decoded (b :: t)) as Q. rewrite D in Q.
      simpl in Q. inversion Q; lia. }
    rewrite (IH fuel' (skipn size (b :: t)))
      by (rewrite length_skipn; cbn [length]; lia).
    reflexivity.
Qed.

Lemma string_loop_fuel fuel : forall fuel' s,
  (length s <= fuel)%nat -> (length s <= fuel')%nat ->
  string_loop fuel s = string_loop fuel' s.
Proof.
  induction fuel as [|fuel IH]; intros fuel' s Hf Hf'.
  - destruct s; [|simpl in Hf; lia]. destruct fuel'; reflexivity.
  - destruct s as [|b t]; [destruct fuel'; reflexivity|].
    destruct fuel' as [|fuel']; [simpl in Hf'; lia|].
    cbn [length] in *. cbn [string_loop].
    rewrite (IH fuel' t) by lia.
    destruct (b2z b <? RuneSelf); [reflexivity|].
    destruct (DecodeRune (b :: t)) as [r size] eqn:D.
    assert (Hs : (1 <= size)%nat).
    { pose proof (DecodeRune_decoded (b :: t)) as Q. rewrite D in Q.
      simpl in Q. inversion Q; lia. }
    rewrite (IH fuel' (skipn size (b :: t)))
      by (rewrite length_skipn; cbn [length]; lia).
    reflexivity.
Qed.

End FuelFacts.

(** * The parser on what the encoder writes *)

Module ParseFacts.
Import UTF8 UTF8Facts JSON StringFacts NumberFacts.

Lemma skip_ws_nonspace b t : isSpace (b2z b) = false -> skip_ws (b :: t) = b :: t.
Proof. intros H. simpl. rewrite H. reflexivity. Qed.

Lemma encode_string_shape s rest :
  encode_string s ++ rest
  = dquote :: string_loop (length s) s ++ dquote :: rest.
Proof.
  unfold encode_string. cbn [app]. rewrite <- app_assoc. reflexivity.
Qed.

Lemma encode_members_ok first l :
  encode_members first (map (fun '(k, enc) => (k, Ok enc)) l)
  = Ok (members_text first l).
Proof.
  revert first. induction l as [|[k enc] l IH]; intros first; [reflexivity|].
  cbn [map encode_members members_text]. rewrite IH. reflexivity.
Qed.

Lemma members_text_false l :
  members_text false l
  = match l with [] => [] | _ :: _ => ","%byte :: members_text true l end.
Proof. destruct l as [|[k enc] l]; reflexivity. Qed.

Lemma members_text_false_cons l :
  l <> [] -> members_text false l = ","%byte :: members_text true l.
Proof. destruct l as [|[k enc] l]; [congruence|reflexivity]. Qed.

Lemma members_text_head k enc l rest :
  members_text true ((k, enc) :: l) ++ rest
  = dquote :: string_loop (length k) k
      ++ dquote :: ":"%byte :: enc ++ members_text false l ++ rest.
Proof.
  cbn [members_text app]. rewrite <- app_assoc, encode_string_shape.
  cbn [app]. rewrite <- app_assoc. reflexivity.
Qed.

Lemma skip_ws_members l rest :
  l <> [] ->
  skip_ws (members_text true l ++ rest) = members_text true l ++ rest.
Proof.
  destruct l as [|[k enc] l]; [congruence|]. intros _.
  rewrite members_text_head. apply skip_ws_nonspace. reflexivity.
Qed.

Lemma firstn_app_exact (enc rest : bytes) :
  firstn (length (enc ++ rest) - length rest) (enc ++ rest) = enc.
Proof.
  rewrite length_app. replace (length enc + length rest - length rest)%nat
    with (length enc + 0)%nat by lia.
  rewrite firstn_app_2. simpl. apply app_nil_r.
Qed.

(** A scalar is read back. *)
Lemma scalar_reads_as v :
  scalar v -> reads_as 1 (scalar_encoding v) (scalar_tree v).
Proof.
  destruct v as [s|i|b|m|msg]; simpl; try tauto; intros _; split.
  - intros rest [|fuel] R Hf; [lia|]. rewrite encode_string_shape.
    cbn [parse_value]. change (b2z dquote) with 0x22. cbn [Z.eqb Pos.eqb].
    rewrite parse_encode_string. reflexivity.
  - reflexivity.
  - intros rest [|fuel] R Hf; [lia|].
    destruct (itoa_head i) as (b & t & E & Hb).
    pose proof (scan_number_itoa i rest R) as Sc. rewrite E in *.
    cbn [app parse_value] in *.
    assert (Hc : (b2z b =? 0x7b) = false /\ (b2z b =? 0x5b) = false
                 /\ (b2z b =? 0x22) = false
                 /\ byte_eqb "t" b = false /\ byte_eqb "f" b = false
                 /\ byte_eqb "n" b = false).
    { assert (Hne : forall c : byte, b2z c <> b2z b -> byte_eqb c b = false).
      { intros c Hcb. destruct (byte_eqb c b) eqn:Q; [|reflexivity].
        apply byte_eqb_eq in Q. subst. congruence. }
      destruct Hb as [Hb|Hb].
      - rewrite Hb. repeat split; try reflexivity; apply Hne; rewrite Hb;
          intros Q; discriminate Q.
      - unfold is_digit in Hb. zb.
        repeat split; try (apply Z.eqb_neq; lia); apply Hne;
          [change (b2z "t") with 0x74|change (b2z "f") with 0x66
          |change (b2z "n") with 0x6e]; lia. }
    destruct Hc as (H1 & H2 & H3 & H4 & H5 & H6).
    rewrite H1, H2, H3.
    change (bs "true") with ["t"%byte; "r"%byte; "u"%byte; "e"%byte].
    change (bs "false")
      with ["f"%byte; "a"%byte; "l"%byte; "s"%byte; "e"%byte].
    change (bs "null") with ["n"%byte; "u"%byte; "l"%byte; "l"%byte].
    cbn [has_prefix]. rewrite H4, H5, H6. cbn [andb]. rewrite Sc.
    reflexivity.
  - destruct (itoa_head i) as (b & t & E & Hb). rewrite E.
    unfold isSpace. destruct Hb as [Hb|Hb]; [rewrite Hb; reflexivity|].
    unfold is_digit in Hb. zb. ztest. reflexivity.
  - intros rest [|fuel] R Hf; [lia|]. destruct b; reflexivity.
  - destruct b; reflexivity.
Qed.

Lemma reads_as_mono F G enc j :
  (F <= G)%nat -> reads_as F enc j -> reads_as G enc j.
Proof.
  intros H [A B]. split; [|exact B]. intros rest fuel R Hf.
  apply A; [exact R|lia].
Qed.

Lemma ends_value_members l rest :
  ends_value (members_text false l ++ "}"%byte :: rest).
Proof.
  rewrite members_text_false.
  destruct l; simpl; repeat split; intros Q; discriminate Q.
Qed.

(** The members of an object are read back, each with the bytes of its
    value. *)
Lemma parse_members_text F l : forall rest fuel,
  Forall (fun e => reads_as F (snd (fst e)) (snd e)) l ->
  l <> [] -> (F + length l <= fuel)%nat ->
  parse_members fuel
    (members_text true (map fst l) ++ "}"%byte :: rest)
  = Some (map (fun e => (coerce (fst (fst e)), snd (fst e), snd e)) l, rest).
Proof.
  induction l as [|[[k enc] j] l IH]; intros rest fuel Hl Hne Hf;
    [congruence|].
  inversion Hl as [|? ? [Hread Hhead] Hl']; subst. simpl in Hread, Hhead.
  destruct fuel as [|fuel]; [cbn [length] in *; lia|].
  cbn [map fst snd]. rewrite members_text_head.
  cbn [parse_members]. change (b2z dquote) with 0x22. cbn [Z.eqb Pos.eqb].
  rewrite parse_encode_string.
  rewrite skip_ws_nonspace by reflexivity.
  change (b2z ":") with 0x3a. cbn [Z.eqb Pos.eqb].
  assert (Hsk : skip_ws (enc ++ members_text false (map fst l) ++ "}"%byte :: rest)
                = enc ++ members_text false (map fst l) ++ "}"%byte :: rest).
  { destruct enc as [|b enc]; [contradiction|]. apply skip_ws_nonspace. exact Hhead. }
  rewrite Hsk. rewrite Hread; [|apply ends_value_members|cbn [length] in *; lia].
  rewrite firstn_app_exact.
  destruct l as [|e l].
  - cbn [map members_text app]. rewrite skip_ws_nonspace by reflexivity.
    change (b2z "}") with 0x7d. cbn [Z.eqb Pos.eqb]. reflexivity.
  - assert (Hm : map fst (e :: l) <> []) by discriminate.
    rewrite (members_text_false_cons _ Hm). cbn [app].
    rewrite skip_ws_nonspace by reflexivity.
    change (b2z ",") with 0x2c. cbn [Z.eqb Pos.eqb].
    rewrite (skip_ws_members _ _ Hm).
    rewrite (IH rest fuel Hl'); [reflexivity|discriminate|].
    cbn [length] in *. lia.
Qed.

(** An object is read back. *)
Lemma parse_object_text F l rest fuel :
  Forall (fun e => reads_as F (snd (fst e)) (snd e)) l ->
  (F + length l + 1 <= fuel)%nat ->
  parse_value fuel
    ("{"%byte :: members_text true (map fst l) ++ "}"%byte :: rest)
  = Some (JObj (map (fun e => (coerce (fst (fst e)), snd (fst e), snd e)) l),
          rest).
Proof.
  intros Hl Hf. destruct fuel as [|fuel]; [lia|].
  cbn [parse_value]. change (b2z "{") with 0x7b. cbn [Z.eqb Pos.eqb].
  destruct l as [|e l].
  - cbn [map members_text app]. rewrite skip_ws_nonspace by reflexivity.
    change (b2z "}") with 0x7d. cbn [Z.eqb Pos.eqb]. reflexivity.
  - pose proof (parse_members_text F (e :: l) rest fuel Hl) as P.
    destruct e as [[k enc] j]. cbn [map fst] in *.
    rewrite members_text_head in *.
    rewrite skip_ws_nonspace by reflexivity.
    change (b2z dquote) with 0x22. cbn [Z.eqb Pos.eqb].
    rewrite P; [reflexivity|discriminate|cbn [length] in *; lia].
Qed.

Lemma object_reads_as F l :
  Forall (fun e => reads_as F (snd (fst e)) (snd e)) l ->
  reads_as (F + length l + 1)
    ("{"%byte :: members_text true (map fst l) ++ ["}"%byte])
    (JObj (map (fun e => (coerce (fst (fst e)), snd (fst e), snd e)) l)).
Proof.
  intros Hl. split; [|reflexivity]. intros rest fuel _ Hf.
  cbn [app]. rewrite <- app_assoc. cbn [app].
  apply (parse_object_text F); assumption.
Qed.

End ParseFacts.

(** * [Marshal] of the maps [outputNotice] builds *)

Module MarshalFacts.
Import UTF8 UTF8Facts JSON StringFacts NumberFacts ParseFacts Notice.

Lemma insert_key_map {A B} (f : A -> B) k x (l : list (bytes * A)) :
  insert_key k (f x) (map (fun kv => (fst kv, f (snd kv))) l)
  = map (fun kv => (fst kv, f (snd kv))) (insert_key k x l).
Proof.
  induction l as [|[k' y] l IH]; [reflexivity|].
  cbn [map insert_key fst snd]. destruct (bytes_ltb k k'); [reflexivity|].
  cbn [map fst snd]. rewrite IH. reflexivity.
Qed.

Lemma sort_keys_map {A B} (f : A -> B) (l : list (bytes * A)) :
  sort_keys (map (fun kv => (fst kv, f (snd kv))) l)
  = map (fun kv => (fst kv, f (snd kv))) (sort_keys l).
Proof.
  induction l as [|[k x] l IH]; [reflexivity|].
  cbn [map sort_keys fst snd]. rewrite IH. apply insert_key_map.
Qed.

Lemma insert_key_In {A} k (x : A) l e :
  In e (insert_key k x l) <-> e = (k, x) \/ In e l.
Proof.
  induction l as [|[k' y] l IH]; simpl.
  - intuition congruence.
  - destruct (bytes_ltb k k'); simpl; [intuition congruence|].
    rewrite IH. intuition congruence.
Qed.

Lemma sort_keys_In {A} (l : list (bytes * A)) e :
  In e (sort_keys l) <-> In e l.
Proof.
  induction l as [|[k x] l IH]; simpl; [tauto|].
  rewrite insert_key_In, IH. intuition congruence.
Qed.

Lemma sort_keys_Forall {A} (P : bytes * A -> Prop) l :
  Forall P l -> Forall P (sort_keys l).
Proof.
  rewrite !Forall_forall. intros H e He. apply H. apply sort_keys_In. exact He.
Qed.

Lemma insert_key_length {A} k (x : A) l :
  length (insert_key k x l) = S (length l).
Proof.
  induction l as [|[k' y] l IH]; simpl; [reflexivity|].
  destruct (bytes_ltb k k'); simpl; [reflexivity|]. rewrite IH. reflexivity.
Qed.

Lemma sort_keys_length {A} (l : list (bytes * A)) :
  length (sort_keys l) = length l.
Proof.
  induction l as [|[k x] l IH]; simpl; [reflexivity|].
  rewrite insert_key_length, IH. reflexivity.
Qed.

(** The inner loop of [Marshal] on a map is a [map]. *)
Lemma Marshal_VMap m :
  Marshal (VMap m)
  = match encode_members true
            (sort_keys (map (fun kv => (fst kv, Marshal (snd kv))) m)) with
    | Ok body => Ok ("{"%byte :: body ++ ["}"%byte])
    | Err e => Err e
    end.
Proof.
  cbn [Marshal].
  replace ((fix each (m0 : list (bytes * value)) : list (bytes * result bytes) :=
              match m0 with
              | [] => []
              | (k, x) :: m' => (k, Marshal x) :: each m'
              end) m)
    with (map (fun kv => (fst kv, Marshal (snd kv))) m); [reflexivity|].
  induction m as [|[k x] m IH]; [reflexivity|]. cbn [map fst snd].
  rewrite IH. reflexivity.
Qed.

Lemma Marshal_scalar v : scalar v -> Marshal v = Ok (scalar_encoding v).
Proof. destruct v; simpl; tauto || reflexivity. Qed.

Lemma encode_members_flat first (sm : gomap) :
  encode_members first
    (map (fun kv => (fst kv, Ok (scalar_encoding (snd kv)))) sm)
  = Ok (members_text first
          (map (fun kv => (fst kv, scalar_encoding (snd kv))) sm)).
Proof.
  revert first. induction sm as [|[k x] sm IH]; intros first; [reflexivity|].
  cbn [map encode_members members_text fst snd]. rewrite IH. reflexivity.
Qed.

Lemma flat_entries_fst m :
  map fst (flat_entries m)
  = map (fun kv => (fst kv, scalar_encoding (snd kv))) (sort_keys m).
Proof. unfold flat_entries. rewrite map_map. reflexivity. Qed.

Lemma Marshal_flat m :
  Forall (fun kv => scalar (snd kv)) m -> Marshal (VMap m) = Ok (flat_text m).
Proof.
  intros H. rewrite Marshal_VMap.
  rewrite (map_ext_in _ (fun kv => (fst kv, Ok (scalar_encoding (snd kv))))).
  2:{ intros [k x] Hin. cbn [fst snd]. rewrite Marshal_scalar; [reflexivity|].
      rewrite Forall_forall in H. exact (H _ Hin). }
  rewrite (sort_keys_map (fun x => Ok (scalar_encoding x))).
  rewrite encode_members_flat. unfold flat_text. rewrite flat_entries_fst.
  reflexivity.
Qed.

Lemma flat_entries_read m :
  Forall (fun kv => scalar (snd kv)) m ->
  Forall (fun e => reads_as 1 (snd (fst e)) (snd e)) (flat_entries m).
Proof.
  intros H. unfold flat_entries. apply Forall_map.
  apply sort_keys_Forall. eapply Forall_impl; [|exact H].
  intros [k x] Hx. cbn [fst snd] in *. apply scalar_reads_as. exact Hx.
Qed.

Lemma flat_reads_as m :
  Forall (fun kv => scalar (snd kv)) m ->
  reads_as (length m + 2) (flat_text m) (flat_tree m).
Proof.
  intros H. pose proof (object_reads_as 1 _ (flat_entries_read m H)) as R.
  unfold flat_entries at 1 in R. rewrite length_map, sort_keys_length in R.
  eapply reads_as_mono; [|exact R]. lia.
Qed.

Section Output.
Variable ContextError : error -> bytes.

Lemma notice_obj_sorted timestamp noticeType showUser args :
  sort_keys (map (fun kv => (fst kv, Marshal (snd kv)))
                 (notice_obj timestamp noticeType showUser args))
  = [ (bs "data", Marshal (VMap (collect_args args [])));
      (bs "noticeType", Ok (encode_string noticeType));
      (bs "showUser", Ok (if showUser then bs "true" else bs "false"));
      (bs "timestamp", Ok (encode_string timestamp)) ].
Proof. reflexivity. Qed.

(** With scalar values in the fields, [json.Marshal] succeeds and
    [output] is the envelope. *)
Lemma Marshal_notice_obj timestamp noticeType showUser args :
  Forall (fun kv => scalar (snd kv)) (collect_args args []) ->
  Marshal (VMap (notice_obj timestamp noticeType showUser args))
  = Ok (envelope_text timestamp noticeType showUser (collect_args args [])).
Proof.
  intros H. rewrite Marshal_VMap, notice_obj_sorted.
  rewrite (Marshal_flat _ H). reflexivity.
Qed.

Lemma notice_output_envelope timestamp noticeType showUser args :
  Forall (fun kv => scalar (snd kv)) (collect_args args []) ->
  notice_output ContextError timestamp noticeType showUser args
  = envelope_text timestamp noticeType showUser (collect_args args []).
Proof.
  intros H. unfold notice_output. rewrite (Marshal_notice_obj _ _ _ _ H).
  reflexivity.
Qed.

End Output.

Lemma members_text_length first l :
  (length l <= length (members_text first l))%nat.
Proof.
  revert first. induction l as [|[k enc] l IH]; intros first; [simpl; lia|].
  cbn [members_text]. unfold encode_string. specialize (IH false).
  rewrite !length_app. cbn [length]. rewrite !length_app. cbn [length]. lia.
Qed.

Lemma flat_text_length m : (length m + 2 <= length (flat_text m))%nat.
Proof.
  unfold flat_text. cbn [length]. rewrite length_app. cbn [length].
  pose proof (members_text_length true (map fst (flat_entries m))) as L.
  assert (E : length (flat_entries m) = length m)
    by (unfold flat_entries; rewrite length_map, sort_keys_length; reflexivity).
  rewrite length_map, E in L. lia.
Qed.

Lemma ends_value_space rest : skip_ws rest = [] -> ends_value rest.
Proof.
  destruct rest as [|b rest]; [exact (fun _ => I)|]. simpl.
  destruct (isSpace (b2z b)) eqn:S; [|discriminate]. intros _.
  unfold isSpace in S. unfold is_digit.
  repeat (apply orb_true_iff in S; destruct S as [S|S]);
    apply Z.eqb_eq in S; rewrite S; repeat split; intros Q; discriminate Q.
Qed.

(** A whole text: the value, and at most space after it. *)
Lemma parse_text F enc j rest :
  reads_as F enc j -> (F <= S (length enc))%nat -> skip_ws rest = [] ->
  parse (enc ++ rest) = Some j.
Proof.
  intros [R H] Hf Hr. unfold parse.
  destruct enc as [|b enc]; [contradiction|].
  change ((b :: enc) ++ rest) with (b :: (enc ++ rest)).
  rewrite skip_ws_nonspace by exact H.
  change (b :: (enc ++ rest)) with ((b :: enc) ++ rest).
  rewrite R; [rewrite Hr; reflexivity|apply ends_value_space; exact Hr|].
  rewrite length_app. lia.
Qed.


Lemma envelope_reads_as timestamp noticeType showUser noticeData :
  Forall (fun kv => scalar (snd kv)) noticeData ->
  reads_as (length noticeData + 2 + 4 + 1)
    (envelope_text timestamp noticeType showUser noticeData)
    (envelope_tree timestamp noticeType showUser noticeData).
Proof.
  intros H. unfold envelope_text, envelope_tree.
  apply (object_reads_as (length noticeData + 2)
           (envelope_entries timestamp noticeType showUser noticeData)).
  unfold envelope_entries.
  apply Forall_cons; [|apply Forall_cons; [|apply Forall_cons;
    [|apply Forall_cons; [|apply Forall_nil]]]]; cbn [fst snd].
  - apply flat_reads_as. exact H.
  - apply (reads_as_mono 1); [lia|]. apply (scalar_reads_as (VString noticeType) I).
  - apply (reads_as_mono 1); [lia|]. apply (scalar_reads_as (VBool showUser) I).
  - apply (reads_as_mono 1); [lia|]. apply (scalar_reads_as (VString timestamp) I).
Qed.

Lemma envelope_text_length timestamp noticeType showUser noticeData :
  (length noticeData + 2 + 4 + 1
   <= S (length (envelope_text timestamp noticeType showUser noticeData)))%nat.
Proof.
  unfold envelope_text, envelope_entries.
  cbn [map fst members_text app]. unfold encode_string.
  pose proof (flat_text_length noticeData).
  cbn [length]. rewrite !length_app. cbn [length]. rewrite !length_app.
  cbn [length]. lia.
Qed.

(** The envelope is read back, one newline after it or none. *)
Lemma parse_envelope timestamp noticeType showUser noticeData rest :
  Forall (fun kv => scalar (snd kv)) noticeData -> skip_ws rest = [] ->
  parse (envelope_text timestamp noticeType showUser noticeData ++ rest)
  = Some (envelope_tree timestamp noticeType showUser noticeData).
Proof.
  intros H Hr.
  apply (parse_text (length noticeData + 2 + 4 + 1)); [|..|exact Hr].
  - apply envelope_reads_as. exact H.
  - apply envelope_text_length.
Qed.

End MarshalFacts.

(** * The envelope codec on what the emitter writes *)

Module CodecFacts.
Import UTF8 UTF8Facts JSON StringFacts NumberFacts ParseFacts Notice
       MarshalFacts.

Lemma key_data :
  find_field noticeObject_fields (coerce (bs "data")) None = Some FData.
Proof. vm_compute. reflexivity. Qed.
Lemma key_noticeType :
  find_field noticeObject_fields (coerce (bs "noticeType")) None
  = Some FNoticeType.
Proof. vm_compute. reflexivity. Qed.
Lemma key_showUser :
  find_field noticeObject_fields (coerce (bs "showUser")) None = None.
Proof. vm_compute. reflexivity. Qed.
Lemma key_timestamp :
  find_field noticeObject_fields (coerce (bs "timestamp")) None
  = Some FTimestamp.
Proof. vm_compute. reflexivity. Qed.

(** [Unmarshal] of an envelope into a [noticeObject]: the kind, the bytes
    of the data object, the timestamp. *)
Lemma Unmarshal_envelope timestamp noticeType showUser noticeData rest :
  Forall (fun kv => scalar (snd kv)) noticeData -> skip_ws rest = [] ->
  Unmarshal_noticeObject
    (envelope_text timestamp noticeType showUser noticeData ++ rest)
  = Ok (mkNoticeObject (coerce noticeType) (flat_text noticeData)
                       (coerce timestamp)).
Proof.
  intros H Hr. unfold Unmarshal_noticeObject.
  rewrite (parse_envelope _ _ _ _ _ H Hr).
  unfold envelope_tree, envelope_entries.
  cbn [map fst snd decode_noticeObject].
  rewrite key_data. cbn [decode_noticeObject].
  rewrite key_noticeType. cbn [store_string decode_noticeObject].
  rewrite key_showUser. cbn [decode_noticeObject].
  rewrite key_timestamp. reflexivity.
Qed.



(** ** C2 *)





(** ** C4 *)












End CodecFacts.

(** * The bytes of a line *)

Module LineFacts.
Import UTF8 UTF8Facts JSON StringFacts NumberFacts ParseFacts Notice
       MarshalFacts CodecFacts Receiver ReceiverFacts.

Lemma printable_app s t : printable s -> printable t -> printable (s ++ t).
Proof. intros Hs Ht. apply Forall_app. split; assumption. Qed.

Lemma printable_no_newline s : printable s -> ~ In newline s.
Proof.
  intros H Hin. unfold printable in H. rewrite Forall_forall in H.
  specialize (H _ Hin). change (b2z newline) with 10 in H. lia.
Qed.

Lemma is_hex_printable h : is_hex (b2z h) = true -> 0x20 <= b2z h.
Proof.
  unfold is_hex, is_digit. intros H.
  repeat (apply orb_true_iff in H; destruct H as [H|H]); zb; lia.
Qed.

Lemma escape_byte_printable b :
  b2z b < 0x80 -> safe (b2z b) = false -> printable (escape_byte b).
Proof.
  intros Hb Hs.
  destruct (escape_byte_cases b Hb Hs)
    as [[E H]|[[E H]|[[E H]|(h1 & h2 & E & H1 & H2 & _)]]]; rewrite E.
  - repeat constructor; [discriminate|]. destruct H as [H|H]; rewrite H; lia.
  - repeat constructor; discriminate.
  - repeat constructor; discriminate.
  - repeat constructor; try discriminate; apply is_hex_printable; assumption.
Qed.

(** The string encoder writes no control byte. *)
Lemma string_loop_printable n : forall s, printable (string_loop n s).
Proof.
  induction n as [|n IH]; intros s; [constructor|].
  destruct s as [|b t]; [constructor|].
  destruct (Z.lt_ge_cases (b2z b) 0x80) as [Hb|Hb].
  - rewrite string_loop_ascii by exact Hb. apply printable_app; [|apply IH].
    destruct (safe (b2z b)) eqn:Hs.
    + unfold safe in Hs. zb. repeat constructor. assumption.
    + apply escape_byte_printable; assumption.
  - destruct (DecodeRune (b :: t)) as [r size] eqn:E.
    destruct (decoded_inv_high b t r size Hb E) as [[-> ->]|Hs].
    + rewrite string_loop_invalid by assumption.
      change (backslash :: bs "ufffd" ++ string_loop n t)
        with ((backslash :: bs "ufffd") ++ string_loop n t).
      apply printable_app; [|apply IH]. repeat constructor; discriminate.
    + rewrite (string_loop_rune n b t r size Hb E Hs).
      apply printable_app; [|apply IH].
      destruct ((r =? 0x2028) || (r =? 0x2029)) eqn:L.
      * apply orb_true_iff in L. destruct L as [L|L]; apply Z.eqb_eq in L;
          subst r; repeat constructor; discriminate.
      * destruct (DecodeRune_prefix _ _ _ [] E Hs) as (_ & _ & F & _).
        eapply Forall_impl; [|exact F]. simpl. intros a Ha. lia.
Qed.

Lemma encode_string_printable s : printable (encode_string s).
Proof.
  unfold encode_string. constructor; [discriminate|].
  apply printable_app; [apply string_loop_printable|].
  repeat constructor. discriminate.
Qed.

Lemma itoa_printable i : printable (itoa i).
Proof.
  destruct (itoa_shape i) as (d & ds & E & F & _). rewrite E.
  apply printable_app.
  - destruct (i <? 0); repeat constructor. discriminate.
  - eapply Forall_impl; [|exact F]. simpl. intros a Ha.
    unfold is_digit in Ha. zb. lia.
Qed.

Lemma encode_members_printable l : forall first body,
  Forall (fun e => forall enc, snd e = Ok enc -> printable enc) l ->
  encode_members first l = Ok body -> printable body.
Proof.
  induction l as [|[k rv] l IH]; intros first body Hl E.
  - inversion E. constructor.
  - inversion Hl as [|? ? Hx Hl']; subst. cbn [encode_members] in E.
    destruct rv as [enc|e]; [|discriminate E].
    destruct (encode_members false l) as [rest|e] eqn:R; [|discriminate E].
    assert (B : body = (if first then [] else [","%byte])
                         ++ encode_string k ++ [":"%byte] ++ enc ++ rest)
      by congruence.
    rewrite B.
    apply printable_app; [|apply printable_app; [|apply printable_app;
      [|apply printable_app]]].
    + destruct first; repeat constructor. discriminate.
    + apply encode_string_printable.
    + repeat constructor. discriminate.
    + apply Hx. reflexivity.
    + apply (IH false); [exact Hl'|exact R].
Qed.

(** Induction on a value through the members of its maps. *)
Lemma value_rect_members (P : value -> Prop) :
  (forall s, P (VString s)) -> (forall i, P (VInt i)) ->
  (forall b, P (VBool b)) ->
  (forall m, Forall (fun kv => P (snd kv)) m -> P (VMap m)) ->
  (forall msg, P (VUnsupported msg)) ->
  forall v, P v.
Proof.
  intros Hs Hi Hb Hm Hu.
  fix rec 1. intros [s|i|b|m|msg]; [apply Hs|apply Hi|apply Hb| |apply Hu].
  apply Hm. induction m as [|[k x] m IH]; constructor; [apply rec|exact IH].
Qed.

(** What [json.Marshal] returns holds no control byte: a newline in a
    string is written as an escape. *)
Lemma Marshal_printable v : forall enc, Marshal v = Ok enc -> printable enc.
Proof.
  induction v as [s|i|b|m IH|msg] using value_rect_members; intros enc E.
  - inversion E. apply encode_string_printable.
  - inversion E. apply itoa_printable.
  - inversion E. destruct b; repeat constructor; discriminate.
  - rewrite Marshal_VMap in E.
    destruct (encode_members true _) as [body|e] eqn:B; [|discriminate E].
    inversion E; subst. constructor; [discriminate|].
    apply printable_app; [|repeat constructor; discriminate].
    eapply encode_members_printable; [|exact B].
    apply sort_keys_Forall. apply Forall_map.
    eapply Forall_impl; [|exact IH]. intros [k x] Hx. exact Hx.
  - discriminate E.
Qed.

(** The line of an emission whose serialization succeeds: no newline but
    the one that ends it, whatever the kind and the fields hold; a
    receiver fed with the line hands its callback that one record. *)
Lemma outputNotice_line ContextError timestamp noticeType showUser args enc l :
  Marshal (VMap (notice_obj timestamp noticeType showUser args)) = Ok enc ->
  written (outputNotice ContextError timestamp l noticeType showUser args)
  = written l ++ enc ++ [newline]
  /\ ~ In newline enc
  /\ calls (Write NewNoticeReceiver (enc ++ [newline])) = [enc].
Proof.
  intros E. pose proof (Marshal_printable _ _ E) as P.
  pose proof (printable_no_newline _ P) as N.
  unfold outputNotice, notice_output. rewrite E. split; [|split].
  - unfold Print. cbn [written]. f_equal.
    rewrite Marshal_VMap in E.
    destruct (encode_members true _) as [body|e]; [|discriminate E].
    inversion E; subst.
    replace (ends_in_newline _) with false; [reflexivity|].
    unfold ends_in_newline.
    change ("{"%byte :: body ++ ["}"%byte])
      with (("{"%byte :: body) ++ ["}"%byte]).
    rewrite rev_app_distr. reflexivity.
  - exact N.
  - rewrite (Write_delimiter NewNoticeReceiver _ enc []); [reflexivity| |exact N].
    reflexivity.
Qed.



(** C5, at an emission whose serialization fails with an error text that
    holds a double quote: the fallback line is not valid JSON, and it
    decodes into no notice. *)
Theorem outputNotice_fallback_not_valid :
  let args := [VString (bs "message");
               VUnsupported (bs "json: error calling MarshalJSON: bad "
                               ++ [dquote] ++ bs "x" ++ [dquote])] in
  let line := written (outputNotice ContextError_example timestamp_example
                         (mkLogger []) (bs "Info") false args) in
  line = bs "{" ++ [dquote] ++ bs "Alert" ++ [dquote] ++ bs ":{" ++ [dquote]
            ++ bs "message" ++ [dquote] ++ bs ":" ++ [dquote]
            ++ bs "psiphon.outputNotice#80: json: error calling MarshalJSON: bad "
            ++ [dquote] ++ bs "x" ++ [dquote] ++ [dquote] ++ bs "}}"
            ++ [newline]
  /\ parse line = None
  /\ Unmarshal_noticeObject line = Err SyntaxError.
Proof.
  repeat split; vm_compute; reflexivity.
Qed.

(** C6, at an emission whose serialization fails with an error text that
    holds a newline: the fallback line holds that newline as it is, and a
    receiver finds two records in it. *)
Theorem outputNotice_fallback_newline :
  let args := [VString (bs "message");
               VUnsupported (bs "json: error calling MarshalJSON: bad"
                               ++ [newline] ++ bs "value")] in
  let output := notice_output ContextError_example timestamp_example
                  (bs "Info") false args in
  In newline output /\
  length (records (written (outputNotice ContextError_example
                              timestamp_example (mkLogger []) (bs "Info")
                              false args))) = 2%nat.
Proof.
  split; [|vm_compute; reflexivity].
  vm_compute. repeat (first [left; reflexivity|right]).
Qed.

End LineFacts.

(** * Concurrent callers: whole lines *)

Module ConcurrentFacts.
Import JSON Notice Concurrent.

Section System.

Variable ContextError : error -> bytes.
Variable program : nat -> option call.

Local Abbreviation step := (step ContextError program).
Local Abbreviation line := (line ContextError program).
Local Abbreviation lines_in := (lines_in ContextError program).
Local Abbreviation emits := (emits program).
Local Abbreviation invariant := (invariant ContextError program).

Lemma upd_same {A} (f : nat -> A) i x : upd f i x i = x.
Proof. unfold upd. rewrite Nat.eqb_refl. reflexivity. Qed.

Lemma upd_other {A} (f : nat -> A) i j x : j <> i -> upd f i x j = f j.
Proof.
  intros H. unfold upd. destruct (Nat.eqb_spec j i); [contradiction|reflexivity].
Qed.

Lemma lines_in_snoc w hist w' t :
  lines_in w (hist ++ [(w', t)])
  = lines_in w hist ++ (if Nat.eqb w' w then line t else []).
Proof.
  unfold Concurrent.lines_in. rewrite filter_app, map_app, concat_app.
  f_equal. cbn [filter fst]. destruct (Nat.eqb w' w); simpl.
  - apply app_nil_r.
  - reflexivity.
Qed.

Lemma invariant_init stderr : invariant (init stderr) [].
Proof.
  split; simpl; try (intros; discriminate).
  - intros t. split; discriminate.
  - constructor.
  - intros t. split; [intros []|intros [H _]; discriminate H].
  - intros t [H|H]; discriminate H.
  - intros w. reflexivity.
Qed.

(** The holder of the mutex, by where it stands. *)
Lemma holder_unique s hist t u :
  invariant s hist -> holds (at_pc s t) = true -> holds (at_pc s u) = true ->
  t = u.
Proof.
  intros I Ht Hu. apply (inv_mutex _ _ _ _ I) in Ht, Hu. congruence.
Qed.

Lemma partial_not_holder s t p w :
  mutex s <> Some t -> mutex s <> None ->
  partial (mkState (mutex s) (noticeLogger s) (writers s) (upd (at_pc s) t p))
          w
  = partial s w.
Proof.
  intros Ht Hn. unfold partial. cbn [Concurrent.mutex Concurrent.noticeLogger
    Concurrent.at_pc]. destruct (mutex s) as [h|]; [|contradiction].
  rewrite upd_other by congruence. reflexivity.
Qed.

Lemma step_invariant s t s' hist :
  invariant s hist -> step s t s' ->
  exists hist', invariant s' hist'.
Proof.
  intros I St. pose proof (inv_mutex _ _ _ _ I) as IM.
  destruct St as [ts k su args Hp Hpc|output Hpc Hm|done b rest Hpc|done Hpc
                 |w Hp Hpc Hm|w Hp Hpc|Hpc].
  - (* json.Marshal *)
    exists hist.
    assert (Hno : mutex s <> Some t).
    { intros Q. apply IM in Q. rewrite Hpc in Q. discriminate Q. }
    split; cbn [Concurrent.mutex Concurrent.noticeLogger Concurrent.writers
                Concurrent.at_pc].
    + intros u. destruct (Nat.eq_dec u t) as [->|N].
      * rewrite upd_same. simpl. split; [discriminate|contradiction].
      * rewrite upd_other by exact N. apply IM.
    + apply (inv_nodup _ _ _ _ I).
    + intros u. rewrite (inv_done _ _ _ _ I u).
      destruct (Nat.eq_dec u t) as [->|N].
      * rewrite upd_same, Hpc. split; intros [Q _]; discriminate Q.
      * rewrite upd_other by exact N. reflexivity.
    + intros u out. destruct (Nat.eq_dec u t) as [->|N].
      * rewrite upd_same. intros Q. inversion Q; subst.
        unfold Concurrent.line. rewrite Hp. split; [reflexivity|].
        exists ts, k, su, args. exact Hp.
      * rewrite upd_other by exact N. apply (inv_serialized _ _ _ _ I).
    + intros u d r. destruct (Nat.eq_dec u t) as [->|N].
      * rewrite upd_same. discriminate.
      * rewrite upd_other by exact N. apply (inv_printing _ _ _ _ I).
    + intros u. destruct (Nat.eq_dec u t) as [->|N].
      * rewrite upd_same. intros [Q|Q]; discriminate Q.
      * rewrite upd_other by exact N. apply (inv_setting _ _ _ _ I).
    + intros w. rewrite (inv_writers _ _ _ _ I w). f_equal.
      unfold partial. cbn [Concurrent.mutex Concurrent.noticeLogger
                           Concurrent.at_pc].
      destruct (mutex s) as [h|]; [|reflexivity].
      rewrite upd_other by congruence. reflexivity.
  - (* Lock, in outputNotice *)
    exists hist.
    destruct (inv_serialized _ _ _ _ I t output Hpc) as [Hl He].
    split; cbn [Concurrent.mutex Concurrent.noticeLogger Concurrent.writers
                Concurrent.at_pc].
    + intros u. destruct (Nat.eq_dec u t) as [->|N].
      * rewrite upd_same. simpl. split; reflexivity.
      * rewrite upd_other by exact N. split.
        -- intros Q. apply IM in Q. congruence.
        -- intros Q. congruence.
    + apply (inv_nodup _ _ _ _ I).
    + intros u. rewrite (inv_done _ _ _ _ I u).
      destruct (Nat.eq_dec u t) as [->|N].
      * rewrite upd_same, Hpc. split; intros [Q _]; discriminate Q.
      * rewrite upd_other by exact N. reflexivity.
    + intros u out. destruct (Nat.eq_dec u t) as [->|N].
      * rewrite upd_same. discriminate.
      * rewrite upd_other by exact N. apply (inv_serialized _ _ _ _ I).
    + intros u d r. destruct (Nat.eq_dec u t) as [->|N].
      * rewrite upd_same. intros Q. inversion Q; subst.
        split; [exact Hl|exact He].
      * rewrite upd_other by exact N. apply (inv_printing _ _ _ _ I).
    + intros u. destruct (Nat.eq_dec u t) as [->|N].
      * rewrite upd_same. intros [Q|Q]; discriminate Q.
      * rewrite upd_other by exact N. apply (inv_setting _ _ _ _ I).
    + intros w. rewrite (inv_writers _ _ _ _ I w). f_equal.
      unfold partial. cbn [Concurrent.mutex Concurrent.noticeLogger
                           Concurrent.at_pc].
      rewrite Hm, upd_same. destruct (Nat.eqb (noticeLogger s) w); reflexivity.
  - (* one byte written *)
    exists hist.
    assert (Hh : mutex s = Some t) by (apply IM; rewrite Hpc; reflexivity).
    destruct (inv_printing _ _ _ _ I t _ _ Hpc) as [Hl He].
    split; cbn [Concurrent.mutex Concurrent.noticeLogger Concurrent.writers
                Concurrent.at_pc].
    + intros u. destruct (Nat.eq_dec u t) as [->|N].
      * rewrite upd_same. simpl. split; [intros _; exact Hh|reflexivity].
      * rewrite upd_other by exact N. apply IM.
    + apply (inv_nodup _ _ _ _ I).
    + intros u. rewrite (inv_done _ _ _ _ I u).
      destruct (Nat.eq_dec u t) as [->|N].
      * rewrite upd_same, Hpc. split; intros [Q _]; discriminate Q.
      * rewrite upd_other by exact N. reflexivity.
    + intros u out. destruct (Nat.eq_dec u t) as [->|N].
      * rewrite upd_same. discriminate.
      * rewrite upd_other by exact N. apply (inv_serialized _ _ _ _ I).
    + intros u d r. destruct (Nat.eq_dec u t) as [->|N].
      * rewrite upd_same. intros Q. inversion Q; subst.
        split; [rewrite <- app_assoc; exact Hl|exact He].
      * rewrite upd_other by exact N. apply (inv_printing _ _ _ _ I).
    + intros u. destruct (Nat.eq_dec u t) as [->|N].
      * rewrite upd_same. intros [Q|Q]; discriminate Q.
      * rewrite upd_other by exact N. apply (inv_setting _ _ _ _ I).
    + intros w. unfold partial.
      cbn [Concurrent.mutex Concurrent.noticeLogger Concurrent.at_pc].
      rewrite Hh, upd_same.
      pose proof (inv_writers _ _ _ _ I w) as W. unfold partial in W.
      rewrite Hh, Hpc in W.
      destruct (Nat.eq_dec w (noticeLogger s)) as [->|N].
      * rewrite upd_same. rewrite Nat.eqb_refl in *. rewrite W.
        rewrite app_assoc. reflexivity.
      * rewrite upd_other by exact N.
        destruct (Nat.eqb_spec (noticeLogger s) w); [congruence|exact W].
  - (* Unlock, in outputNotice *)
    exists (hist ++ [(noticeLogger s, t)]).
    assert (Hh : mutex s = Some t) by (apply IM; rewrite Hpc; reflexivity).
    destruct (inv_printing _ _ _ _ I t _ _ Hpc) as [Hl He].
    rewrite app_nil_r in Hl.
    assert (Hnew : ~ In t (map snd hist)).
    { intros Q. apply (inv_done _ _ _ _ I) in Q. destruct Q as [Q _].
      rewrite Hpc in Q. discriminate Q. }
    split; cbn [Concurrent.mutex Concurrent.noticeLogger Concurrent.writers
                Concurrent.at_pc].
    + intros u. destruct (Nat.eq_dec u t) as [->|N].
      * rewrite upd_same. simpl. split; discriminate.
      * rewrite upd_other by exact N. split; [|discriminate].
        intros Q. apply IM in Q. congruence.
    + rewrite map_app. cbn [map snd]. apply NoDup_app.
      * apply (inv_nodup _ _ _ _ I).
      * constructor; [intros []|constructor].
      * intros x Hx [Q|[]]. subst. exact (Hnew Hx).
    + intros u. rewrite map_app, in_app_iff. cbn [map snd In].
      rewrite (inv_done _ _ _ _ I u).
      destruct (Nat.eq_dec u t) as [->|N].
      * rewrite upd_same. split; [intros _; split; [reflexivity|exact He]|].
        intros _. right. left. reflexivity.
      * rewrite upd_other by exact N. split; [intros [Q|[Q|[]]]|intros Q].
        -- exact Q.
        -- congruence.
        -- left. exact Q.
    + intros u out. destruct (Nat.eq_dec u t) as [->|N].
      * rewrite upd_same. discriminate.
      * rewrite upd_other by exact N. apply (inv_serialized _ _ _ _ I).
    + intros u d r. destruct (Nat.eq_dec u t) as [->|N].
      * rewrite upd_same. discriminate.
      * rewrite upd_other by exact N. apply (inv_printing _ _ _ _ I).
    + intros u. destruct (Nat.eq_dec u t) as [->|N].
      * rewrite upd_same. intros [Q|Q]; discriminate Q.
      * rewrite upd_other by exact N. apply (inv_setting _ _ _ _ I).
    + intros w. rewrite lines_in_snoc. unfold partial at 1.
      cbn [Concurrent.mutex]. rewrite app_nil_r.
      rewrite (inv_writers _ _ _ _ I w). f_equal.
      unfold partial. rewrite Hh, Hpc, Hl. reflexivity.
  - (* Lock, in SetNoticeOutput *)
    exists hist.
    assert (Hne : ~ emits t).
    { intros (a & b & c & d & Q). congruence. }
    split; cbn [Concurrent.mutex Concurrent.noticeLogger Concurrent.writers
                Concurrent.at_pc].
    + intros u. destruct (Nat.eq_dec u t) as [->|N].
      * rewrite upd_same. simpl. split; reflexivity.
      * rewrite upd_other by exact N. split.
        -- intros Q. apply IM in Q. congruence.
        -- intros Q. congruence.
    + apply (inv_nodup _ _ _ _ I).
    + intros u. rewrite (inv_done _ _ _ _ I u).
      destruct (Nat.eq_dec u t) as [->|N].
      * rewrite upd_same, Hpc. split; intros [Q _]; discriminate Q.
      * rewrite upd_other by exact N. reflexivity.
    + intros u out. destruct (Nat.eq_dec u t) as [->|N].
      * rewrite upd_same. discriminate.
      * rewrite upd_other by exact N. apply (inv_serialized _ _ _ _ I).
    + intros u d r. destruct (Nat.eq_dec u t) as [->|N].
      * rewrite upd_same. discriminate.
      * rewrite upd_other by exact N. apply (inv_printing _ _ _ _ I).
    + intros u. destruct (Nat.eq_dec u t) as [->|N].
      * intros _. exact Hne.
      * rewrite upd_other by exact N. apply (inv_setting _ _ _ _ I).
    + intros v. rewrite (inv_writers _ _ _ _ I v). f_equal.
      unfold partial. cbn [Concurrent.mutex Concurrent.noticeLogger
                           Concurrent.at_pc].
      rewrite Hm, upd_same. reflexivity.
  - (* the assignment to noticeLogger *)
    exists hist.
    assert (Hh : mutex s = Some t) by (apply IM; rewrite Hpc; reflexivity).
    assert (Hne : ~ emits t).
    { intros (a & b & c & d & Q). congruence. }
    split; cbn [Concurrent.mutex Concurrent.noticeLogger Concurrent.writers
                Concurrent.at_pc].
    + intros u. destruct (Nat.eq_dec u t) as [->|N].
      * rewrite upd_same. simpl. split; [intros _; exact Hh|reflexivity].
      * rewrite upd_other by exact N. apply IM.
    + apply (inv_nodup _ _ _ _ I).
    + intros u. rewrite (inv_done _ _ _ _ I u).
      destruct (Nat.eq_dec u t) as [->|N].
      * rewrite upd_same, Hpc. split; intros [Q _]; discriminate Q.
      * rewrite upd_other by exact N. reflexivity.
    + intros u out. destruct (Nat.eq_dec u t) as [->|N].
      * rewrite upd_same. discriminate.
      * rewrite upd_other by exact N. apply (inv_serialized _ _ _ _ I).
    + intros u d r. destruct (Nat.eq_dec u t) as [->|N].
      * rewrite upd_same. discriminate.
      * rewrite upd_other by exact N. apply (inv_printing _ _ _ _ I).
    + intros u. destruct (Nat.eq_dec u t) as [->|N].
      * intros _. exact Hne.
      * rewrite upd_other by exact N. apply (inv_setting _ _ _ _ I).
    + intros v. rewrite (inv_writers _ _ _ _ I v). f_equal.
      unfold partial. cbn [Concurrent.mutex Concurrent.noticeLogger
                           Concurrent.at_pc].
      rewrite Hh, upd_same, Hpc. reflexivity.
  - (* Unlock, in SetNoticeOutput *)
    exists hist.
    assert (Hh : mutex s = Some t) by (apply IM; rewrite Hpc; reflexivity).
    assert (Hne : ~ emits t).
    { apply (inv_setting _ _ _ _ I). right. exact Hpc. }
    split; cbn [Concurrent.mutex Concurrent.noticeLogger Concurrent.writers
                Concurrent.at_pc].
    + intros u. destruct (Nat.eq_dec u t) as [->|N].
      * rewrite upd_same. simpl. split; discriminate.
      * rewrite upd_other by exact N. split; [|discriminate].
        intros Q. apply IM in Q. congruence.
    + apply (inv_nodup _ _ _ _ I).
    + intros u. rewrite (inv_done _ _ _ _ I u).
      destruct (Nat.eq_dec u t) as [->|N].
      * rewrite upd_same, Hpc. split; [intros [Q _]; discriminate Q|].
        intros [_ Q]. contradiction.
      * rewrite upd_other by exact N. reflexivity.
    + intros u out. destruct (Nat.eq_dec u t) as [->|N].
      * rewrite upd_same. discriminate.
      * rewrite upd_other by exact N. apply (inv_serialized _ _ _ _ I).
    + intros u d r. destruct (Nat.eq_dec u t) as [->|N].
      * rewrite upd_same. discriminate.
      * rewrite upd_other by exact N. apply (inv_printing _ _ _ _ I).
    + intros u. destruct (Nat.eq_dec u t) as [->|N].
      * rewrite upd_same. intros [Q|Q]; discriminate Q.
      * rewrite upd_other by exact N. apply (inv_setting _ _ _ _ I).
    + intros v. rewrite (inv_writers _ _ _ _ I v). f_equal.
      unfold partial. cbn [Concurrent.mutex]. rewrite Hh, Hpc. reflexivity.
Qed.

Lemma reachable_invariant stderr s :
  reachable ContextError program stderr s -> exists hist, invariant s hist.
Proof.
  induction 1 as [|s t s' _ [hist I] St].
  - exists []. apply invariant_init.
  - exact (step_invariant s t s' hist I St).
Qed.


End System.

Lemma second_printing_reachable :
  reachable ContextError_example two_emitters 0 second_printing.
Proof.
  apply (reach_step _ _ _ second_serialized 1%nat).
  - apply (reach_step _ _ _ (init 0) 1%nat); [apply reach_init|].
    apply (step_marshal ContextError_example two_emitters (init 0) 1
             timestamp_example (bs "Tunnels") false
             [VString (bs "count"); VInt 1]); reflexivity.
  - apply (step_lock ContextError_example two_emitters second_serialized 1
             (notice_output ContextError_example timestamp_example
                (bs "Tunnels") false [VString (bs "count"); VInt 1]));
      reflexivity.
Defined.



End ConcurrentFacts.

(** * More on the frame receiver *)

Module ReceiverMore.
Import Receiver ReceiverFacts.

Lemma first_delimiter s :
  In newline s ->
  exists pre post, s = pre ++ newline :: post /\ ~ In newline pre.
Proof.
  intros Hin.
  assert (N : Index s [newline] <> -1).
  { intros K. apply Index_newline_none in K. exact (K Hin). }
  destruct (Index_newline_found s N) as (pre & post & H1 & H2 & _).
  exists pre, post. split; assumption.
Qed.

(** One call of [Write], by whether the buffer with the chunk holds a
    delimiter. *)
Lemma Write_cases receiver p :
  (~ In newline (buffer receiver ++ p) /\
   Write receiver p
   = mkWriteResult (mkReceiver (buffer receiver ++ p)) [] (len p) None)
  \/
  (exists pre post,
     buffer receiver ++ p = pre ++ newline :: post /\ ~ In newline pre /\
     Write receiver p = mkWriteResult (mkReceiver post) [pre] (len p) None).
Proof.
  destruct (in_dec Byte.byte_eq_dec newline (buffer receiver ++ p)) as [Hin|Hno].
  - right. destruct (first_delimiter _ Hin) as (pre & post & E & Hpre).
    exists pre, post. split; [exact E|]. split; [exact Hpre|].
    apply Write_delimiter; assumption.
  - left. split; [exact Hno|]. apply Write_no_delimiter. exact Hno.
Qed.

(** X1: No byte is lost and none is made up: what was in the buffer and what
    was written is, in order, the records handed to the callback, each with
    its delimiter, and then what is in the buffer. *)
Theorem WriteAll_conserves chunks : forall receiver,
  buffer receiver ++ concat chunks
  = concat (map (fun r => r ++ [newline]) (snd (WriteAll receiver chunks)))
      ++ buffer (fst (WriteAll receiver chunks)).
Proof.
  induction chunks as [|p chunks IH]; intros receiver.
  - simpl. apply app_nil_r.
  - cbn [WriteAll concat].
    destruct (Write_cases receiver p) as [[_ W]|(pre & post & E & _ & W)];
      rewrite W; cbn [after calls].
    + specialize (IH (mkReceiver (buffer receiver ++ p))). cbn [buffer] in IH.
      destruct (WriteAll _ chunks) as [final later]; cbn [fst snd] in *.
      rewrite app_assoc. exact IH.
    + specialize (IH (mkReceiver post)). cbn [buffer] in IH.
      destruct (WriteAll _ chunks) as [final later]; cbn [fst snd] in *.
      cbn [app map concat]. rewrite app_assoc, E, <- !app_assoc.
      cbn [app]. rewrite <- IH. reflexivity.
Qed.

(** X2: A record handed to the callback never holds the delimiter. *)
Theorem WriteAll_records_hold_no_delimiter chunks : forall receiver,
  Forall (fun r => ~ In newline r) (snd (WriteAll receiver chunks)).
Proof.
  induction chunks as [|p chunks IH]; intros receiver; [constructor|].
  cbn [WriteAll].
  destruct (Write_cases receiver p) as [[_ W]|(pre & post & _ & Hpre & W)];
    rewrite W; cbn [after calls].
  - specialize (IH (mkReceiver (buffer receiver ++ p))).
    destruct (WriteAll _ chunks) as [final later]; exact IH.
  - specialize (IH (mkReceiver post)).
    destruct (WriteAll _ chunks) as [final later]; cbn [fst snd] in *.
    constructor; assumption.
Qed.

(** X4: Chunks that are each one whole line, as a [log.Logger] writes them:
    every call hands its line to the callback and leaves the buffer empty.
    *)
Theorem WriteAll_whole_lines lines :
  Forall (fun l => ~ In newline l) lines ->
  WriteAll NewNoticeReceiver (map (fun l => l ++ [newline]) lines)
  = (NewNoticeReceiver, lines).
Proof.
  unfold NewNoticeReceiver. induction 1 as [|l lines Hl _ IH]; [reflexivity|].
  cbn [map WriteAll].
  rewrite (Write_delimiter (mkReceiver []) (l ++ [newline]) l [] eq_refl Hl).
  cbn [after calls]. rewrite IH. reflexivity.
Qed.

Lemma WriteAll_whole_lines_witness :
  WriteAll NewNoticeReceiver
    (map (fun l => l ++ [newline]) [bs "a"; []; bs "bc"])
  = (NewNoticeReceiver, [bs "a"; []; bs "bc"]).
Proof.
  apply WriteAll_whole_lines.
  repeat constructor; simpl; intuition discriminate.
Defined.

(** X5: A record that comes in pieces over several calls is handed over
    whole, once, by the call that brings its delimiter. *)
Theorem WriteAll_split_record pieces : forall held last,
  ~ In newline held -> Forall (fun p => ~ In newline p) pieces ->
  ~ In newline last ->
  WriteAll (mkReceiver held) (pieces ++ [last ++ [newline]])
  = (mkReceiver [], [held ++ concat pieces ++ last]).
Proof.
  induction pieces as [|p pieces IH]; intros held last Hh Hp Hl.
  - cbn [app WriteAll concat].
    rewrite (Write_delimiter (mkReceiver held) (last ++ [newline])
               (held ++ last) []).
    + reflexivity.
    + cbn [buffer]. rewrite app_assoc. reflexivity.
    + intros K. apply in_app_or in K. tauto.
  - inversion Hp as [|? ? Hp1 Hp2]; subst. cbn [app WriteAll concat].
    assert (Hno : ~ In newline (held ++ p))
      by (intros K; apply in_app_or in K; tauto).
    rewrite (Write_no_delimiter (mkReceiver held) p Hno). cbn [after calls buffer].
    rewrite (IH (held ++ p) last Hno Hp2 Hl). cbn [app].
    rewrite <- !app_assoc. reflexivity.
Qed.

Lemma WriteAll_split_record_witness :
  WriteAll (mkReceiver (bs "A")) ([bs "bc"; []; bs "d"] ++ [bs "e" ++ [newline]])
  = (mkReceiver [], [bs "A" ++ concat [bs "bc"; []; bs "d"] ++ bs "e"]).
Proof.
  apply WriteAll_split_record.
  - simpl. intuition discriminate.
  - repeat constructor; simpl; intuition discriminate.
  - simpl. intuition discriminate.
Defined.

(** X6: Records a call left in the buffer come out one per later call, an
    empty chunk included: [n] empty writes hand over the first [n] records
    of the buffer. *)
Theorem WriteAll_empty_chunks_drain n : forall receiver,
  snd (WriteAll receiver (repeat [] n))
  = firstn n (records (buffer receiver)).
Proof.
  induction n as [|n IH]; intros receiver; [reflexivity|].
  cbn [repeat WriteAll].
  destruct (Write_cases receiver []) as [[Hno W]|(pre & post & E & Hpre & W)];
    rewrite W; cbn [after calls]; rewrite app_nil_r in *.
  - specialize (IH (mkReceiver (buffer receiver))). cbn [buffer] in IH.
    destruct (WriteAll _ (repeat [] n)) as [final later]; cbn [fst snd] in *.
    rewrite IH. unfold records. rewrite !records_from_none by assumption.
    destruct n; reflexivity.
  - specialize (IH (mkReceiver post)). cbn [buffer] in IH.
    destruct (WriteAll _ (repeat [] n)) as [final later]; cbn [fst snd] in *.
    rewrite E. unfold records at 1. rewrite records_from_first by exact Hpre.
    cbn [rev app firstn]. rewrite IH. reflexivity.
Qed.

(** X3: The records handed to the callback, and after them the records that
    wait in the buffer, are the records of the stream, in order; and the
    callback has run at most once for each call of [Write]. *)
Theorem WriteAll_handed_and_waiting chunks : forall receiver,
  snd (WriteAll receiver chunks)
    ++ records (buffer (fst (WriteAll receiver chunks)))
  = records (buffer receiver ++ concat chunks)
  /\ (length (snd (WriteAll receiver chunks)) <= length chunks)%nat.
Proof.
  induction chunks as [|p chunks IH]; intros receiver.
  - cbn [WriteAll concat fst snd app length]. rewrite app_nil_r.
    split; [reflexivity|lia].
  - cbn [WriteAll concat length].
    destruct (Write_cases receiver p) as [[_ W]|(pre & post & E & Hpre & W)];
      rewrite W; cbn [after calls].
    + destruct (IH (mkReceiver (buffer receiver ++ p))) as [I1 I2].
      cbn [buffer] in I1.
      destruct (WriteAll _ chunks) as [final later]; cbn [fst snd app] in *.
      rewrite app_assoc. split; [exact I1|lia].
    + destruct (IH (mkReceiver post)) as [I1 I2]. cbn [buffer] in I1.
      destruct (WriteAll _ chunks) as [final later]; cbn [fst snd app] in *.
      rewrite app_assoc, E, <- app_assoc. cbn [app].
      unfold records at 2. rewrite records_from_first by exact Hpre.
      cbn [rev app length]. rewrite I1. split; [reflexivity|lia].
Qed.

End ReceiverMore.

(** * The arguments of an emission *)

Module ArgsFacts.
Import UTF8 JSON Notice MarshalFacts.

(** Induction two arguments at a time, as the loop of [outputNotice]
    goes. *)
Lemma pairs_ind (P : list value -> Prop) :
  P [] -> (forall v, P [v]) ->
  (forall name v rest, P rest -> P (name :: v :: rest)) ->
  forall args, P args.
Proof.
  intros H0 H1 H2.
  assert (H : forall n args, (length args <= n)%nat -> P args).
  { induction n as [|n IH]; intros args Hn.
    - destruct args; [exact H0|simpl in Hn; lia].
    - destruct args as [|a [|v rest]]; [exact H0|apply H1|].
      apply H2. apply IH. simpl in Hn. lia. }
  intros args. apply (H (length args)). lia.
Qed.

Lemma collect_args_app pre : forall rest m,
  Nat.even (length pre) = true ->
  collect_args (pre ++ rest) m = collect_args rest (collect_args pre m).
Proof.
  induction pre as [|v|name v pre IH] using pairs_ind; intros rest m E.
  - reflexivity.
  - discriminate E.
  - cbn [app collect_args]. apply IH. exact E.
Qed.

(** ** The map [noticeData] *)

Lemma bytes_eqb_refl s : bytes_eqb s s = true.
Proof. apply bytes_eqb_eq. reflexivity. Qed.

Lemma bytes_eqb_neq s t : s <> t -> bytes_eqb s t = false.
Proof.
  intros H. destruct (bytes_eqb s t) eqn:E; [|reflexivity].
  apply bytes_eqb_eq in E. contradiction.
Qed.

Lemma assoc_map_set k k' v m :
  assoc k (map_set k' v m) = if bytes_eqb k' k then Some v else assoc k m.
Proof.
  induction m as [|[k0 v0] m IH]; cbn [map_set assoc]; [reflexivity|].
  destruct (bytes_eqb k0 k') eqn:E0.
  - apply bytes_eqb_eq in E0. cbn [assoc]. rewrite E0.
    destruct (bytes_eqb k' k); reflexivity.
  - cbn [assoc]. destruct (bytes_eqb k0 k) eqn:E1; [|exact IH].
    apply bytes_eqb_eq in E1. subst k0.
    rewrite (bytes_eqb_neq k' k); [reflexivity|].
    intros ->. rewrite bytes_eqb_refl in E0. discriminate E0.
Qed.

Lemma map_set_keys k v m k0 :
  In k0 (map fst (map_set k v m)) <-> k0 = k \/ In k0 (map fst m).
Proof.
  induction m as [|[k1 v1] m IH]; cbn [map_set map fst In].
  - intuition congruence.
  - destruct (bytes_eqb k1 k) eqn:E; cbn [map fst In].
    + apply bytes_eqb_eq in E. subst. intuition congruence.
    + rewrite IH. intuition congruence.
Qed.

Lemma map_set_NoDup k v m :
  NoDup (map fst m) -> NoDup (map fst (map_set k v m)).
Proof.
  induction m as [|[k1 v1] m IH]; cbn [map_set map fst]; intros H.
  - constructor; [intros []|constructor].
  - inversion H as [|? ? Hn Hm]; subst.
    destruct (bytes_eqb k1 k) eqn:E; cbn [map fst].
    + apply bytes_eqb_eq in E. subst. constructor; assumption.
    + constructor; [|apply IH; exact Hm].
      rewrite map_set_keys. intros [K|K]; [|contradiction].
      subst. rewrite bytes_eqb_refl in E. discriminate E.
Qed.

Lemma collect_args_NoDup args : forall m,
  NoDup (map fst m) -> NoDup (map fst (collect_args args m)).
Proof.
  induction args as [|v|name v rest IH] using pairs_ind; intros m H;
    try exact H.
  cbn [collect_args]. apply IH. destruct name; try exact H.
  apply map_set_NoDup. exact H.
Qed.

(** What a name is bound to after the loop depends on what it was bound
    to before, and on nothing else of the map. *)
Lemma collect_args_assoc args : forall m1 m2 k,
  assoc k m1 = assoc k m2 ->
  assoc k (collect_args args m1) = assoc k (collect_args args m2).
Proof.
  induction args as [|v|name v rest IH] using pairs_ind; intros m1 m2 k H;
    try exact H.
  cbn [collect_args]. apply IH. destruct name; try exact H.
  rewrite !assoc_map_set, H. reflexivity.
Qed.

(** ** The order of the keys *)

Lemma b2z_inj a b : b2z a = b2z b -> a = b.
Proof. intros H. rewrite <- (z2b_b2z a), <- (z2b_b2z b), H. reflexivity. Qed.

Lemma bytes_ltb_irrefl s : bytes_ltb s s = false.
Proof.
  induction s as [|a s IH]; [reflexivity|]. cbn [bytes_ltb].
  rewrite Z.ltb_irrefl, Z.eqb_refl, IH. reflexivity.
Qed.

Lemma bytes_ltb_trans s : forall t u,
  bytes_ltb s t = true -> bytes_ltb t u = true -> bytes_ltb s u = true.
Proof.
  induction s as [|a s IH]; intros [|b t] [|c u]; cbn [bytes_ltb];
    intros H1 H2; try discriminate; try reflexivity.
  apply orb_true_iff in H1. apply orb_true_iff in H2. apply orb_true_iff.
  rewrite !andb_true_iff, ?Z.ltb_lt, ?Z.eqb_eq in *.
  destruct H1 as [H1|[H1 H1']], H2 as [H2|[H2 H2']]; try (left; lia).
  right. split; [lia|]. eapply IH; eassumption.
Qed.

Lemma bytes_ltb_total s : forall t,
  bytes_ltb s t = false -> bytes_ltb t s = false -> s = t.
Proof.
  induction s as [|a s IH]; intros [|b t]; cbn [bytes_ltb]; intros H1 H2;
    try discriminate; [reflexivity|].
  apply orb_false_iff in H1. apply orb_false_iff in H2.
  destruct H1 as [H1 H1'], H2 as [H2 H2'].
  apply Z.ltb_ge in H1, H2.
  assert (E : b2z a = b2z b) by lia.
  rewrite E, Z.eqb_refl in H1', H2'. cbn [andb] in *.
  apply b2z_inj in E. subst. f_equal. apply IH; assumption.
Qed.

Lemma insert_key_rising {A} k (x : A) l :
  rising l -> ~ In k (map fst l) -> rising (insert_key k x l).
Proof.
  induction l as [|[k' y] l IH]; cbn [insert_key rising map fst In];
    intros R N.
  - split; constructor.
  - destruct R as [R1 R2]. destruct (bytes_ltb k k') eqn:E; cbn [rising].
    + split; [|split; assumption]. constructor; [exact E|].
      eapply Forall_impl; [|exact R1]. intros e He.
      eapply bytes_ltb_trans; eassumption.
    + split; [|apply IH; tauto].
      apply Forall_forall. intros e He. apply insert_key_In in He.
      destruct He as [->|He]; [|rewrite Forall_forall in R1; auto].
      cbn [fst]. destruct (bytes_ltb k' k) eqn:F; [reflexivity|].
      exfalso. apply N. left. apply bytes_ltb_total; assumption.
Qed.

Lemma sort_keys_keys {A} (l : list (bytes * A)) k :
  In k (map fst (sort_keys l)) <-> In k (map fst l).
Proof.
  rewrite !in_map_iff. split; intros (e & E & He); exists e;
    (split; [exact E|]); apply sort_keys_In; exact He.
Qed.

Lemma sort_keys_rising {A} (l : list (bytes * A)) :
  NoDup (map fst l) -> rising (sort_keys l).
Proof.
  induction l as [|[k x] l IH]; cbn [sort_keys map fst]; intros H;
    [exact I|].
  inversion H; subst. apply insert_key_rising; [auto|].
  rewrite sort_keys_keys. assumption.
Qed.

Lemma assoc_insert_key k k' v (l : gomap) :
  ~ In k' (map fst l) ->
  assoc k (insert_key k' v l) = if bytes_eqb k' k then Some v else assoc k l.
Proof.
  induction l as [|[k0 v0] l IH]; cbn [insert_key map fst In assoc];
    intros N; [reflexivity|].
  destruct (bytes_ltb k' k0); cbn [assoc]; [reflexivity|].
  destruct (bytes_eqb k0 k) eqn:E0.
  - apply bytes_eqb_eq in E0. subst k0.
    rewrite bytes_eqb_neq; [reflexivity|]. intros K. apply N. left.
    symmetry. exact K.
  - apply IH. tauto.
Qed.

Lemma assoc_sort_keys k (m : gomap) :
  NoDup (map fst m) -> assoc k (sort_keys m) = assoc k m.
Proof.
  induction m as [|[k0 v0] m IH]; cbn [sort_keys map fst]; intros H;
    [reflexivity|].
  inversion H; subst. rewrite assoc_insert_key.
  - cbn [assoc]. rewrite IH by assumption. reflexivity.
  - rewrite sort_keys_keys. assumption.
Qed.

Lemma assoc_above k (l : gomap) :
  Forall (fun e => bytes_ltb k (fst e) = true) l -> assoc k l = None.
Proof.
  induction 1 as [|[k0 v0] l H _ IH]; cbn [assoc]; [reflexivity|].
  cbn [fst] in H. rewrite bytes_eqb_neq; [exact IH|].
  intros ->. rewrite bytes_ltb_irrefl in H. discriminate H.
Qed.

Lemma assoc_In k v (l : gomap) : assoc k l = Some v -> In (k, v) l.
Proof.
  induction l as [|[k0 v0] l IH]; cbn [assoc]; [discriminate|].
  destruct (bytes_eqb k0 k) eqn:E.
  - apply bytes_eqb_eq in E. intros [= ->]. subst. left. reflexivity.
  - intros H. right. apply IH. exact H.
Qed.

(** Two maps in rising key order that bind every name alike are the same
    list. *)
Lemma rising_ext (l1 : gomap) : forall l2,
  rising l1 -> rising l2 -> (forall k, assoc k l1 = assoc k l2) -> l1 = l2.
Proof.
  induction l1 as [|[k1 v1] l1 IH]; intros [|[k2 v2] l2] R1 R2 H.
  - reflexivity.
  - specialize (H k2). cbn [assoc] in H. rewrite bytes_eqb_refl in H.
    discriminate H.
  - specialize (H k1). cbn [assoc] in H. rewrite bytes_eqb_refl in H.
    discriminate H.
  - destruct R1 as [A1 R1], R2 as [A2 R2].
    assert (K : k1 = k2).
    { apply bytes_ltb_total.
      - destruct (bytes_ltb k1 k2) eqn:L; [|reflexivity]. exfalso.
        pose proof (H k1) as H1. cbn [assoc] in H1.
        rewrite bytes_eqb_refl in H1.
        rewrite (bytes_eqb_neq k2 k1) in H1
          by (intros ->; rewrite bytes_ltb_irrefl in L; discriminate L).
        rewrite assoc_above in H1; [discriminate H1|].
        eapply Forall_impl; [|exact A2]. intros e He.
        eapply bytes_ltb_trans; eassumption.
      - destruct (bytes_ltb k2 k1) eqn:L; [|reflexivity]. exfalso.
        pose proof (H k2) as H2. cbn [assoc] in H2.
        rewrite bytes_eqb_refl in H2.
        rewrite (bytes_eqb_neq k1 k2) in H2
          by (intros ->; rewrite bytes_ltb_irrefl in L; discriminate L).
        rewrite assoc_above in H2; [discriminate H2|].
        eapply Forall_impl; [|exact A1]. intros e He.
        eapply bytes_ltb_trans; eassumption. }
    subst k2. pose proof (H k1) as H1. cbn [assoc] in H1.
    rewrite bytes_eqb_refl in H1. injection H1 as ->.
    f_equal. apply IH; [assumption..|]. intros k.
    destruct (bytes_eqb k1 k) eqn:E.
    + apply bytes_eqb_eq in E. subst k.
      rewrite !assoc_above by assumption. reflexivity.
    + specialize (H k). cbn [assoc] in H. rewrite E in H. exact H.
Qed.

Lemma sort_keys_ext (m1 m2 : gomap) :
  NoDup (map fst m1) -> NoDup (map fst m2) ->
  (forall k, assoc k m1 = assoc k m2) -> sort_keys m1 = sort_keys m2.
Proof.
  intros N1 N2 H. apply rising_ext; try (apply sort_keys_rising; assumption).
  intros k. rewrite !assoc_sort_keys by assumption. apply H.
Qed.

(** The line depends on the arguments only through what each name is
    bound to when the loop ends. *)
Lemma notice_output_fields ContextError timestamp noticeType showUser
  args1 args2 :
  (forall k, assoc k (collect_args args1 []) = assoc k (collect_args args2 [])) ->
  notice_output ContextError timestamp noticeType showUser args1
  = notice_output ContextError timestamp noticeType showUser args2.
Proof.
  intros H. unfold notice_output.
  rewrite !Marshal_VMap, !notice_obj_sorted, !Marshal_VMap.
  rewrite !(sort_keys_map Marshal).
  rewrite (sort_keys_ext (collect_args args1 []) (collect_args args2 []));
    [reflexivity| | |exact H];
    apply collect_args_NoDup; constructor.
Qed.

(** X11: A value left without a partner at the end of the arguments is
    dropped: the line is the one the arguments before it give. *)
Theorem outputNotice_unpaired_value ContextError timestamp l noticeType
  showUser args v :
  Nat.even (length args) = true ->
  outputNotice ContextError timestamp l noticeType showUser (args ++ [v])
  = outputNotice ContextError timestamp l noticeType showUser args.
Proof.
  intros E. unfold outputNotice, notice_output, notice_obj.
  rewrite (collect_args_app args [v] [] E).
  rewrite <- (app_nil_r args) at 2.
  rewrite (collect_args_app args [] [] E). reflexivity.
Qed.

Lemma outputNotice_unpaired_value_witness :
  outputNotice ContextError_example timestamp_example (mkLogger [])
    (bs "Info") false ([VString (bs "message"); VString (bs "up")] ++ [VInt 7])
  = outputNotice ContextError_example timestamp_example (mkLogger [])
      (bs "Info") false [VString (bs "message"); VString (bs "up")].
Proof.
  apply outputNotice_unpaired_value. reflexivity.
Defined.

(** X12: A name that is not a string is skipped with its value: the line is
    the one the other arguments give. *)
Theorem outputNotice_name_not_string ContextError timestamp l noticeType
  showUser pre name v post :
  Nat.even (length pre) = true -> (forall s, name <> VString s) ->
  outputNotice ContextError timestamp l noticeType showUser
    (pre ++ name :: v :: post)
  = outputNotice ContextError timestamp l noticeType showUser (pre ++ post).
Proof.
  intros E N. unfold outputNotice, notice_output, notice_obj.
  rewrite !(collect_args_app pre _ [] E). cbn [collect_args].
  destruct name as [s| | | |]; try reflexivity.
  exfalso. exact (N s eq_refl).
Qed.

Lemma outputNotice_name_not_string_witness :
  outputNotice ContextError_example timestamp_example (mkLogger [])
    (bs "Info") false
    ([VString (bs "message"); VString (bs "up")]
       ++ VInt 1 :: VString (bs "lost") :: [VString (bs "n"); VInt 2])
  = outputNotice ContextError_example timestamp_example (mkLogger [])
      (bs "Info") false
      ([VString (bs "message"); VString (bs "up")]
         ++ [VString (bs "n"); VInt 2]).
Proof.
  apply outputNotice_name_not_string; [reflexivity|].
  intros s K. discriminate K.
Defined.

(** X13: Two pairs with different names, one after the other, may change
    places: the line is the same, as the keys are sorted. *)
Theorem outputNotice_pair_order ContextError timestamp l noticeType showUser
  pre s1 v1 s2 v2 post :
  Nat.even (length pre) = true -> s1 <> s2 ->
  outputNotice ContextError timestamp l noticeType showUser
    (pre ++ VString s1 :: v1 :: VString s2 :: v2 :: post)
  = outputNotice ContextError timestamp l noticeType showUser
      (pre ++ VString s2 :: v2 :: VString s1 :: v1 :: post).
Proof.
  intros E N. unfold outputNotice. f_equal.
  apply notice_output_fields. intros k.
  rewrite !(collect_args_app pre _ [] E). cbn [collect_args].
  apply collect_args_assoc. rewrite !assoc_map_set.
  destruct (bytes_eqb s1 k) eqn:E1, (bytes_eqb s2 k) eqn:E2; try reflexivity.
  apply bytes_eqb_eq in E1, E2. congruence.
Qed.

Lemma outputNotice_pair_order_witness :
  outputNotice ContextError_example timestamp_example (mkLogger [])
    (bs "CandidateServers") false
    ([] ++ VString (bs "region") :: VString (bs "CA")
        :: VString (bs "count") :: VInt 3 :: [])
  = outputNotice ContextError_example timestamp_example (mkLogger [])
      (bs "CandidateServers") false
      ([] ++ VString (bs "count") :: VInt 3
          :: VString (bs "region") :: VString (bs "CA") :: []).
Proof.
  apply outputNotice_pair_order; [reflexivity|].
  intros K. discriminate K.
Defined.

(** X14: A pair whose name is given again later leaves no trace in the line.
    *)
Theorem outputNotice_name_given_again ContextError timestamp l noticeType
  showUser pre s v1 mid v2 post :
  Nat.even (length pre) = true -> Nat.even (length mid) = true ->
  outputNotice ContextError timestamp l noticeType showUser
    (pre ++ VString s :: v1 :: mid ++ VString s :: v2 :: post)
  = outputNotice ContextError timestamp l noticeType showUser
      (pre ++ mid ++ VString s :: v2 :: post).
Proof.
  intros E1 E2. unfold outputNotice. f_equal.
  apply notice_output_fields. intros k.
  rewrite !(collect_args_app pre _ [] E1). cbn [collect_args].
  rewrite !(collect_args_app mid _ _ E2). cbn [collect_args].
  apply collect_args_assoc. rewrite !assoc_map_set.
  destruct (bytes_eqb s k) eqn:Es; [reflexivity|].
  apply collect_args_assoc. rewrite assoc_map_set, Es. reflexivity.
Qed.

Lemma outputNotice_name_given_again_witness :
  outputNotice ContextError_example timestamp_example (mkLogger [])
    (bs "Info") false
    ([] ++ VString (bs "n") :: VInt 1
        :: [VString (bs "m"); VInt 5] ++ VString (bs "n") :: VInt 2 :: [])
  = outputNotice ContextError_example timestamp_example (mkLogger [])
      (bs "Info") false
      ([] ++ [VString (bs "m"); VInt 5] ++ VString (bs "n") :: VInt 2 :: []).
Proof.
  apply outputNotice_name_given_again; reflexivity.
Defined.

End ArgsFacts.

(** * Emissions read by the receivers *)

Module ConsoleFacts.
Import UTF8 JSON Receiver Notice Console.
Import UTF8Facts ReceiverFacts StringFacts ParseFacts MarshalFacts CodecFacts
  LineFacts.

(** Where [Unmarshal] reports no error, the object is the one it fills
    when the error is dropped. *)
Lemma decode_fill ms : forall o o',
  decode_noticeObject ms o = Some o' -> fill_noticeObject ms o = o'.
Proof.
  induction ms as [|[[key raw] v] ms IH]; intros o o' H.
  - injection H as ->. reflexivity.
  - cbn [decode_noticeObject fill_noticeObject] in *.
    destruct (find_field noticeObject_fields key None) as [[| |]|];
      try (apply IH; exact H);
      destruct v; cbn [store_string] in H; try discriminate H;
      try (apply IH; exact H);
      destruct o; apply IH; exact H.
Qed.

Lemma Unmarshal_agree notice o :
  Unmarshal_noticeObject notice = Ok o -> Unmarshal_ignoring_error notice = o.
Proof.
  unfold Unmarshal_noticeObject, Unmarshal_ignoring_error.
  destruct (parse notice) as [[| | | | |ms]|]; try discriminate;
    try (intros [= <-]; reflexivity).
  destruct (decode_noticeObject ms _) as [o1|] eqn:E; [|discriminate].
  intros [= <-]. apply decode_fill. exact E.
Qed.

Lemma console_line_envelope timestamp noticeType showUser noticeData :
  Forall (fun kv => scalar (snd kv)) noticeData ->
  console_line (envelope_text timestamp noticeType showUser noticeData)
  = coerce timestamp ++ bs " " ++ coerce noticeType ++ bs " "
      ++ flat_text noticeData ++ [newline].
Proof.
  intros H. unfold console_line.
  rewrite (Unmarshal_agree _ (mkNoticeObject (coerce noticeType)
                                (flat_text noticeData) (coerce timestamp))).
  - reflexivity.
  - rewrite <- (app_nil_r (envelope_text _ _ _ _)).
    apply Unmarshal_envelope; [exact H|reflexivity].
Qed.

(** The chunk of an emission that serializes is its output and a
    newline, and the output holds none. *)
Lemma chunk_of_serializes ContextError e :
  serializes e ->
  chunk_of ContextError e = output_of ContextError e ++ [newline]
  /\ ~ In newline (output_of ContextError e).
Proof.
  intros [enc M]. unfold chunk_of, output_of.
  destruct (outputNotice_line ContextError _ _ _ _ _ (mkLogger []) M)
    as (W & N & _).
  rewrite W. unfold notice_output. rewrite M. split; [reflexivity|exact N].
Qed.

(** X18: A logger set to write to a receiver, and emissions that serialize:
    the callback runs once for each, in order, with the output of the
    emission, and nothing stays in the buffer. *)
Theorem WriteAll_emissions ContextError es :
  Forall serializes es ->
  WriteAll NewNoticeReceiver (map (chunk_of ContextError) es)
  = (NewNoticeReceiver, map (output_of ContextError) es).
Proof.
  unfold NewNoticeReceiver. induction 1 as [|e es He _ IH]; [reflexivity|].
  destruct (chunk_of_serializes ContextError e He) as [C N].
  cbn [map WriteAll]. rewrite C.
  rewrite (Write_delimiter (mkReceiver []) _ (output_of ContextError e) []
             eq_refl N).
  cbn [after calls]. rewrite IH. reflexivity.
Qed.

Lemma WriteAll_emissions_witness :
  WriteAll NewNoticeReceiver
    (map (chunk_of ContextError_example)
       [mkEmission timestamp_example (bs "Tunnels") false
          [VString (bs "count"); VInt 1];
        mkEmission timestamp_example (bs "Info") false
          [VString (bs "message"); VString (bs "up")]])
  = (NewNoticeReceiver,
     map (output_of ContextError_example)
       [mkEmission timestamp_example (bs "Tunnels") false
          [VString (bs "count"); VInt 1];
        mkEmission timestamp_example (bs "Info") false
          [VString (bs "message"); VString (bs "up")]]).
Proof.
  apply WriteAll_emissions.
  repeat constructor; eexists; vm_compute; reflexivity.
Defined.

(** X19: The console rewriter fed with the chunk of an emission whose fields
    are strings, ints and bools writes one line: the timestamp, the kind,
    and the data object as [json.Marshal] encodes it, with a space between;
    timestamp and kind come as the encoder passes them on, [coerce] standing
    for the replacement of bytes that are not UTF-8. *)
Theorem ConsoleWrite_emission ContextError writer e :
  Forall (fun kv => scalar (snd kv)) (collect_args (fields e) []) ->
  exists payload,
    Marshal (VMap (collect_args (fields e) [])) = Ok payload /\
    ConsoleWrite (NewNoticeConsoleRewriter writer) (chunk_of ContextError e)
    = mkConsoleRewriter NewNoticeReceiver
        (writer ++ coerce (at_time e) ++ bs " " ++ coerce (kind e) ++ bs " "
           ++ payload ++ [newline]).
Proof.
  intros H. exists (flat_text (collect_args (fields e) [])).
  split; [apply Marshal_flat; exact H|].
  assert (S : serializes e)
    by (eexists; apply Marshal_notice_obj; exact H).
  destruct (chunk_of_serializes ContextError e S) as [C N].
  unfold ConsoleWrite, NewNoticeConsoleRewriter. cbn [framing console].
  rewrite C.
  rewrite (Write_delimiter NewNoticeReceiver _ (output_of ContextError e) []
             eq_refl N).
  cbn [after calls map concat]. unfold output_of.
  rewrite (notice_output_envelope _ _ _ _ _ H).
  rewrite (console_line_envelope _ _ _ _ H), app_nil_r. reflexivity.
Qed.

Lemma ConsoleWrite_emission_witness :
  exists payload,
    Marshal (VMap (collect_args [VString (bs "count"); VInt 1] []))
    = Ok payload /\
    ConsoleWrite (NewNoticeConsoleRewriter (bs "before"))
      (chunk_of ContextError_example
         (mkEmission timestamp_example (bs "Tunnels") false
            [VString (bs "count"); VInt 1]))
    = mkConsoleRewriter NewNoticeReceiver
        (bs "before" ++ coerce timestamp_example ++ bs " "
           ++ coerce (bs "Tunnels") ++ bs " " ++ payload ++ [newline]).
Proof.
  apply (ConsoleWrite_emission ContextError_example (bs "before")
           (mkEmission timestamp_example (bs "Tunnels") false
              [VString (bs "count"); VInt 1])).
  repeat constructor.
Defined.

(** ** The kind read back *)

Lemma EncodeRune_RuneError :
  EncodeRune RuneError = [xef; xbf; xbd]%byte.
Proof. vm_compute. reflexivity. Qed.

(** A rune that starts at a byte from [RuneSelf] on is passed on with a
    first byte from [RuneSelf] on. *)
Lemma coerce_high b t r size :
  0x80 <= b2z b -> DecodeRune (b :: t) = (r, size) ->
  exists c rest, EncodeRune r = c :: rest /\ 0x80 <= b2z c.
Proof.
  intros Hb E. destruct (decoded_inv_high b t r size Hb E) as [[-> _]|Hs].
  - rewrite EncodeRune_RuneError. eexists _, _. split; [reflexivity|].
    vm_compute. discriminate.
  - rewrite (decode_encode _ _ _ E Hs).
    destruct size as [|size]; [lia|]. cbn [firstn].
    eexists _, _. split; [reflexivity|exact Hb].
Qed.

Lemma coerce_loop_ascii n : forall s t,
  Forall (fun b => b2z b < 0x80) t -> (length s <= n)%nat ->
  coerce_loop n s = t -> s = t.
Proof.
  induction n as [|n IH]; intros s t Ht Hn E.
  - destruct s; [exact E|simpl in Hn; lia].
  - destruct s as [|b s]; [exact E|]. cbn [coerce_loop length] in *.
    destruct (b2z b <? RuneSelf) eqn:Hb.
    + destruct t as [|c t]; [discriminate E|]. injection E as -> E.
      inversion Ht; subst. f_equal. apply IH; [assumption|lia|reflexivity].
    + unfold RuneSelf in Hb. apply Z.ltb_ge in Hb.
      destruct (DecodeRune (b :: s)) as [r size] eqn:D.
      destruct (coerce_high b s r size Hb D) as (c & rest & Er & Hc).
      rewrite Er in E. cbn [app] in E. rewrite <- E in Ht.
      inversion Ht; subst. lia.
Qed.

Lemma coerce_ascii s t :
  Forall (fun b => b2z b < 0x80) t -> coerce s = t -> s = t.
Proof. intros Ht. apply (coerce_loop_ascii (length s)); [exact Ht|lia]. Qed.

(** X21: [GetNoticeTunnels] answers [ok=false] on the output of an emission
    of any other kind. *)
Theorem GetNoticeTunnels_other_kind ContextError timestamp noticeType
  showUser args :
  Forall (fun kv => scalar (snd kv)) (collect_args args []) ->
  noticeType <> bs "Tunnels" ->
  GetNoticeTunnels
    (notice_output ContextError timestamp noticeType showUser args)
  = (0, false).
Proof.
  intros H N. rewrite (notice_output_envelope _ _ _ _ _ H).
  unfold GetNoticeTunnels. rewrite <- (app_nil_r (envelope_text _ _ _ _)).
  rewrite (Unmarshal_envelope _ _ _ _ [] H eq_refl). cbn [NoticeType].
  destruct (bytes_eqb (coerce noticeType) (bs "Tunnels")) eqn:E;
    [|reflexivity].
  apply bytes_eqb_eq in E. apply coerce_ascii in E; [contradiction|].
  repeat constructor.
Qed.

Lemma GetNoticeTunnels_other_kind_witness :
  GetNoticeTunnels
    (notice_output ContextError_example timestamp_example
       (bs "CandidateServers") false
       [VString (bs "region"); VString (bs "CA");
        VString (bs "protocol"); VString (bs "SSH");
        VString (bs "count"); VInt 3])
  = (0, false).
Proof.
  apply GetNoticeTunnels_other_kind.
  - repeat constructor.
  - intros K. discriminate K.
Defined.

End ConsoleFacts.

(** * The line of a failed serialization, read back *)

Module FallbackFacts.
Import UTF8 JSON Receiver Notice Console.
Import UTF8Facts ReceiverFacts StringFacts ParseFacts MarshalFacts CodecFacts
  LineFacts.

Lemma string_loop_plain n : forall s,
  plain s -> (length s <= n)%nat -> string_loop n s = s.
Proof.
  induction n as [|n IH]; intros s P Hn.
  - destruct s; [reflexivity|simpl in Hn; lia].
  - destruct s as [|b s]; [reflexivity|]. inversion P as [|? ? [Hs Hb] P'].
    subst. rewrite string_loop_ascii by exact Hb. rewrite Hs.
    cbn [app length] in *. f_equal. apply IH; [exact P'|lia].
Qed.

Lemma encode_string_plain s :
  plain s -> encode_string s = dquote :: s ++ [dquote].
Proof.
  intros P. unfold encode_string. rewrite string_loop_plain; auto.
Qed.

(** With a plain error text, the line is the encoding of an object with
    the one member Alert. *)
Lemma fallback_text msg :
  plain msg ->
  bs "{" ++ [dquote] ++ bs "Alert" ++ [dquote] ++ bs ":{" ++ [dquote]
     ++ bs "message" ++ [dquote] ++ bs ":" ++ [dquote]
     ++ msg ++ [dquote] ++ bs "}}"
  = "{"%byte
      :: members_text true
           (map fst [(bs "Alert", flat_text [(bs "message", VString msg)],
                      flat_tree [(bs "message", VString msg)])])
      ++ ["}"%byte].
Proof.
  intros P. unfold flat_text, flat_entries.
  cbn [sort_keys insert_key map fst snd members_text scalar_encoding].
  rewrite (encode_string_plain msg P).
  change (encode_string (bs "Alert")) with (dquote :: bs "Alert" ++ [dquote]).
  change (encode_string (bs "message"))
    with (dquote :: bs "message" ++ [dquote]).
  cbn [app bs]. repeat (rewrite <- app_assoc; cbn [app]). reflexivity.
Qed.

Lemma Unmarshal_fallback msg rest :
  plain msg -> skip_ws rest = [] ->
  Unmarshal_noticeObject
    ((bs "{" ++ [dquote] ++ bs "Alert" ++ [dquote] ++ bs ":{" ++ [dquote]
        ++ bs "message" ++ [dquote] ++ bs ":" ++ [dquote]
        ++ msg ++ [dquote] ++ bs "}}") ++ rest)
  = Ok (mkNoticeObject [] [] []).
Proof.
  intros P Hr. rewrite (fallback_text msg P).
  assert (Hs : Forall (fun kv : bytes * value => scalar (snd kv))
                 [(bs "message", VString msg)])
    by (constructor; [exact I|constructor]).
  pose proof (object_reads_as 3
    [(bs "Alert", flat_text [(bs "message", VString msg)],
      flat_tree [(bs "message", VString msg)])]) as R.
  unfold Unmarshal_noticeObject.
  rewrite (parse_text _ _ _ rest (R ltac:(constructor;
             [apply (flat_reads_as _ Hs)|constructor]))).
  - cbn [map fst snd decode_noticeObject].
    replace (find_field noticeObject_fields (coerce (bs "Alert")) None)
      with (@None noticeField) by (vm_compute; reflexivity).
    reflexivity.
  - pose proof (flat_text_length [(bs "message", VString msg)]) as L.
    cbn [length map fst members_text] in *. rewrite !length_app.
    cbn [length]. lia.
  - exact Hr.
Qed.

(** X20: When [json.Marshal] fails and the text of the error is plain, the
    console rewriter prints an entry with nothing in it: two spaces and a
    newline; the text of the error is not shown. *)
Theorem console_line_fallback ContextError timestamp noticeType showUser
  args err :
  Marshal (VMap (notice_obj timestamp noticeType showUser args)) = Err err ->
  plain (ContextError err) ->
  console_line (notice_output ContextError timestamp noticeType showUser args)
  = bs "  " ++ [newline].
Proof.
  intros M P. unfold console_line, notice_output. rewrite M.
  rewrite (ConsoleFacts.Unmarshal_agree _ (mkNoticeObject [] [] [])).
  - reflexivity.
  - rewrite <- (app_nil_r (_ ++ _)).
    apply (Unmarshal_fallback _ [] P eq_refl).
Qed.

Lemma console_line_fallback_witness :
  console_line
    (notice_output ContextError_example timestamp_example (bs "Info") false
       [VString (bs "message");
        VUnsupported (bs "json: unsupported type: chan int")])
  = bs "  " ++ [newline].
Proof.
  apply (console_line_fallback ContextError_example timestamp_example
           (bs "Info") false _
           (MarshalError (bs "json: unsupported type: chan int"))).
  - reflexivity.
  - repeat constructor.
Defined.

(** X22: When [json.Marshal] fails and the text of the error is plain,
    [GetNoticeTunnels] answers [ok=false] on the line, whatever the kind of
    the emission was. *)
Theorem GetNoticeTunnels_fallback ContextError timestamp noticeType showUser
  args err :
  Marshal (VMap (notice_obj timestamp noticeType showUser args)) = Err err ->
  plain (ContextError err) ->
  GetNoticeTunnels
    (notice_output ContextError timestamp noticeType showUser args)
  = (0, false).
Proof.
  intros M P. unfold GetNoticeTunnels, notice_output. rewrite M.
  rewrite <- (app_nil_r (_ ++ _)).
  rewrite (Unmarshal_fallback _ [] P eq_refl). reflexivity.
Qed.

Lemma GetNoticeTunnels_fallback_witness :
  GetNoticeTunnels
    (notice_output ContextError_example timestamp_example (bs "Tunnels") false
       [VString (bs "count");
        VUnsupported (bs "json: unsupported type: chan int")])
  = (0, false).
Proof.
  apply (GetNoticeTunnels_fallback ContextError_example timestamp_example
           (bs "Tunnels") false _
           (MarshalError (bs "json: unsupported type: chan int"))).
  - reflexivity.
  - repeat constructor.
Defined.

End FallbackFacts.

(** * More on concurrent callers *)

Module ConcurrentMore.
Import JSON Notice Concurrent ConcurrentFacts.

Section System.

Variable ContextError : error -> bytes.
Variable program : nat -> option call.

Local Abbreviation step := (step ContextError program).
Local Abbreviation reachable := (reachable ContextError program).


(** The logger stays on the first writer while no call sets another. *)
Lemma logger_unset stderr s :
  (forall t output, program t <> Some (CallSetNoticeOutput output)) ->
  reachable stderr s ->
  noticeLogger s = stderr /\ forall w, w <> stderr -> writers s w = [].
Proof.
  intros Hp. induction 1 as [|s t0 s' _ [IL IW] St]; [split; reflexivity|].
  destruct St; cbn [noticeLogger writers]; try (split; assumption).
  - split; [exact IL|]. intros w Hw. rewrite upd_other by congruence.
    apply IW. exact Hw.
  - exfalso. eapply Hp. eassumption.
Qed.

(** X24: Mutual exclusion: of two goroutines, at most one stands between the
    [Lock] and the [Unlock] of [noticeLoggerMutex]. *)
Theorem one_holder stderr s t u :
  reachable stderr s -> t <> u ->
  holds (at_pc s t) = true -> holds (at_pc s u) = false.
Proof.
  intros R N Ht. destruct (reachable_invariant _ _ stderr s R) as [hist I].
  destruct (holds (at_pc s u)) eqn:Hu; [|reflexivity].
  exfalso. apply N. exact (holder_unique _ _ s hist t u I Ht Hu).
Qed.


(** X26: By default notices go to stderr: with no call of [SetNoticeOutput],
    no other writer receives a byte. *)
Theorem default_output stderr s w :
  (forall t output, program t <> Some (CallSetNoticeOutput output)) ->
  reachable stderr s -> w <> stderr -> writers s w = [].
Proof.
  intros Hp R Hw. destruct (logger_unset stderr s Hp R) as [_ H].
  apply H. exact Hw.
Qed.

End System.

Lemma one_holder_witness :
  holds (at_pc second_printing 0%nat) = false.
Proof.
  apply (one_holder ContextError_example two_emitters 0%nat second_printing
           1%nat 0%nat).
  - exact second_printing_reachable.
  - discriminate.
  - reflexivity.
Defined.


Lemma default_output_witness :
  writers second_printing 1%nat = [].
Proof.
  apply (default_output ContextError_example two_emitters 0%nat
           second_printing 1%nat).
  - intros [|[|t]] output K; discriminate K.
  - exact second_printing_reachable.
  - discriminate.
Defined.

End ConcurrentMore.

(** * The Notice functions *)

Module NoticeFacts.
Import UTF8 JSON Receiver Notice.
Import MarshalFacts LineFacts.

Lemma outputNotice_one_record timestamp noticeType showUser args :
  Forall (fun kv => scalar (snd kv)) (collect_args args []) ->
  one_record
    (fun ContextError l =>
       outputNotice ContextError timestamp l noticeType showUser args).
Proof.
  intros H ContextError l.
  pose proof (Marshal_notice_obj timestamp noticeType showUser args H) as M.
  destruct (outputNotice_line ContextError _ _ _ _ _ l M) as (W & N & _).
  eexists. split; [exact W|]. split; [exact N|].
  intros ContextError'. unfold outputNotice.
  rewrite !(notice_output_envelope _ _ _ _ _ H). reflexivity.
Qed.

(** X17: Every Notice function writes one record, whatever bytes its strings
    hold and whatever its ints are: the values it passes are strings and
    ints, which [json.Marshal] encodes, so [outputNotice] does not come to
    build the Alert text from the error. *)
Theorem Notice_functions_one_record now :
  (forall message, one_record (fun ce l => NoticeInfo ce now l message)) /\
  (forall message, one_record (fun ce l => NoticeAlert ce now l message)) /\
  (forall message, one_record (fun ce l => NoticeError ce now l message)) /\
  (forall version, one_record (fun ce l => NoticeCoreVersion ce now l version)) /\
  (forall region protocol count,
     one_record
       (fun ce l => NoticeCandidateServers ce now l region protocol count)) /\
  (forall ipAddress region protocol frontingAddress,
     one_record
       (fun ce l => NoticeConnectingServer ce now l ipAddress region protocol
                      frontingAddress)) /\
  (forall ipAddress, one_record (fun ce l => NoticeActiveTunnel ce now l ipAddress)) /\
  (forall port, one_record (fun ce l => NoticeSocksProxyPortInUse ce now l port)) /\
  (forall port,
     one_record (fun ce l => NoticeListeningSocksProxyPort ce now l port)) /\
  (forall port, one_record (fun ce l => NoticeHttpProxyPortInUse ce now l port)) /\
  (forall port,
     one_record (fun ce l => NoticeListeningHttpProxyPort ce now l port)) /\
  (forall version,
     one_record (fun ce l => NoticeClientUpgradeAvailable ce now l version)) /\
  (forall url, one_record (fun ce l => NoticeHomepage ce now l url)) /\
  (forall count, one_record (fun ce l => NoticeTunnels ce now l count)) /\
  (forall address, one_record (fun ce l => NoticeUntunneled ce now l address)) /\
  (forall region, one_record (fun ce l => NoticeSplitTunnelRegion ce now l region)).
Proof.
  repeat match goal with |- _ /\ _ => split end; intros;
    apply outputNotice_one_record; cbn [collect_args map_set bytes_eqb];
    repeat (apply Forall_cons; [exact I|]); apply Forall_nil.
Qed.

End NoticeFacts.

(** * The shape of the line *)

Module LayoutFacts.
Import UTF8 JSON Receiver Notice.
Import MarshalFacts LineFacts.

Lemma Print_brace l s :
  written (Print l (s ++ ["}"%byte])) = written l ++ (s ++ ["}"%byte]) ++ [newline].
Proof.
  unfold Print. cbn [written]. f_equal.
  replace (ends_in_newline (s ++ ["}"%byte])) with false
    by (unfold ends_in_newline; rewrite rev_app_distr; reflexivity).
  destruct (s ++ ["}"%byte]) eqn:E; [|reflexivity].
  destruct s; discriminate E.
Qed.

(** The output of [outputNotice] ends in a closing brace on either path. *)
Lemma notice_output_brace ContextError timestamp noticeType showUser args :
  exists s,
    notice_output ContextError timestamp noticeType showUser args
    = s ++ ["}"%byte].
Proof.
  unfold notice_output. rewrite Marshal_VMap.
  destruct (encode_members true _) as [body|e].
  - exists ("{"%byte :: body). reflexivity.
  - exists (bs "{" ++ [dquote] ++ bs "Alert" ++ [dquote] ++ bs ":{"
              ++ [dquote] ++ bs "message" ++ [dquote] ++ bs ":" ++ [dquote]
              ++ ContextError e ++ [dquote] ++ bs "}").
    repeat rewrite <- app_assoc. reflexivity.
Qed.

(** X15: On either path, serialized or not, a call writes its output and one
    newline after it. *)
Theorem outputNotice_appends ContextError timestamp l noticeType showUser
  args :
  written (outputNotice ContextError timestamp l noticeType showUser args)
  = written l
      ++ notice_output ContextError timestamp noticeType showUser args
      ++ [newline].
Proof.
  unfold outputNotice.
  destruct (notice_output_brace ContextError timestamp noticeType showUser
              args) as [s E].
  rewrite E. apply Print_brace.
Qed.

(** X16: The members of the line come in the order of their keys: data,
    noticeType, showUser, timestamp. *)
Theorem notice_output_layout ContextError timestamp noticeType showUser args
  payload :
  Marshal (VMap (collect_args args [])) = Ok payload ->
  notice_output ContextError timestamp noticeType showUser args
  = bs "{" ++ [dquote] ++ bs "data" ++ [dquote] ++ bs ":" ++ payload
      ++ bs "," ++ [dquote] ++ bs "noticeType" ++ [dquote] ++ bs ":"
      ++ encode_string noticeType
      ++ bs "," ++ [dquote] ++ bs "showUser" ++ [dquote] ++ bs ":"
      ++ (if showUser then bs "true" else bs "false")
      ++ bs "," ++ [dquote] ++ bs "timestamp" ++ [dquote] ++ bs ":"
      ++ encode_string timestamp ++ bs "}".
Proof.
  intros H. unfold notice_output.
  rewrite Marshal_VMap, notice_obj_sorted, H.
  cbn [encode_members].
  change (encode_string (bs "data")) with (dquote :: bs "data" ++ [dquote]).
  change (encode_string (bs "noticeType"))
    with (dquote :: bs "noticeType" ++ [dquote]).
  change (encode_string (bs "showUser"))
    with (dquote :: bs "showUser" ++ [dquote]).
  change (encode_string (bs "timestamp"))
    with (dquote :: bs "timestamp" ++ [dquote]).
  cbn [app bs]. repeat (rewrite <- app_assoc; cbn [app]). reflexivity.
Qed.

(** The example of the comment on [SetNoticeOutput]. *)
Lemma notice_output_layout_witness :
  notice_output ContextError_example timestamp_example (bs "Info") false
    [VString (bs "message"); VString (bs "shutdown operate tunnel")]
  = bs "{" ++ [dquote] ++ bs "data" ++ [dquote] ++ bs ":"
      ++ (bs "{" ++ [dquote] ++ bs "message" ++ [dquote] ++ bs ":" ++ [dquote]
            ++ bs "shutdown operate tunnel" ++ [dquote] ++ bs "}")
      ++ bs "," ++ [dquote] ++ bs "noticeType" ++ [dquote] ++ bs ":"
      ++ ([dquote] ++ bs "Info" ++ [dquote])
      ++ bs "," ++ [dquote] ++ bs "showUser" ++ [dquote] ++ bs ":"
      ++ bs "false"
      ++ bs "," ++ [dquote] ++ bs "timestamp" ++ [dquote] ++ bs ":"
      ++ ([dquote] ++ bs "2015-01-28T17:35:13Z" ++ [dquote]) ++ bs "}".
Proof.
  apply (notice_output_layout ContextError_example timestamp_example
           (bs "Info") false
           [VString (bs "message"); VString (bs "shutdown operate tunnel")]).
  reflexivity.
Defined.

End LayoutFacts.

(** * A notice with no data *)

Module PayloadFacts.
Import UTF8 JSON Notice.

(** X23: An object that decodes with no error and gives [Data] nothing, for
    want of a data member, is not answered with a count: the second
    [Unmarshal] has no text to read. *)
Theorem GetNoticeTunnels_no_data notice object :
  Unmarshal_noticeObject notice = Ok object -> Data object = [] ->
  GetNoticeTunnels notice = (0, false).
Proof.
  intros H D. unfold GetNoticeTunnels. rewrite H, D.
  destruct (negb _); reflexivity.
Qed.

Lemma GetNoticeTunnels_no_data_witness :
  GetNoticeTunnels
    (bs "{" ++ [dquote] ++ bs "noticeType" ++ [dquote] ++ bs ":" ++ [dquote]
        ++ bs "Tunnels" ++ [dquote] ++ bs "}")
  = (0, false).
Proof.
  apply (GetNoticeTunnels_no_data _ (mkNoticeObject (bs "Tunnels") [] []));
    reflexivity.
Defined.

End PayloadFacts.

(** * The buffer as a slice: the records stay as they were handed over *)

Module SliceFacts.
Import Receiver ReceiverFacts Slices.

Local Open Scope nat_scope.

Lemma array_set_same h i a : i < length h -> array (set_array h i a) i = a.
Proof.
  unfold array. revert i. induction h as [|x h IH]; intros [|i] H;
    simpl in *; try lia; [reflexivity|]. apply IH. lia.
Qed.

Lemma array_set_other h i j a : i <> j -> array (set_array h i a) j = array h j.
Proof.
  unfold array. revert i j. induction h as [|x h IH]; intros [|i] [|j] H;
    simpl; try reflexivity; try lia. apply IH. lia.
Qed.

Lemma set_array_length h i a : length (set_array h i a) = length h.
Proof.
  revert i. induction h as [|x h IH]; intros [|i]; simpl; try reflexivity.
  rewrite IH. reflexivity.
Qed.

Lemma write_at_length a pos p :
  pos + length p <= length a -> length (write_at a pos p) = length a.
Proof.
  intros H. unfold write_at.
  rewrite !length_app, length_firstn, length_skipn. lia.
Qed.

(** Bytes before the place written stay. *)
Lemma write_at_before a pos p o l :
  o + l <= pos -> pos + length p <= length a ->
  firstn l (skipn o (write_at a pos p)) = firstn l (skipn o a).
Proof.
  intros H1 H2. unfold write_at.
  rewrite <- (firstn_skipn pos a) at 3.
  rewrite !skipn_app, !firstn_app.
  rewrite !length_skipn, !length_firstn.
  replace (o - Nat.min pos (length a)) with 0 by lia.
  replace (l - (Nat.min pos (length a) - o)) with 0 by lia.
  cbn [skipn firstn]. rewrite !app_nil_r. reflexivity.
Qed.

(** The slice grown over the place written reads as it did, and then the
    bytes written. *)
Lemma write_at_read a o l p :
  o + l + length p <= length a ->
  firstn (l + length p) (skipn o (write_at a (o + l) p))
  = firstn l (skipn o a) ++ p.
Proof.
  intros H. unfold write_at.
  rewrite skipn_app, length_firstn.
  replace (o - Nat.min (o + l) (length a)) with 0 by lia.
  cbn [skipn]. rewrite skipn_firstn_comm.
  replace (o + l - o) with l by lia.
  rewrite firstn_app, length_firstn, length_skipn.
  replace (Nat.min l (length a - o)) with l by lia.
  rewrite firstn_firstn. replace (Nat.min (l + length p) l) with l by lia.
  f_equal. replace (l + length p - l) with (length p) by lia.
  rewrite firstn_app, firstn_all. replace (length p - length p) with 0 by lia.
  cbn [firstn]. apply app_nil_r.
Qed.

Lemma read_length h b : fits h b -> length (read h b) = slen b.
Proof.
  intros (_ & H1 & H2). unfold read. rewrite length_firstn, length_skipn. lia.
Qed.

Section Append.

Variable grow : nat -> nat -> nat.
Hypothesis grow_enough : forall cap need, need <= grow cap need.

(** [append]: the buffer grows by the bytes given, and a slice that lies
    apart from it reads as before and still lies apart. *)
Lemma append_keeps h b p h1 b1 :
  fits h b -> append grow h b p = (h1, b1) ->
  fits h1 b1 /\ read h1 b1 = read h b ++ p /\
  forall s, apart h b s -> read h1 s = read h s /\ apart h1 b1 s.
Proof.
  intros F E. pose proof (read_length h b F) as L.
  destruct F as (F1 & F2 & F3). unfold append in E.
  destruct (Nat.leb_spec (slen b + length p) (scap b)) as [C|C];
    injection E as <- <-.
  - split; [|split].
    + unfold fits. cbn [arr slen scap off].
      rewrite set_array_length, array_set_same by exact F1.
      rewrite write_at_length by lia. lia.
    + unfold read. cbn [arr slen scap off].
      rewrite array_set_same by exact F1. apply write_at_read. lia.
    + intros s [S1 S2]. split.
      * unfold read. destruct (Nat.eq_dec (arr b) (arr s)) as [Q|Q].
        -- rewrite <- Q, array_set_same by exact F1.
           apply write_at_before; lia.
        -- rewrite array_set_other by exact Q. reflexivity.
      * unfold apart. cbn [arr off]. rewrite set_array_length.
        split; assumption.
  - split; [|split].
    + unfold fits, array. cbn [arr slen scap off].
      rewrite length_app, nth_middle. cbn [length].
      rewrite !length_app, repeat_length, L.
      pose proof (grow_enough (scap b) (slen b + length p)). lia.
    + unfold read at 1, array. cbn [arr slen scap off].
      rewrite nth_middle. cbn [skipn].
      rewrite app_assoc, firstn_app, length_app, L.
      replace (slen b + length p - (slen b + length p)) with 0 by lia.
      cbn [firstn]. rewrite app_nil_r. apply firstn_all2.
      rewrite length_app, L. lia.
    + intros s [S1 S2]. split.
      * unfold read, array. rewrite app_nth1 by exact S1. reflexivity.
      * unfold apart. cbn [arr off]. rewrite length_app. cbn [length].
        split; [lia|]. left. lia.
Qed.

Lemma Index_newline_at s :
  Index s [newline] <> (-1)%Z ->
  exists pre post,
    s = pre ++ newline :: post /\ ~ In newline pre /\
    Z.to_nat (Index s [newline]) = length pre.
Proof.
  intros N. destruct (Index_newline_found s N) as (pre & post & E & P & T & _).
  exists pre, post. split; [exact E|]. split; [exact P|].
  pose proof (Index_newline_lower s) as Lw.
  unfold slice_to in T. apply (f_equal (@length byte)) in T.
  rewrite length_firstn in T.
  assert (Hl : length pre < length s)
    by (rewrite E, length_app; cbn [length]; lia).
  destruct (Nat.le_gt_cases (Z.to_nat (Index s [newline])) (length s)) as [G|G];
    [lia|]. rewrite Nat.min_r in T by lia. lia.
Qed.

(** One call: the slices read as the buffer and the record of [Write] on
    lists do, and what was handed over before stays. *)
Lemma Write_keeps h b p h1 b1 now :
  fits h b -> Slices.Write grow h b p = (h1, b1, now) ->
  fits h1 b1 /\
  read h1 b1 = buffer (after (Receiver.Write (mkReceiver (read h b)) p)) /\
  map (read h1) now = calls (Receiver.Write (mkReceiver (read h b)) p) /\
  Forall (apart h1 b1) now /\
  forall s, apart h b s -> read h1 s = read h s /\ apart h1 b1 s.
Proof.
  intros F E. unfold Slices.Write in E.
  destruct (append grow h b p) as [h0 b0] eqn:A.
  destruct (append_keeps h b p h0 b0 F A) as (F0 & R0 & K0).
  unfold Receiver.Write. cbn [buffer]. rewrite <- R0.
  destruct (Z.eqb_spec (Index (read h0 b0) [newline]) (-1)) as [Q|Q].
  - injection E as <- <- <-. cbn [after buffer calls map].
    split; [exact F0|]. split; [reflexivity|]. split; [reflexivity|].
    split; [constructor|exact K0].
  - injection E as <- <- <-. cbn [after buffer calls map].
    destruct (Index_newline_at _ Q) as (pre & post & Es & _ & Ei).
    pose proof (read_length h0 b0 F0) as L0.
    assert (Ll : length pre + 1 + length post = slen b0).
    { rewrite <- L0, Es, length_app. cbn [length]. lia. }
    destruct F0 as (G1 & G2 & G3).
    unfold slice_to, slice_from.
    pose proof (Index_newline_lower (read h0 b0)) as Lw.
    replace (Z.to_nat (Index (read h0 b0) [newline] + 1))
      with (S (length pre)) by lia.
    rewrite Ei. split; [|split; [|split; [|split]]].
    + unfold fits. cbn [arr slen scap off]. lia.
    + unfold read at 1. cbn [arr slen scap off].
      unfold read. rewrite skipn_firstn_comm.
      replace (off b0 + length pre + 1) with (S (length pre) + off b0) by lia.
      rewrite <- skipn_skipn. f_equal. lia.
    + unfold read at 1. cbn [arr slen scap off]. unfold read.
      rewrite firstn_firstn. f_equal. f_equal. lia.
    + constructor; [|constructor]. unfold apart. cbn [arr slen scap off].
      split; [exact G1|]. right. lia.
    + intros s Hs. destruct (K0 s Hs) as [Rs [S1 S2]]. split; [exact Rs|].
      unfold apart. cbn [arr slen scap off]. split; [exact S1|].
      destruct S2 as [S2|S2]; [left; exact S2|right; lia].
Qed.

Lemma WriteAll_keeps chunks : forall h b h2 b2 handed,
  fits h b -> Slices.WriteAll grow h b chunks = (h2, b2, handed) ->
  read h2 b2
  = buffer (fst (Receiver.WriteAll (mkReceiver (read h b)) chunks)) /\
  map (read h2) handed
  = snd (Receiver.WriteAll (mkReceiver (read h b)) chunks) /\
  forall s, apart h b s -> read h2 s = read h s.
Proof.
  induction chunks as [|p chunks IH]; intros h b h2 b2 handed F E.
  - injection E as <- <- <-. repeat split; reflexivity.
  - cbn [Slices.WriteAll Receiver.WriteAll] in *.
    destruct (Slices.Write grow h b p) as [[h1 b1] now] eqn:W.
    destruct (Slices.WriteAll grow h1 b1 chunks) as [[h3 b3] later] eqn:Wa.
    injection E as <- <- <-.
    destruct (Write_keeps h b p h1 b1 now F W) as (F1 & R1 & C1 & A1 & K1).
    destruct (IH h1 b1 h3 b3 later F1 Wa) as (R3 & C3 & K3).
    assert (Ea : after (Receiver.Write (mkReceiver (read h b)) p)
                 = mkReceiver (read h1 b1))
      by (rewrite R1; destruct (after _); reflexivity).
    cbv zeta. rewrite Ea.
    destruct (Receiver.WriteAll (mkReceiver (read h1 b1)) chunks)
      as [final rest] eqn:Wl.
    cbn [fst snd] in *. split; [exact R3|]. split.
    + rewrite map_app, C3, <- C1. f_equal.
      apply map_ext_in. intros s Hs. apply K3.
      rewrite Forall_forall in A1. apply A1. exact Hs.
    + intros s Hs. destruct (K1 s Hs) as [Rs As]. rewrite <- Rs.
      apply K3. exact As.
Qed.

(** X7: The slices handed to the callback over any run of calls, read when
    the run is over, hold the records as [Write] on lists gives them: no
    later call writes over a record, though it shares an array with the
    buffer; and the buffer holds what is left. *)
Theorem WriteAll_records_stay chunks h buffer handed :
  Slices.WriteAll grow empty_heap nil_slice chunks = (h, buffer, handed) ->
  map (read h) handed = snd (Receiver.WriteAll NewNoticeReceiver chunks) /\
  read h buffer
  = Receiver.buffer (fst (Receiver.WriteAll NewNoticeReceiver chunks)).
Proof.
  intros E.
  assert (F : fits empty_heap nil_slice)
    by (unfold fits; cbn; lia).
  destruct (WriteAll_keeps chunks _ _ _ _ _ F E) as (R & C & _).
  split; [exact C|exact R].
Qed.

(** X8: The record handed over keeps the capacity of the buffer: past its
    own bytes it reaches over the delimiter and over all that the buffer may
    come to hold in this array. *)
Theorem Write_record_capacity h b p h1 b1 notice :
  fits h b -> Slices.Write grow h b p = (h1, b1, [notice]) ->
  arr notice = arr b1 /\
  off notice + slen notice + 1 = off b1 /\
  off notice + scap notice = off b1 + scap b1.
Proof.
  intros F E. unfold Slices.Write in E.
  destruct (append grow h b p) as [h0 b0] eqn:A.
  destruct (append_keeps h b p h0 b0 F A) as (F0 & _ & _).
  destruct (Z.eqb_spec (Index (read h0 b0) [newline]) (-1)) as [Q|Q];
    [discriminate E|].
  injection E as <- <- <-. cbn [arr slen scap off].
  destruct (Index_newline_at _ Q) as (pre & post & Es & _ & Ei).
  pose proof (read_length h0 b0 F0) as L0.
  rewrite Es, length_app in L0. cbn [length] in L0.
  destruct F0 as (_ & G2 & _). rewrite Ei. lia.
Qed.

End Append.

Lemma grow_double_enough cap need : need <= grow_double cap need.
Proof. unfold grow_double. lia. Qed.

Lemma WriteAll_records_stay_witness :
  map (read [[]; bs "abcd"; bs "abcde" ++ [x0a; x66; x00]%byte])
      [mkSlice 2 0 5 8]
  = snd (Receiver.WriteAll NewNoticeReceiver
           [bs "abcd"; [x65; x0a]%byte; bs "f"]) /\
  read [[]; bs "abcd"; bs "abcde" ++ [x0a; x66; x00]%byte] (mkSlice 2 6 1 2)
  = Receiver.buffer
      (fst (Receiver.WriteAll NewNoticeReceiver
              [bs "abcd"; [x65; x0a]%byte; bs "f"])).
Proof.
  apply (WriteAll_records_stay grow_double grow_double_enough
           [bs "abcd"; [x65; x0a]%byte; bs "f"]).
  reflexivity.
Defined.

Lemma Write_record_capacity_witness :
  arr (mkSlice 1 0 2 6) = arr (mkSlice 1 3 3 3) /\
  off (mkSlice 1 0 2 6) + slen (mkSlice 1 0 2 6) + 1 = off (mkSlice 1 3 3 3) /\
  off (mkSlice 1 0 2 6) + scap (mkSlice 1 0 2 6)
  = off (mkSlice 1 3 3 3) + scap (mkSlice 1 3 3 3).
Proof.
  apply (Write_record_capacity grow_double grow_double_enough
           empty_heap nil_slice [x61; x62; x0a; x63; x64; x65]%byte
           [[]; [x61; x62; x0a; x63; x64; x65]%byte]).
  - unfold fits. cbn. lia.
  - reflexivity.
Defined.

End SliceFacts.

(** * Concurrent writers: the calls take effect one after the other *)

Module WritersFacts.
Import Receiver ReceiverFacts Writers.

Lemma WriteAll_snoc chunks : forall receiver p,
  WriteAll receiver (chunks ++ [p])
  = (after (Write (fst (WriteAll receiver chunks)) p),
     snd (WriteAll receiver chunks)
       ++ calls (Write (fst (WriteAll receiver chunks)) p)).
Proof.
  induction chunks as [|c chunks IH]; intros receiver p.
  - cbn [app WriteAll fst snd]. rewrite app_nil_r. reflexivity.
  - cbn [app WriteAll]. rewrite IH.
    destruct (WriteAll (after (Write receiver c)) chunks) as [final later].
    cbn [fst snd]. rewrite app_assoc. reflexivity.
Qed.

Section System.

Variable chunk : nat -> option bytes.

Local Abbreviation step := (step chunk).
Local Abbreviation reachable := (reachable chunk).
Local Abbreviation chunks_of := (chunks_of chunk).
Local Abbreviation invariant := (invariant chunk).

Lemma writers_upd_same f i x : upd f i x i = x.
Proof. unfold upd. rewrite Nat.eqb_refl. reflexivity. Qed.

Lemma writers_upd_other f i j x : j <> i -> upd f i x j = f j.
Proof.
  intros H. unfold upd. destruct (Nat.eqb_spec j i); [contradiction|reflexivity].
Qed.

Lemma chunks_of_app a b : chunks_of (a ++ b) = chunks_of a ++ chunks_of b.
Proof.
  induction a as [|t a IH]; [reflexivity|]. cbn [app Writers.chunks_of].
  destruct (chunk t); [cbn [app]; f_equal|]; exact IH.
Qed.

Lemma chunks_of_snoc before t p :
  chunk t = Some p -> chunks_of (before ++ [t]) = chunks_of before ++ [p].
Proof.
  intros H. rewrite chunks_of_app. cbn [Writers.chunks_of]. rewrite H.
  reflexivity.
Qed.

Lemma writers_invariant_init : invariant init [].
Proof.
  split; cbn [init mutex buffer called at_pc inside].
  - intros t. split; discriminate.
  - constructor.
  - intros t. split; [intros []|intros [H|H]; discriminate H].
  - intros t H. contradiction.
  - reflexivity.
  - discriminate.
Qed.

(** The state of the holder, from the invariant. *)
Lemma holder s order t :
  invariant s order -> inside (at_pc s t) = true ->
  mutex s = Some t /\
  exists before p, order = before ++ [t] /\ chunk t = Some p.
Proof.
  intros I H. apply (inv_mutex _ _ _ I) in H. split; [exact H|].
  destruct (inv_held _ _ _ I t H) as (before & p & E & C & _).
  exists before, p. split; assumption.
Qed.

(** A step of the holder that keeps the mutex: the other goroutines
    stand where they stood. *)
Lemma keep_mutex s order t x buffer' called' :
  invariant s order -> inside (at_pc s t) = true -> inside x = true ->
  (forall before p,
     order = before ++ [t] -> chunk t = Some p ->
     match at_pc s t with
     | Entered =>
         WriteAll NewNoticeReceiver (chunks_of before)
         = (mkReceiver (buffer s), called s)
     | Appended =>
         exists held,
           WriteAll NewNoticeReceiver (chunks_of before)
           = (mkReceiver held, called s) /\ buffer s = held ++ p
     | _ =>
         WriteAll NewNoticeReceiver (chunks_of order)
         = (mkReceiver (buffer s), called s)
     end ->
     match x with
     | Entered =>
         WriteAll NewNoticeReceiver (chunks_of before)
         = (mkReceiver buffer', called')
     | Appended =>
         exists held,
           WriteAll NewNoticeReceiver (chunks_of before)
           = (mkReceiver held, called') /\ buffer' = held ++ p
     | _ =>
         WriteAll NewNoticeReceiver (chunks_of order)
         = (mkReceiver buffer', called')
     end) ->
  invariant (mkState (mutex s) buffer' called' (upd (at_pc s) t x)) order.
Proof.
  intros I Ht Hx Hk. destruct (holder s order t I Ht) as (Hm & _).
  split; cbn [mutex buffer called at_pc].
  - intros u. destruct (Nat.eq_dec u t) as [->|N].
    + rewrite writers_upd_same. split; [intros _; exact Hm|intros _; exact Hx].
    + rewrite writers_upd_other by exact N. apply (inv_mutex _ _ _ I).
  - apply (inv_nodup _ _ _ I).
  - intros u. destruct (Nat.eq_dec u t) as [->|N].
    + rewrite writers_upd_same, (inv_order _ _ _ I t). split; intros _; right; assumption.
    + rewrite writers_upd_other by exact N. apply (inv_order _ _ _ I).
  - intros u. destruct (Nat.eq_dec u t) as [->|N].
    + intros _. apply (inv_chunk _ _ _ I).
      intros K. rewrite K in Ht. discriminate Ht.
    + rewrite writers_upd_other by exact N. apply (inv_chunk _ _ _ I).
  - rewrite Hm. discriminate.
  - intros u Hu. rewrite Hm in Hu. injection Hu as <-.
    destruct (inv_held _ _ _ I t Hm) as (before & p & E & C & K).
    exists before, p. split; [exact E|]. split; [exact C|].
    rewrite writers_upd_same. exact (Hk before p E C K).
Qed.

(** The step that gives the mutex back. *)
Lemma give_mutex s order t :
  invariant s order -> inside (at_pc s t) = true ->
  forall buffer' called',
  WriteAll NewNoticeReceiver (chunks_of order)
  = (mkReceiver buffer', called') ->
  invariant (mkState None buffer' called' (upd (at_pc s) t Returned)) order.
Proof.
  intros I Ht buffer' called' Hw.
  destruct (holder s order t I Ht) as (Hm & _).
  split; cbn [mutex buffer called at_pc].
  - intros u. destruct (Nat.eq_dec u t) as [->|N].
    + rewrite writers_upd_same. split; discriminate.
    + rewrite writers_upd_other by exact N. split; [|discriminate].
      intros K. apply (inv_mutex _ _ _ I) in K. congruence.
  - apply (inv_nodup _ _ _ I).
  - intros u. destruct (Nat.eq_dec u t) as [->|N].
    + rewrite writers_upd_same, (inv_order _ _ _ I t).
      split; intros _; [left; reflexivity|right; exact Ht].
    + rewrite writers_upd_other by exact N. apply (inv_order _ _ _ I).
  - intros u. destruct (Nat.eq_dec u t) as [->|N].
    + intros _. apply (inv_chunk _ _ _ I).
      intros K. rewrite K in Ht. discriminate Ht.
    + rewrite writers_upd_other by exact N. apply (inv_chunk _ _ _ I).
  - intros _. exact Hw.
  - discriminate.
Qed.

Lemma writers_step_invariant s t s' order :
  invariant s order -> step s t s' -> exists order', invariant s' order'.
Proof.
  intros I St.
  destruct St as [p Hc Hpc Hm|p Hc Hpc|Hpc Hi|Hpc Hi|Hpc].
  - exists (order ++ [t]).
    assert (Hn : ~ In t order).
    { rewrite (inv_order _ _ _ I t), Hpc. intros [K|K]; discriminate K. }
    split; cbn [mutex buffer called at_pc].
    + intros u. destruct (Nat.eq_dec u t) as [->|N].
      * rewrite writers_upd_same. split; reflexivity.
      * rewrite writers_upd_other by exact N. split.
        -- intros K. apply (inv_mutex _ _ _ I) in K. congruence.
        -- intros K. congruence.
    + apply NoDup_app; [apply (inv_nodup _ _ _ I)|repeat constructor; intros []|].
      intros u Hu [<-|[]]. exact (Hn Hu).
    + intros u. rewrite in_app_iff. destruct (Nat.eq_dec u t) as [->|N].
      * rewrite writers_upd_same. split; [intros _; right; reflexivity|].
        intros _. right. left. reflexivity.
      * rewrite writers_upd_other by exact N. rewrite (inv_order _ _ _ I u).
        split; [intros [K|[K|[]]]; [exact K|congruence]|intros K; left; exact K].
    + intros u. destruct (Nat.eq_dec u t) as [->|N].
      * intros _. congruence.
      * rewrite writers_upd_other by exact N. apply (inv_chunk _ _ _ I).
    + discriminate.
    + intros u [= <-]. exists order, p. split; [reflexivity|].
      split; [exact Hc|]. rewrite writers_upd_same. apply (inv_free _ _ _ I Hm).
  - exists order.
    apply (keep_mutex s order t Appended (buffer s ++ p) (called s) I);
      [rewrite Hpc; reflexivity|reflexivity|].
    intros before p0 E C K. rewrite Hpc in K.
    assert (p0 = p) as -> by congruence.
    exists (buffer s). split; [exact K|reflexivity].
  - exists order.
    assert (Ht : inside (at_pc s t) = true) by (rewrite Hpc; reflexivity).
    apply (give_mutex s order t I Ht).
    destruct (holder s order t I Ht) as (Hm & _).
    destruct (inv_held _ _ _ I t Hm) as (before & p & E & C & K).
    rewrite Hpc in K. destruct K as (held & Kw & Kb).
    rewrite E, (chunks_of_snoc _ _ _ C), WriteAll_snoc, Kw. cbn [fst snd].
    unfold Write. cbn [Receiver.buffer]. rewrite <- Kb, Hi.
    cbn [Z.eqb after calls]. rewrite app_nil_r. reflexivity.
  - exists order.
    apply (keep_mutex s order t Called _ _ I);
      [rewrite Hpc; reflexivity|reflexivity|].
    intros before p E C K. rewrite Hpc in K. destruct K as (held & Kw & Kb).
    rewrite E, (chunks_of_snoc _ _ _ C), WriteAll_snoc, Kw. cbn [fst snd].
    unfold Write. cbn [Receiver.buffer]. rewrite <- Kb.
    destruct (Z.eqb_spec (Index (buffer s) [newline]) (-1)) as [Q|_];
      [contradiction|reflexivity].
  - exists order.
    assert (Ht : inside (at_pc s t) = true) by (rewrite Hpc; reflexivity).
    apply (give_mutex s order t I Ht).
    destruct (holder s order t I Ht) as (Hm & _).
    destruct (inv_held _ _ _ I t Hm) as (before & p & E & C & K).
    rewrite Hpc in K. exact K.
Qed.

Lemma writers_reachable_invariant s : reachable s -> exists order, invariant s order.
Proof.
  induction 1 as [|s t s' _ [order I] St].
  - exists []. apply writers_invariant_init.
  - exact (writers_step_invariant s t s' order I St).
Qed.


(** X10: While a call is between its [Lock] and its [Unlock] no other is. *)
Theorem one_writer s t u :
  reachable s -> t <> u ->
  inside (at_pc s t) = true -> inside (at_pc s u) = false.
Proof.
  intros R N Ht. destruct (writers_reachable_invariant s R) as [order I].
  destruct (inside (at_pc s u)) eqn:Hu; [|reflexivity].
  apply (inv_mutex _ _ _ I) in Ht, Hu. congruence.
Qed.

End System.

Lemma second_entered_reachable : reachable two_writers second_entered.
Proof.
  apply (reach_step two_writers init 1%nat); [apply reach_init|].
  exact (step_lock two_writers init 1 [x63; x0a]%byte eq_refl eq_refl eq_refl).
Defined.



Lemma one_writer_witness : inside (at_pc second_entered 0%nat) = false.
Proof.
  apply (one_writer two_writers second_entered 1%nat 0%nat).
  - exact second_entered_reachable.
  - discriminate.
  - reflexivity.
Defined.

End WritersFacts.
